(** * MemoryBot: a shallow embedding of [index.js] and [convex/memories.js]

    The definitions follow the source top to bottom: configuration, the key
    helpers, [APIKeyManager], [MemoryCache], the fact store of
    [convex/memories.js], [RequestQueue], the tool dispatcher [executeTool],
    the retrying client [groqChat], the history helpers, the conversation
    loop [chat] and the handler of text messages.  The properties come
    after the definitions.

    Conventions of the embedding.
    - A JavaScript string is a Rocq [string], one [ascii] per UTF-16 code
      unit; code units above 255 are not represented.
    - A JavaScript number is a [num]: an exact rational, kept in lowest
      terms, or [NaN].  Rounding of doubles and the infinities are not
      represented.  [Date.now()] is an integer number of milliseconds.
    - The asynchronous functions are functions on a [World]: the module-level
      objects, the table of the fact store, the clock and the events that the
      run has asked of the outside.  What the outside answers is given by an
      [Env].  One call is followed from its start to its end; the
      interleaving of calls is the matter of [RequestQueue] alone.
    - [log.*] only writes to the console and is left out. *)

From Stdlib Require Import Ascii String QArith Qround.
From stdpp Require Import gmap strings list fin_maps pretty functions relations.

Local Open Scope Z_scope.

(** ** Numbers *)

Inductive num : Type :=
  | Fin (q : Q)
  | NaN.

Definition ofZ (z : Z) : num := Fin (inject_Z z).

Definition num_add (a b : num) : num :=
  match a, b with
  | Fin x, Fin y => Fin (Qred (x + y))
  | _, _ => NaN
  end.

Definition num_sub (a b : num) : num :=
  match a, b with
  | Fin x, Fin y => Fin (Qred (x - y))
  | _, _ => NaN
  end.

Definition num_mul (a b : num) : num :=
  match a, b with
  | Fin x, Fin y => Fin (Qred (x * y))
  | _, _ => NaN
  end.

(** [a <= b] and [a < b]: false as soon as one side is [NaN]. *)
Definition num_leb (a b : num) : bool :=
  match a, b with
  | Fin x, Fin y => Qle_bool x y
  | _, _ => false
  end.

Definition num_ltb (a b : num) : bool :=
  match a, b with
  | Fin x, Fin y => negb (Qle_bool y x)
  | _, _ => false
  end.

(** [Math.max(0, a)]: [NaN] when [a] is. *)
Definition num_max0 (a : num) : num :=
  match a with
  | Fin x => if Qle_bool x 0 then Fin 0 else Fin x
  | NaN => NaN
  end.

(** ** Configuration (the [CONFIG] object) *)

Module CONFIG.
Definition FALLBACK_MODEL : string := "openai/gpt-oss-20b".
Definition MAX_TOKENS : Z := 4096.
Definition MAX_HISTORY : nat := 20.
Definition MAX_ITERATIONS : nat := 5.
Definition CACHE_TTL : Z := 5 * 60 * 1000.
Definition MAX_RETRIES : nat := 3.
Definition RETRY_BASE_DELAY : Z := 2000.
Definition MAX_MESSAGE_LENGTH : nat := 4000.
End CONFIG.

(** ** APIKeyManager *)

Module APIKeyManager.

(** The object stored in [this.state] for one key. *)
Record KeyState : Type := mkKeyState {
  blockedUntil : num;
  failCount : nat;
}.

Record t : Type := mk {
  keys : list string;
  state : gmap string KeyState;
  idx : nat;
}.

(** The test of the first loop of [pick]. *)
Definition usable (now : Z) (s : KeyState) : bool :=
  num_leb (blockedUntil s) (ofZ now) && (failCount s <? 3)%nat.

(** Outcome of the first loop of [pick]: a key was returned from inside the
    loop, the loop ran to its end, or [state.get] gave [undefined] and the
    property access raised a TypeError. *)
Inductive scan : Type :=
  | Hit (k : string) (m : t)
  | Miss
  | Crash.

(** [for (let i = ...; i < this.keys.length; i++)], started at [i] with
    [todo] iterations left. *)
Fixpoint pick_scan (now : Z) (m : t) (i todo : nat) : scan :=
  match todo with
  | O => Miss
  | S todo' =>
      let j := ((idx m + i) mod length (keys m))%nat in
      match keys m !! j with
      | None => Crash
      | Some k =>
          match state m !! k with
          | None => Crash
          | Some s =>
              if usable now s
              then Hit k (mk (keys m) (state m) ((j + 1) mod length (keys m))%nat)
              else pick_scan now m (S i) todo'
          end
      end
  end.

(** [for (const k of this.keys)] with the running [best]. *)
Fixpoint pick_best (st : gmap string KeyState) (best : string)
    (ks : list string) : option string :=
  match ks with
  | [] => Some best
  | k :: ks' =>
      match st !! best, st !! k with
      | Some bestState, Some kState =>
          pick_best st
            (if num_ltb (blockedUntil kState) (blockedUntil bestState)
             then k else best)
            ks'
      | _, _ => None
      end
  end.

(** [pick()], with [now] the value of [Date.now()].  [None] stands for the
    two outcomes that the constructor rules out: the TypeError raised when a
    key has no state record, and the [undefined] returned for an empty pool. *)
Definition pick (now : Z) (m : t) : option (string * t) :=
  match pick_scan now m 0 (length (keys m)) with
  | Hit k m' => Some (k, m')
  | Crash => None
  | Miss =>
      match keys m with
      | [] => None
      | k0 :: _ =>
          match pick_best (state m) k0 (keys m) with
          | Some best => Some (best, m)
          | None => None
          end
      end
  end.

(** [block(key, ms)] at time [now]. *)
Definition block (now : Z) (key : string) (ms : num) (m : t) : t :=
  match state m !! key with
  | Some s =>
      mk (keys m)
         (<[key := mkKeyState (num_add (ofZ now) ms) (S (failCount s))]> (state m))
         (idx m)
  | None => m
  end.

Definition resetFailures (key : string) (m : t) : t :=
  match state m !! key with
  | Some s => mk (keys m) (<[key := mkKeyState (blockedUntil s) 0]> (state m)) (idx m)
  | None => m
  end.

(** [Math.max(0, (this.state.get(key)?.blockedUntil ?? 0) - Date.now())]. *)
Definition waitTime (now : Z) (key : string) (m : t) : num :=
  num_max0 (num_sub (default (ofZ 0) (blockedUntil <$> state m !! key)) (ofZ now)).

(** A key that the first loop of [pick] accepts. *)
Definition eligible (now : Z) (m : t) (k : string) : bool :=
  match state m !! k with
  | Some s => usable now s
  | None => false
  end.

(** [blockedUntil] of a key ([NaN] stands in for a key without record). *)
Definition until (m : t) (k : string) : num :=
  default NaN (blockedUntil <$> state m !! k).

(** What the constructor establishes and no method breaks: at least one
    key, and a state record for every key. *)
Definition wf (m : t) : Prop :=
  keys m ≠ [] ∧ Forall (λ k, is_Some (state m !! k)) (keys m).

(** The pool the constructor builds from the configured keys. *)
Definition init (ks : list string) : t :=
  mk ks (list_to_map ((λ k, (k, mkKeyState (ofZ 0) 0)) <$> ks)) 0.

End APIKeyManager.

(** ** Characters and strings *)

Definition code (c : ascii) : N := N_of_ascii c.

(** [\s]: the white space and line terminator code units below 256. *)
Definition isSpace (c : ascii) : bool :=
  let n := code c in
  ((9 <=? n) && (n <=? 13) || (n =? 32) || (n =? 160))%N.

Definition isDigit (c : ascii) : bool :=
  let n := code c in ((48 <=? n) && (n <=? 57))%N.

(** [[a-z0-9_]] *)
Definition isKeyChar (c : ascii) : bool :=
  let n := code c in
  ((97 <=? n) && (n <=? 122) || (48 <=? n) && (n <=? 57) || (n =? 95))%N.

(** [toLowerCase] on one code unit below 256. *)
Definition lowerChar (c : ascii) : ascii :=
  let n := code c in
  if ((65 <=? n) && (n <=? 90) || (192 <=? n) && (n <=? 222) && negb (n =? 215))%N
  then ascii_of_N (n + 32) else c.

Fixpoint toLowerCase (s : string) : string :=
  match s with
  | EmptyString => EmptyString
  | String c s' => String (lowerChar c) (toLowerCase s')
  end.

(** [.replace(/\s+/g, "_")]; [inRun] tells that the previous code unit was
    white space, already replaced. *)
Fixpoint replaceSpaces (inRun : bool) (s : string) : string :=
  match s with
  | EmptyString => EmptyString
  | String c s' =>
      if isSpace c
      then (if inRun then replaceSpaces true s' else String "_" (replaceSpaces true s'))
      else String c (replaceSpaces false s')
  end.

(** [.replace(/[^a-z0-9_]/g, "")] *)
Fixpoint keepKeyChars (s : string) : string :=
  match s with
  | EmptyString => EmptyString
  | String c s' =>
      if isKeyChar c then String c (keepKeyChars s') else keepKeyChars s'
  end.

Definition normalizeKey (key : string) : string :=
  keepKeyChars (replaceSpaces false (toLowerCase key)).

(** [s.trim()] *)
Fixpoint trimStart (s : string) : string :=
  match s with
  | String c s' => if isSpace c then trimStart s' else s
  | EmptyString => EmptyString
  end.
Fixpoint trimEnd (s : string) : string :=
  match s with
  | EmptyString => EmptyString
  | String c s' =>
      let r := trimEnd s' in
      if isSpace c && String.eqb r "" then EmptyString else String c r
  end.
Definition trim (s : string) : string := trimEnd (trimStart s).

(** The string made of a line feed. *)
Definition nl : string := String (ascii_of_N 10) EmptyString.

(** [s.includes(sub)] *)
Fixpoint includes (sub s : string) : bool :=
  String.prefix sub s ||
  match s with
  | EmptyString => false
  | String _ s' => includes sub s'
  end.

(** [arr.join(sep)] *)
Fixpoint join (sep : string) (l : list string) : string :=
  match l with
  | [] => ""
  | [x] => x
  | x :: l' => x +:+ sep +:+ join sep l'
  end.

(** [s] between double quotes. *)
Definition quote (s : string) : string :=
  String (ascii_of_N 34) (s +:+ String (ascii_of_N 34) EmptyString).

(** The result object of [validateKey]: [{valid: false, error}] or
    [{valid: true, normalized}]. *)
Inductive validation : Type :=
  | Invalid (error : string)
  | Valid (normalized : string).

Definition genericKeys : list string :=
  ["key"; "value"; "info"; "data"; "thing"; "item"; "note"; "fact";
   "detail"; "text"; "content"; "field"; "var"; "temp"; "test"].

Definition validateKey (key : string) : validation :=
  let normalized := normalizeKey key in
  if (String.length normalized <? 2)%nat then
    Invalid "Key too short (min 2 chars)"
  else if (100 <? String.length normalized)%nat then
    Invalid "Key too long (max 100 chars)"
  else if bool_decide (normalized ∈ genericKeys) then
    Invalid ("Key " +:+ quote normalized +:+
      " is too generic. Use descriptive names like " +:+ quote "github_token" +:+
      " or " +:+ quote "mom_birthday")
  else Valid normalized.

(** Every code unit of [s] is in [[a-z0-9_]]. *)
Definition keyChars (s : string) : Prop :=
  Forall (λ c, isKeyChar c = true) (list_ascii_of_string s).

(** ** The retry-after hint: [/try again in ([\d.]+)s/i] and [parseFloat] *)

(** Case folding of the [i] flag, on the code units that can match an ASCII
    letter of the pattern: only the ASCII letters fold onto ASCII letters. *)
Definition canon (c : ascii) : ascii :=
  let n := code c in
  if ((97 <=? n) && (n <=? 122))%N then ascii_of_N (n - 32) else c.

(** [s] starts with [p] up to case: what is left of [s] after it. *)
Fixpoint afterPrefix (p s : string) : option string :=
  match p, s with
  | EmptyString, _ => Some s
  | String a p', String b s' =>
      if decide (canon a = canon b) then afterPrefix p' s' else None
  | String _ _, EmptyString => None
  end.

(** The longest run of [[\d.]] at the head of [s], and what follows it. *)
Fixpoint spanDigitsDots (s : string) : string * string :=
  match s with
  | String c s' =>
      if isDigit c || (code c =? 46)%N
      then let '(run, rest) := spanDigitsDots s' in (String c run, rest)
      else (EmptyString, s)
  | EmptyString => (EmptyString, EmptyString)
  end.

(** The pattern matched at the head of [s]: the captured group.  The
    greedy run needs no backtracking, since [s] is not in its class. *)
Definition hintHere (s : string) : option string :=
  match afterPrefix "try again in " s with
  | None => None
  | Some rest =>
      match spanDigitsDots rest with
      | (EmptyString, _) => None
      | (run, String c _) => if decide (canon c = "S"%char) then Some run else None
      | (_, EmptyString) => None
      end
  end.

(** [message.match(/try again in ([\d.]+)s/i)]: group 1 of the leftmost
    match, [None] for [null]. *)
Fixpoint matchRetryHint (message : string) : option string :=
  match hintHere message with
  | Some run => Some run
  | None =>
      match message with
      | EmptyString => None
      | String _ message' => matchRetryHint message'
      end
  end.

Fixpoint spanDigits (s : string) : string * string :=
  match s with
  | String c s' =>
      if isDigit c
      then let '(run, rest) := spanDigits s' in (String c run, rest)
      else (EmptyString, s)
  | EmptyString => (EmptyString, EmptyString)
  end.

(** The value of a string of decimal digits, most significant first. *)
Fixpoint digitsValue (acc : Z) (s : string) : Z :=
  match s with
  | EmptyString => acc
  | String c s' => digitsValue (10 * acc + (Z.of_N (code c) - 48)) s'
  end.

(** [parseFloat] on a string of digits and dots, which is all that the
    pattern captures: the longest prefix [digits], [digits.digits],
    [digits.] or [.digits] is read; without one the result is [NaN]. *)
Definition parseFloat (s : string) : num :=
  let '(ip, rest) := spanDigits s in
  let fp := match rest with
            | String c rest' => if (code c =? 46)%N then fst (spanDigits rest') else EmptyString
            | EmptyString => EmptyString
            end in
  match ip, fp with
  | EmptyString, EmptyString => NaN
  | _, _ =>
      Fin (Qred (Qmake (digitsValue 0 (ip +:+ fp))
                       (Z.to_pos (10 ^ Z.of_nat (String.length fp)))))
  end.


(** ** maskSensitive *)

(** [/word/i.test(s)] for a word of ASCII letters. *)
Fixpoint testWord (word s : string) : bool :=
  match afterPrefix word s with
  | Some _ => true
  | None =>
      match s with
      | EmptyString => false
      | String _ s' => testWord word s'
      end
  end.

Definition sensitivePatterns : list string :=
  ["password"; "token"; "key"; "secret"; "credential"; "auth"].

Definition maskSensitive (value key : string) : string :=
  let isSensitive := existsb (λ p, testWord p key) sensitivePatterns in
  if isSensitive && (8 <? String.length value)%nat
  then substring 0 3 value +:+ "..." +:+ substring (String.length value - 3) 3 value
  else value.

(** ** Errors and results *)

(** A thrown value: a provider error with its HTTP [status], or a plain
    [Error], whose [status] is [undefined]. *)
Record Err : Type := mkErr {
  status : option Z;
  message : string;
}.

(** [new Error(msg)] *)
Definition Error (msg : string) : Err := mkErr None msg.

Inductive result (A : Type) : Type :=
  | Ok (a : A)
  | Throw (e : Err).
Arguments Ok {A} a.
Arguments Throw {A} e.

(** [err.status === n] and [err.status >= n] *)
Definition statusIs (e : Err) (n : Z) : bool := bool_decide (status e = Some n).
Definition statusGe (e : Err) (n : Z) : bool :=
  match status e with
  | Some s => n <=? s
  | None => false
  end.

(** ** MemoryCache

    Every method starts with [String(uid)]; the embedding passes that string.
    [now] is the value of [Date.now()] during the call. *)

Module MemoryCache.

(** One value of [this.store]: [{ map, ts }]. *)
Record entry : Type := mkEntry {
  map : gmap string string;
  ts : Z;
}.

Abbreviation t := (gmap string entry).

Definition _entry (now : Z) (uid : string) (c : t) : option entry * t :=
  match c !! uid with
  | None => (None, c)
  | Some e =>
      if CONFIG.CACHE_TTL <? now - ts e
      then (None, delete uid c)
      else (Some e, c)
  end.

(** An entry that [_entry] still hands out at time [now]. *)
Definition fresh (now : Z) (e : entry) : Prop := now - ts e ≤ CONFIG.CACHE_TTL.

Definition getAll (now : Z) (uid : string) (c : t) : option (gmap string string) * t :=
  let '(e, c') := _entry now uid c in (map <$> e, c').

Definition get (now : Z) (uid key : string) (c : t) : option string * t :=
  let '(e, c') := _entry now uid c in (e ≫= (λ e, map e !! key), c').

Definition setAll (now : Z) (uid : string) (arr : list (string * string)) (c : t) : t :=
  <[uid := mkEntry (foldl (λ m kv, <[kv.1 := kv.2]> m) ∅ arr) now]> c.

Definition upsert (now : Z) (uid key value : string) (c : t) : t :=
  let '(e, c') := _entry now uid c in
  match e with
  | Some e => <[uid := mkEntry (<[key := value]> (map e)) now]> c'
  | None => c'
  end.

Definition remove (now : Z) (uid key : string) (c : t) : t :=
  let '(e, c') := _entry now uid c in
  match e with
  | Some e => <[uid := mkEntry (delete key (map e)) (ts e)]> c'
  | None => c'
  end.

Definition isDuplicate (now : Z) (uid key value : string) (c : t) : bool * t :=
  let '(e, c') := _entry now uid c in
  (bool_decide (e ≫= (λ e, map e !! key) = Some value), c').

Definition invalidate (uid : string) (c : t) : t := delete uid c.

Definition size (now : Z) (uid : string) (c : t) : nat * t :=
  let '(e, c') := _entry now uid c in
  (default 0%nat ((λ e, base.size (map e)) <$> e), c').

End MemoryCache.

(** ** The fact store: [convex/memories.js] over the [memories] table *)

Module memories.

(** A document of the table, as [schema.ts] declares it. *)
Record doc : Type := mkDoc {
  userId : string;
  key : string;
  value : string;
}.

(** The table, in order of creation: the order of both indexes among the
    documents of one user. *)
Abbreviation table := (list doc).

Definition by_user (uid : string) (d : doc) : bool :=
  bool_decide (userId d = uid).
Definition by_user_key (uid k : string) (d : doc) : bool :=
  bool_decide (userId d = uid) && bool_decide (key d = k).

(** [.withIndex("by_user_key", ...).first()] *)
Definition first (uid k : string) (db : table) : option doc :=
  List.find (by_user_key uid k) db.

(** [ctx.db.patch(existing._id, { value })] on the first match. *)
Fixpoint patch (uid k v : string) (db : table) : table :=
  match db with
  | [] => []
  | d :: db' =>
      if by_user_key uid k d then mkDoc (userId d) (key d) v :: db'
      else d :: patch uid k v db'
  end.

(** [ctx.db.delete(memory._id)] on the first match. *)
Fixpoint delete1 (uid k : string) (db : table) : table :=
  match db with
  | [] => []
  | d :: db' => if by_user_key uid k d then db' else d :: delete1 uid k db'
  end.

Definition saveMemory (uid k v : string) (db : table) : table :=
  match first uid k db with
  | Some _ => patch uid k v db
  | None => db ++ [mkDoc uid k v]
  end.

Definition getMemory (uid k : string) (db : table) : option doc := first uid k db.

Definition listMemories (uid : string) (db : table) : list doc :=
  List.filter (by_user uid) db.

(** [text.toLowerCase().replace(/[_\s-]/g, '')] *)
Fixpoint dropSeparators (s : string) : string :=
  match s with
  | EmptyString => EmptyString
  | String c s' =>
      if isSpace c || (code c =? 95)%N || (code c =? 45)%N
      then dropSeparators s' else String c (dropSeparators s')
  end.
Definition normalizeText (text : string) : string :=
  dropSeparators (toLowerCase text).

(** [word.replace(/suffix$/, by)] *)
Fixpoint replaceSuffix (suffix by_ word : string) : string :=
  if String.eqb word suffix then by_
  else match word with
       | EmptyString => EmptyString
       | String c word' => String c (replaceSuffix suffix by_ word')
       end.

Definition stemWord (word : string) : string :=
  replaceSuffix "ing" ""
    (replaceSuffix "ies" "y" (replaceSuffix "es" "" (replaceSuffix "s" "" word))).

(** [s.split(/\s+/).filter(w => w.length > 0)]: the maximal runs without
    white space; [cur] is the run being read. *)
Fixpoint splitWords (cur s : string) : list string :=
  match s with
  | EmptyString => if String.eqb cur "" then [] else [cur]
  | String c s' =>
      if isSpace c
      then (if String.eqb cur "" then splitWords "" s' else cur :: splitWords "" s')
      else splitWords (cur +:+ String c EmptyString) s'
  end.

(** The filter of [searchMemories]. *)
Definition matches (query : string) (m : doc) : bool :=
  let searchTerm := trim (toLowerCase query) in
  let normalizedSearch := normalizeText searchTerm in
  let stemmedSearch := stemWord normalizedSearch in
  let searchWords := splitWords "" searchTerm in
  let normalizedKey := normalizeText (key m) in
  let normalizedValue := normalizeText (value m) in
  let stemmedKey := stemWord normalizedKey in
  let stemmedValue := stemWord normalizedValue in
  let wordMatch :=
    existsb (λ word,
      let normalizedWord := normalizeText word in
      let stemmedWord := stemWord normalizedWord in
      includes normalizedWord normalizedKey ||
      includes normalizedWord normalizedValue ||
      includes stemmedWord stemmedKey ||
      includes stemmedWord stemmedValue ||
      includes word (toLowerCase (key m)) ||
      includes word (toLowerCase (value m))) searchWords in
  let fullMatch :=
    includes normalizedSearch normalizedKey ||
    includes normalizedSearch normalizedValue ||
    includes stemmedSearch stemmedKey ||
    includes stemmedSearch stemmedValue ||
    includes searchTerm (toLowerCase (key m)) ||
    includes searchTerm (toLowerCase (value m)) in
  wordMatch || fullMatch.

Definition searchMemories (uid query : string) (db : table) : list doc :=
  List.filter (matches query) (listMemories uid db).

Definition deleteMemory (uid k : string) (db : table) : bool * table :=
  match first uid k db with
  | Some _ => (true, delete1 uid k db)
  | None => (false, db)
  end.

Definition deleteAllMemories (uid : string) (db : table) : nat * table :=
  (length (listMemories uid db), List.filter (λ d, negb (by_user uid d)) db).

End memories.

(** At most one document for a user and a key: what the [by_user_key]
    lookups of the handlers count on. *)
Definition unique (db : memories.table) : Prop :=
  NoDup ((λ d, (memories.userId d, memories.key d)) <$> db).

(** ** RequestQueue

    The promises that [enqueue] creates and chains, with the job queue that
    runs their reactions.  A promise is named after the call that creates
    it: the user, the number of earlier [enqueue] calls of that user, and
    its role in the call.  The task function [fn] is opaque: calling it
    gives a pending promise, which the task settles later on (as the async
    function that the text handler passes does).  The tasks are
    instrumented: the queue carries a record of the calls of [enqueue], of
    the starts of the functions and of their ends. *)

Module RequestQueue.

(** How a promise is settled; [None] is [undefined]. *)
Inductive outcome : Type :=
  | Fulfilled (v : option string)
  | Rejected (e : Err).

Inductive role : Type :=
  | Initial   (* Promise.resolve(), when the user has no chain yet *)
  | Task      (* new Promise(...), the promise that enqueue returns *)
  | Catch     (* task.catch(() => {}), the new end of the chain *)
  | Call.     (* the promise returned by fn() *)

#[global] Instance role_eq_dec : EqDecision role.
Proof. solve_decision. Defined.

#[global] Instance role_countable : Countable role :=
  inj_countable'
    (λ r, match r with Initial => 0%nat | Task => 1%nat | Catch => 2%nat | Call => 3%nat end)
    (λ n, match n with 0%nat => Initial | 1%nat => Task | 2%nat => Catch | _ => Call end)
    (λ r, match r with Initial | Task | Catch | Call => eq_refl end).

Abbreviation pid := (Z * nat * role)%type.

(** The callbacks that [enqueue] registers. *)
Inductive reaction : Type :=
  | Finally (fn : nat) (task : pid)  (* () => fn().then(resolve, reject) *)
  | Settle (task : pid)              (* resolve and reject of [task] *)
  | Swallow (c : pid).               (* () => {} of task.catch, whose promise is [c] *)

Inductive cell : Type :=
  | Pending (reactions : list reaction)
  | Settled (o : outcome).

(** What the instrumented tasks record. *)
Inductive obs : Type :=
  | Enqueued (uid : Z) (fn : nat) (task : pid)
  | Started (task : pid)
  | Finished (task : pid) (o : outcome).

Record t : Type := mk {
  chains : gmap Z pid;
  stats : gmap Z nat;
  heap : gmap pid cell;
  jobs : list (reaction * outcome);
  log : list obs;
}.

Definition init : t := mk ∅ ∅ ∅ [] [].

Definition set_heap (h : gmap pid cell) (q : t) : t :=
  mk (chains q) (stats q) h (jobs q) (log q).
Definition push_jobs (js : list (reaction * outcome)) (q : t) : t :=
  mk (chains q) (stats q) (heap q) (jobs q ++ js) (log q).
Definition record (ev : obs) (q : t) : t :=
  mk (chains q) (stats q) (heap q) (jobs q) (log q ++ [ev]).

(** [p.then], [p.finally], [p.catch]: the reaction waits on a pending
    promise and is queued at once on a settled one. *)
Definition register (p : pid) (r : reaction) (q : t) : t :=
  match heap q !! p with
  | Some (Pending rs) => set_heap (<[p := Pending (rs ++ [r])]> (heap q)) q
  | Some (Settled o) => push_jobs [(r, o)] q
  | None => q
  end.

(** Resolving or rejecting [p]: its reactions are queued; on a promise that
    is settled already nothing happens. *)
Definition settle (p : pid) (o : outcome) (q : t) : t :=
  match heap q !! p with
  | Some (Pending rs) =>
      push_jobs ((λ r, (r, o)) <$> rs) (set_heap (<[p := Settled o]> (heap q)) q)
  | _ => q
  end.

(** What [task.catch(() => {})] settles to. *)
Definition swallowed (o : outcome) : outcome :=
  match o with
  | Fulfilled v => Fulfilled v
  | Rejected _ => Fulfilled None
  end.

(** [enqueue(uid, fn)]: the new state and the promise returned. *)
Definition enqueue (uid : Z) (fn : nat) (q : t) : pid * t :=
  let i := default 0%nat (stats q !! uid) in
  let count := (i + 1)%nat in
  let q := mk (chains q) (<[uid := count]> (stats q)) (heap q) (jobs q) (log q) in
  let '(prev, q) :=
    match chains q !! uid with
    | Some c => (c, q)
    | None => ((uid, i, Initial),
               set_heap (<[(uid, i, Initial) := Settled (Fulfilled None)]> (heap q)) q)
    end in
  let task := (uid, i, Task) in
  let q := set_heap (<[task := Pending []]> (heap q)) q in
  let q := register prev (Finally fn task) q in
  let c := (uid, i, Catch) in
  let q := set_heap (<[c := Pending []]> (heap q)) q in
  let q := register task (Swallow c) q in
  let q := mk (<[uid := c]> (chains q)) (stats q) (heap q) (jobs q) (log q) in
  (task, record (Enqueued uid fn task) q).

Definition getStats (uid : Z) (q : t) : nat := default 0%nat (stats q !! uid).

(** Running one job. *)
Definition run (job : reaction * outcome) (q : t) : t :=
  match job with
  | (Finally fn task, _) =>
      let p := (task.1.1, task.1.2, Call) in
      let q := set_heap (<[p := Pending []]> (heap q)) q in
      register p (Settle task) (record (Started task) q)
  | (Settle task, o) => settle task o q
  | (Swallow c, o) => settle c (swallowed o) q
  end.

(** The steps of the system: a call of [enqueue], the next job of the
    queue, or a running task function that comes to its end. *)
Inductive step : t → t → Prop :=
  | step_enqueue uid fn q :
      step q (enqueue uid fn q).2
  | step_job job js q :
      jobs q = job :: js →
      step q (run job (mk (chains q) (stats q) (heap q) js (log q)))
  | step_finish uid i o rs q :
      heap q !! (uid, i, Call) = Some (Pending rs) →
      step q (record (Finished (uid, i, Task) o) (settle (uid, i, Call) o q)).

(** The tasks that a user has submitted, in order. *)
Definition submitted (uid : Z) (l : list obs) : list pid :=
  omap (λ ev, match ev with
              | Enqueued u _ task => if decide (u = uid) then Some task else None
              | _ => None
              end) l.

(** The starts and ends of the tasks of a user, in order. *)
Definition activity (uid : Z) (l : list obs) : list obs :=
  List.filter (λ ev, match ev with
                     | Started task | Finished task _ => bool_decide (task.1.1 = uid)
                     | Enqueued _ _ _ => false
                     end) l.

(** The tasks [ts] run one at a time and in order: each starts, then ends,
    before the next starts; the last one started may still be running. *)
Inductive serial : list pid → list obs → Prop :=
  | serial_idle ts : serial ts []
  | serial_running t ts : serial (t :: ts) [Started t]
  | serial_next t o ts evs :
      serial ts evs → serial (t :: ts) (Started t :: Finished t o :: evs).

(** *** The state of one user's chain, and the queue it stands for

    For one user: [n] calls of [enqueue] so far, with the functions [fns];
    [a] functions called, of which [length os] have ended, with the outcomes
    [os]; [c] task promises and [d] catch promises settled. *)
Record chain : Type := mkChain {
  n : nat;
  fns : list nat;
  os : list outcome;
  a : nat;
  c : nat;
  d : nat;
}.

Definition b (x : chain) : nat := length (os x).

Definition chain_ok (x : chain) : Prop :=
  (d x ≤ c x ∧ c x ≤ b x ∧ b x ≤ a x ∧ a x ≤ n x ∧ a x ≤ d x + 1 ∧ length (fns x) = n x)%nat.

Definition out (x : chain) (i : nat) : outcome := default (Fulfilled None) (os x !! i).
Definition fn_at (x : chain) (i : nat) : nat := default 0%nat (fns x !! i).

(** The outcome of the promise the next task is chained on. *)
Definition prevOut (x : chain) : outcome :=
  match a x with
  | O => Fulfilled None
  | S i => swallowed (out x i)
  end.

Definition cell_of (u : Z) (x : chain) (i : nat) (r : role) : option cell :=
  match r with
  | Initial =>
      if decide (i = 0 ∧ 0 < n x)%nat then Some (Settled (Fulfilled None)) else None
  | Task =>
      if decide (i < n x)%nat then
        Some (if decide (i < c x)%nat then Settled (out x i)
              else Pending [Swallow (u, i, Catch)])
      else None
  | Catch =>
      if decide (i < n x)%nat then
        Some (if decide (i < d x)%nat then Settled (swallowed (out x i))
              else Pending (if decide (S i < n x)%nat
                            then [Finally (fn_at x (S i)) (u, S i, Task)] else []))
      else None
  | Call =>
      if decide (i < a x)%nat then
        Some (if decide (i < b x)%nat then Settled (out x i)
              else Pending [Settle (u, i, Task)])
      else None
  end.

(** The job of the user that is in the queue, if any. *)
Definition job_of (u : Z) (x : chain) : option (reaction * outcome) :=
  if decide (d x = a x) then
    if decide (a x < n x)%nat
    then Some (Finally (fn_at x (a x)) (u, a x, Task), prevOut x) else None
  else if decide (b x = d x) then None
  else if decide (c x = d x) then Some (Settle (u, d x, Task), out x (d x))
  else Some (Swallow (u, d x, Catch), out x (d x)).

Definition owner (job : reaction * outcome) : Z :=
  match job.1 with
  | Finally _ task => task.1.1
  | Settle task => task.1.1
  | Swallow c => c.1.1
  end.

(** What the tasks of the chain have recorded: a start and an end for each
    function that has ended, and the start of the one that runs. *)
Definition acts (u : Z) (x : chain) : list obs :=
  mjoin (imap (λ i o, [Started (u, i, Task); Finished (u, i, Task) o]) (os x)) ++
  (if decide (b x < a x)%nat then [Started (u, b x, Task)] else []).

(** The queue [q] is made of the chains [U]. *)
Record rep (U : Z → chain) (q : t) : Prop := mkRep {
  rep_ok : ∀ u, chain_ok (U u);
  rep_heap : ∀ u i r, heap q !! (u, i, r) = cell_of u (U u) i r;
  rep_chains : ∀ u, chains q !! u =
    if decide (0 < n (U u))%nat then Some (u, (n (U u) - 1)%nat, Catch) else None;
  rep_stats : ∀ u, stats q !! u =
    if decide (0 < n (U u))%nat then Some (n (U u)) else None;
  rep_jobs_in : ∀ j, j ∈ jobs q → job_of (owner j) (U (owner j)) = Some j;
  rep_jobs_nodup : NoDup (owner <$> jobs q);
  rep_jobs_all : ∀ u j, job_of u (U u) = Some j → j ∈ jobs q;
  rep_submitted : ∀ u, submitted u (log q) = (λ i, (u, i, Task)) <$> seq 0 (n (U u));
  rep_activity : ∀ u, activity u (log q) = acts u (U u);
}.

Definition Inv (q : t) : Prop := ∃ U, rep U q.

(** *** The jobs on their own *)

(** A step that runs the next job. *)
Definition job_step (q q' : t) : Prop :=
  ∃ job js, jobs q = job :: js ∧
    q' = run job (mk (chains q) (stats q) (heap q) js (log q)).

(** How many jobs a job can still lead to, itself included. *)
Definition weight (job : reaction * outcome) : nat :=
  match job.1 with
  | Finally _ _ => 1
  | Swallow _ => 2
  | Settle _ => 3
  end.

Definition is_start (ev : obs) : Prop :=
  match ev with Started _ => True | _ => False end.

End RequestQueue.

(** ** Messages, requests and the outside world *)

Inductive Role : Type := system | user | assistant | tool.

(** The parsed [arguments] of a tool call.  The fields are those of the
    schemas in [TOOLS], each a string when present; a field left out by the
    model is [None] ([undefined]). *)
Module Item.
Record t : Type := mk { key : option string; value : option string }.
End Item.

Module Args.
Record t : Type := mk {
  key : option string;
  value : option string;
  memories : option (list Item.t);
  query : option string;
}.
End Args.

(** One element of [msg.tool_calls]: [tc.id], [tc.function.name] and
    [tc.function.arguments], the latter given by what [JSON.parse] makes of
    it: [None] when it throws. *)
Module ToolCall.
Record t : Type := mk {
  id : string;
  name : string;
  arguments : option Args.t;
}.
End ToolCall.

(** An element of the [messages] array sent to the provider. *)
Module Msg.
Record t : Type := mk {
  role : Role;
  content : option string;
  tool_calls : list ToolCall.t;
  tool_call_id : option string;
}.
End Msg.

(** [completion.choices[0].message] *)
Module Reply.
Record t : Type := mk {
  content : option string;
  tool_calls : list ToolCall.t;
}.
End Reply.

(** The value passed as [tools]: the constant [TOOLS]. *)
Inductive ToolSchema : Type := TOOLS.

(** The [params] of one [client.chat.completions.create] call, with the key
    of the client that issues it. *)
Module Request.
Record t : Type := mk {
  apiKey : string;
  model : string;
  messages : list Msg.t;
  max_tokens : Z;
  temperature : Q;
  tools : option ToolSchema;
  tool_choice : option string;
}.
End Request.

(** An element of a conversation history. *)
Module Turn.
Record t : Type := mk {
  role : Role;
  content : string;
  timestamp : Z;
}.
End Turn.

Inductive ConvexCall : Type :=
  | saveMemory (userId key value : string)
  | getMemory (userId key : string)
  | listMemories (userId : string)
  | searchMemories (userId query : string)
  | deleteMemory (userId key : string).

(** What the program asks of the outside, in order. *)
Inductive Event : Type :=
  | EvRequest (r : Request.t)
  | EvConvex (c : ConvexCall)
  | EvSleep (ms : num).

(** The outside world of one run.  An external call is identified by its
    position [n] in the run's sequence of events. *)
Record Env : Type := mkEnv {
  GROQ_MODEL : option string;           (* process.env.GROQ_MODEL *)
  llm : nat → Request.t → result Reply.t; (* what the provider answers *)
  convexError : nat → option Err;       (* the Convex call fails with this *)
  elapsed : nat → Event → nat;          (* milliseconds the await takes *)
  random : nat → Q;                     (* Math.random() *)
}.

(** [CONFIG.MODEL] *)
Definition MODEL (env : Env) : string :=
  match GROQ_MODEL env with
  | Some m => if String.eqb m "" then "openai/gpt-oss-120b" else m
  | None => "openai/gpt-oss-120b"
  end.

(** The module-level state ([apiKeys], [cache], [conversations]), the table
    behind [convex], the clock and the events so far.  Time passes at the
    awaits only. *)
Record World : Type := mkWorld {
  now : Z;
  apiKeys : APIKeyManager.t;
  cache : MemoryCache.t;
  conversations : gmap Z (list Turn.t);
  db : memories.table;
  trace : list Event;
}.

Definition set_apiKeys (a : APIKeyManager.t) (w : World) : World :=
  mkWorld (now w) a (cache w) (conversations w) (db w) (trace w).
Definition set_cache (c : MemoryCache.t) (w : World) : World :=
  mkWorld (now w) (apiKeys w) c (conversations w) (db w) (trace w).
Definition set_conversations (h : gmap Z (list Turn.t)) (w : World) : World :=
  mkWorld (now w) (apiKeys w) (cache w) h (db w) (trace w).
Definition set_db (d : memories.table) (w : World) : World :=
  mkWorld (now w) (apiKeys w) (cache w) (conversations w) d (trace w).

(** The requests sent to the provider among the events. *)
Definition requests (tr : list Event) : list Request.t :=
  omap (λ ev, match ev with EvRequest r => Some r | _ => None end) tr.

(** Between [w] and [w'] the provider was not called and the key pool was
    not touched. *)
Definition offline (w w' : World) : Prop :=
  apiKeys w' = apiKeys w ∧ requests (trace w') = requests (trace w).

(** ** The monad of the asynchronous functions: state and exceptions *)

Definition M (A : Type) : Type := World → result A * World.

#[global] Instance M_ret : MRet M := λ A a w, (Ok a, w).
#[global] Instance M_bind : MBind M := λ A B f c w,
  match c w with
  | (Ok a, w') => f a w'
  | (Throw e, w') => (Throw e, w')
  end.

Definition throw {A : Type} (e : Err) : M A := λ w, (Throw e, w).

(** [try { body } catch (e) { handler }] *)
Definition try_catch {A : Type} (body : M A) (handler : Err → M A) : M A :=
  λ w, match body w with
       | (Ok a, w') => (Ok a, w')
       | (Throw e, w') => handler e w'
       end.

Definition gets {A : Type} (f : World → A) : M A := λ w, (Ok (f w), w).
Definition modify (f : World → World) : M unit := λ w, (Ok (), f w).

(** [c] stays offline, and [P] holds of what it returns. *)
Definition tame {A : Type} (P : A → Prop) (c : M A) : Prop :=
  ∀ w, offline w (c w).2 ∧ match (c w).1 with Ok a => P a | Throw _ => True end.

(** Moreover [c] does not throw. *)
Definition safe {A : Type} (P : A → Prop) (c : M A) : Prop :=
  ∀ w, offline w (c w).2 ∧ ∃ a, (c w).1 = Ok a ∧ P a.


(** The cache agrees with the table: the table has no duplicates, and
    every value that the cache holds for a user and a key is the value of
    the user's document with that key. *)
Definition coherent (c : MemoryCache.t) (db : memories.table) : Prop :=
  unique db ∧
  ∀ uid e k v, c !! uid = Some e → MemoryCache.map e !! k = Some v →
    memories.value <$> memories.getMemory uid k db = Some v.

(** [c] keeps the cache in agreement with the table. *)
Definition keeps {A : Type} (c : M A) : Prop :=
  ∀ w, coherent (cache w) (db w) → coherent (cache (c w).2) (db (c w).2).

Section Bot.

Variable env : Env.

(** [stripMarkdown] may produce U+2022, which the strings of the embedding
    do not have, and the text of [SYSTEM_PROMPT] holds such characters too:
    both are left open.  Nothing below depends on what they are. *)
Variable stripMarkdown : string → string.
Variable SYSTEM_PROMPT : string.

(** [String(userId)] for a Telegram user id. *)
Definition String_ (userId : Z) : string := pretty userId.

(** The world after an await on the outside: the event is recorded and
    the clock has moved on. *)
Definition after (ev : Event) (w : World) : World :=
  mkWorld (now w + Z.of_nat (elapsed env (length (trace w)) ev)) (apiKeys w) (cache w)
          (conversations w) (db w) (trace w ++ [ev]).

(** An await; the result is the position of the event. *)
Definition await (ev : Event) : M nat := λ w, (Ok (length (trace w)), after ev w).

Definition sleep (ms : num) : M unit := _ ← await (EvSleep ms); mret ().

(** [client.chat.completions.create(params)] *)
Definition create (params : Request.t) : M Reply.t :=
  n ← await (EvRequest params);
  match llm env n params with
  | Ok r => mret r
  | Throw e => throw e
  end.

(** [convex.query] and [convex.mutation]: the handler of [memories.js] runs
    on the table unless the call fails; a failed call leaves the table as
    it was. *)
Definition convex {A : Type} (c : ConvexCall)
    (handler : memories.table → A * memories.table) : M A :=
  n ← await (EvConvex c);
  match convexError env n with
  | Some e => throw e
  | None => λ w, let '(a, d) := handler (db w) in (Ok a, set_db d w)
  end.

(** The methods of the module-level [cache]. *)
Definition cache_getAll (uid : string) : M (option (gmap string string)) := λ w,
  let '(r, c) := MemoryCache.getAll (now w) uid (cache w) in (Ok r, set_cache c w).
Definition cache_get (uid key : string) : M (option string) := λ w,
  let '(r, c) := MemoryCache.get (now w) uid key (cache w) in (Ok r, set_cache c w).
Definition cache_setAll (uid : string) (arr : list memories.doc) : M unit := λ w,
  (Ok (), set_cache (MemoryCache.setAll (now w) uid
                       ((λ d, (memories.key d, memories.value d)) <$> arr) (cache w)) w).
Definition cache_upsert (uid key value : string) : M unit := λ w,
  (Ok (), set_cache (MemoryCache.upsert (now w) uid key value (cache w)) w).
Definition cache_remove (uid key : string) : M unit := λ w,
  (Ok (), set_cache (MemoryCache.remove (now w) uid key (cache w)) w).
Definition cache_isDuplicate (uid key value : string) : M bool := λ w,
  let '(r, c) := MemoryCache.isDuplicate (now w) uid key value (cache w) in
  (Ok r, set_cache c w).

(** ** executeTool *)

(** The TypeError that [key.toLowerCase()] raises on [undefined]. *)
Definition TypeError_toLowerCase : Err :=
  Error "Cannot read properties of undefined (reading 'toLowerCase')".

Definition normalizeKey_ (key : option string) : M string :=
  match key with
  | Some k => mret (normalizeKey k)
  | None => throw TypeError_toLowerCase
  end.

Definition validateKey_ (key : option string) : M validation :=
  match key with
  | Some k => mret (validateKey k)
  | None => throw TypeError_toLowerCase
  end.

(** [!value || value.trim().length === 0] *)
Definition emptyValue (value : option string) : bool :=
  match value with
  | None => true
  | Some v => String.eqb v "" || (String.length (trim v) =? 0)%nat
  end.

Definition line (m : memories.doc) : string :=
  memories.key m +:+ ": " +:+ memories.value m.

Definition save_memory (uid : string) (args : Args.t) : M string :=
  validation ← validateKey_ (Args.key args);
  match validation with
  | Invalid error => mret ("Error: " +:+ error)
  | Valid key =>
      if emptyValue (Args.value args) then mret "Error: Cannot save empty value"
      else
        let value := default "" (Args.value args) in
        dup ← cache_isDuplicate uid key value;
        if dup : bool then mret ("Already saved: " +:+ key)
        else
          _ ← convex (saveMemory uid key value)
                (λ d, ((), memories.saveMemory uid key value d));
          _ ← cache_upsert uid key value;
          mret ("Saved: " +:+ key)
  end.

(** First loop of [save_memories]: [results] and [toSave] as they grow. *)
Fixpoint screenMemories (uid : string) (ms : list Item.t)
    (results : list string) (toSave : list (string * string))
    : M (list string * list (string * string)) :=
  match ms with
  | [] => mret (results, toSave)
  | m :: ms' =>
      validation ← validateKey_ (Item.key m);
      match validation with
      | Invalid error =>
          screenMemories uid ms'
            (results ++ ["Skipped " +:+ default "" (Item.key m) +:+ ": " +:+ error]) toSave
      | Valid key =>
          if emptyValue (Item.value m)
          then screenMemories uid ms' (results ++ ["Skipped " +:+ key +:+ ": empty value"]) toSave
          else
            let value := default "" (Item.value m) in
            dup ← cache_isDuplicate uid key value;
            if dup : bool
            then screenMemories uid ms' (results ++ ["Already saved: " +:+ key]) toSave
            else screenMemories uid ms' results (toSave ++ [(key, value)])
      end
  end.

(** Second loop of [save_memories]. *)
Fixpoint writeMemories (uid : string) (toSave : list (string * string))
    (results : list string) : M (list string) :=
  match toSave with
  | [] => mret results
  | (key, value) :: toSave' =>
      _ ← convex (saveMemory uid key value)
            (λ d, ((), memories.saveMemory uid key value d));
      _ ← cache_upsert uid key value;
      writeMemories uid toSave' (results ++ ["Saved: " +:+ key])
  end.

Definition save_memories (uid : string) (args : Args.t) : M string :=
  match Args.memories args with
  | None | Some [] => mret "Error: No memories provided"
  | Some ms =>
      '(results, toSave) ← screenMemories uid ms [] [];
      results ← writeMemories uid toSave results;
      mret (if (0 <? length results)%nat then join nl results else "No memories saved")
  end.

Definition get_memory (uid : string) (args : Args.t) : M string :=
  match Args.key args with
  | Some (String c k) =>
      let key := normalizeKey (String c k) in
      cached ← cache_get uid key;
      match cached with
      | Some (String c' v) => mret (key +:+ ": " +:+ String c' v)
      | _ =>
          mem ← convex (getMemory uid key) (λ d, (memories.getMemory uid key d, d));
          match mem with
          | Some mem =>
              _ ← cache_upsert uid key (memories.value mem);
              mret (line mem)
          | None => mret ("No memory found: " +:+ key)
          end
      end
  | _ =>
      all ← convex (listMemories uid) (λ d, (memories.listMemories uid d, d));
      _ ← cache_setAll uid all;
      match all with
      | [] => mret "No memories saved yet."
      | _ => mret (join nl (line <$> all))
      end
  end.

Definition search_memories (uid : string) (args : Args.t) : M string :=
  if emptyValue (Args.query args) then mret "Error: Search query cannot be empty"
  else
    let query := default "" (Args.query args) in
    mems ← convex (searchMemories uid query)
             (λ d, (memories.searchMemories uid query d, d));
    match mems with
    | [] => mret ("Nothing found for: " +:+ query)
    | _ => mret (join nl (line <$> mems))
    end.

Definition delete_memory (uid : string) (args : Args.t) : M string :=
  key ← normalizeKey_ (Args.key args);
  ok ← convex (deleteMemory uid key) (λ d, memories.deleteMemory uid key d);
  if ok : bool then
    _ ← cache_remove uid key;
    mret ("Deleted: " +:+ key)
  else mret ("No memory found: " +:+ key).

(** [executeTool(name, args, userId)]: the [switch] inside the [try], and
    the [catch] that turns any failure into a result text. *)
Definition executeTool (name : string) (args : Args.t) (userId : Z) : M string :=
  let uid := String_ userId in
  try_catch
    (if String.eqb name "save_memory" then save_memory uid args
     else if String.eqb name "save_memories" then save_memories uid args
     else if String.eqb name "get_memory" then get_memory uid args
     else if String.eqb name "search_memories" then search_memories uid args
     else if String.eqb name "delete_memory" then delete_memory uid args
     else mret ("Unknown tool: " +:+ name))
    (λ err, mret ("Error executing " +:+ name +:+ ": " +:+ message err)).

(** ** groqChat *)

(** [apiKeys.pick()]; the failure stands for the TypeError of a key without
    a state record (see [APIKeyManager.pick]). *)
Definition pick_ : M string := λ w,
  match APIKeyManager.pick (now w) (apiKeys w) with
  | Some (k, a) => (Ok k, set_apiKeys a w)
  | None => (Throw (Error "Cannot read properties of undefined (reading 'blockedUntil')"), w)
  end.

(** The cooldown computed after a 429 at the given attempt. *)
Definition cooldownOf (err : Err) (attempt : nat) : num :=
  match matchRetryHint (message err) with
  | Some run => num_add (num_mul (parseFloat run) (ofZ 1000)) (ofZ 500)
  | None => ofZ (CONFIG.RETRY_BASE_DELAY * 2 ^ (Z.of_nat attempt - 1))
  end.

Definition paramsOf (apiKey : string) (messages : list Msg.t)
    (tools : option ToolSchema) : Request.t :=
  Request.mk apiKey (MODEL env) messages CONFIG.MAX_TOKENS (1 # 10) tools
    (match tools with Some _ => Some "auto" | None => None end).

(** The [for] loop of [groqChat] with [remaining] attempts to go, the
    current one included; [lastErr] is the variable of that name. *)
Fixpoint groqChat_loop (remaining : nat) (lastErr : option Err)
    (messages : list Msg.t) (tools : option ToolSchema) : M Reply.t :=
  match remaining with
  | O =>
      (* [throw lastErr] after the loop; the loop has run, so it is set *)
      throw (default (Error "undefined") lastErr)
  | S remaining' =>
      let attempt := (CONFIG.MAX_RETRIES - remaining')%nat in
      apiKey ← pick_;
      wait ← gets (λ w, APIKeyManager.waitTime (now w) apiKey (apiKeys w));
      _ ← (if num_ltb (ofZ 0) wait then sleep wait else mret ());
      try_catch
        (response ← create (paramsOf apiKey messages tools);
         _ ← modify (λ w, set_apiKeys (APIKeyManager.resetFailures apiKey (apiKeys w)) w);
         mret response)
        (λ err,
           let rest : M Reply.t :=
             if statusIs err 400 then
               throw (Error "Invalid request format. Please try rephrasing.")
             else if statusGe err 500 && (attempt <? CONFIG.MAX_RETRIES)%nat then
               _ ← sleep (ofZ (CONFIG.RETRY_BASE_DELAY * Z.of_nat attempt));
               groqChat_loop remaining' (Some err) messages tools
             else throw err in
           if statusIs err 429 then
             let cooldown := cooldownOf err attempt in
             _ ← modify (λ w, set_apiKeys
                                (APIKeyManager.block (now w) apiKey cooldown (apiKeys w)) w);
             if (attempt <? CONFIG.MAX_RETRIES)%nat then
               _ ← sleep cooldown;
               groqChat_loop remaining' (Some err) messages tools
             else rest
           else rest)
  end.

Definition groqChat (messages : list Msg.t) (tools : option ToolSchema) : M Reply.t :=
  groqChat_loop CONFIG.MAX_RETRIES None messages tools.

(** ** Conversation history *)

Definition getHistory (uid : Z) : M (list Turn.t) := λ w,
  match conversations w !! uid with
  | Some h => (Ok h, w)
  | None => (Ok [], set_conversations (<[uid := []]> (conversations w)) w)
  end.

(** [while (h.length > CONFIG.MAX_HISTORY) h.shift()], at most [fuel] times. *)
Fixpoint shiftWhile (fuel : nat) (h : list Turn.t) : list Turn.t :=
  match fuel with
  | O => h
  | S fuel' =>
      if (CONFIG.MAX_HISTORY <? length h)%nat then shiftWhile fuel' (tail h) else h
  end.

Definition pushHistory (uid : Z) (role : Role) (content : string) : M unit :=
  h ← getHistory uid;
  modify (λ w,
    let h' := h ++ [Turn.mk role content (now w)] in
    set_conversations (<[uid := shiftWhile (length h') h']> (conversations w)) w).

Definition clearOldHistory (uid : Z) : M unit :=
  h ← getHistory uid;
  modify (λ w,
    let filtered := List.filter (λ msg, now w - Turn.timestamp msg <? 30 * 60 * 1000) h in
    set_conversations (<[uid := filtered]> (conversations w)) w).

(** ** chat *)

(** [({ role, content }) => ({ role, content })] *)
Definition plain (t : Turn.t) : Msg.t :=
  Msg.mk (Turn.role t) (Some (Turn.content t)) [] None.

(** [h.slice(-5)] *)
Definition lastFive (h : list Turn.t) : list Turn.t := drop (length h - 5) h.

(** The inner [for (const tc of msg.tool_calls)]: [messages] and
    [toolResults] as they grow. *)
Fixpoint runToolCalls (userId : Z) (tcs : list ToolCall.t)
    (messages : list Msg.t) (toolResults : list string)
    : M (list Msg.t * list string) :=
  match tcs with
  | [] => mret (messages, toolResults)
  | tc :: tcs' =>
      match ToolCall.arguments tc with
      | None =>
          let content := "Error: invalid arguments format" in
          runToolCalls userId tcs'
            (messages ++ [Msg.mk tool (Some content) [] (Some (ToolCall.id tc))])
            (toolResults ++ [content])
      | Some args =>
          content ← try_catch (executeTool (ToolCall.name tc) args userId)
                      (λ toolErr, mret ("Error: " +:+ message toolErr));
          runToolCalls userId tcs'
            (messages ++ [Msg.mk tool (Some content) [] (Some (ToolCall.id tc))])
            (toolResults ++ [content])
      end
  end.

(** How the loop of [chat] is left: by the [return] of the fallback path,
    or with [finalResponse] as it stands ([break], or the iterations used
    up). *)
Inductive exit : Type :=
  | Return (text : string)
  | Break (finalResponse : string).

(** Run [c] and hand back how it ended. *)
Definition settled {A : Type} (c : M A) : M (result A) := λ w,
  let '(r, w') := c w in (Ok r, w').

(** The fallback of [chat], entered from the [catch] of the primary call. *)
Definition fallback (userId : Z) : M exit :=
  try_catch
    (h ← getHistory userId;
     let fallbackMessages :=
       Msg.mk system
         (Some "You are a helpful memory assistant. Answer from conversation context. Keep it short, no markdown.")
         [] None :: (plain <$> lastFive h) in
     fb ← groqChat fallbackMessages None;
     let txt := default "Sorry, please try again in a moment." (Reply.content fb) in
     _ ← pushHistory userId assistant txt;
     mret (Return (stripMarkdown txt)))
    (λ fallbackErr,
       throw (Error "Service temporarily unavailable. Please try again in a moment.")).

(** The [for] loop of [chat] with [remaining] iterations to go. *)
Fixpoint chat_loop (remaining : nat) (userId : Z) (messages : list Msg.t) : M exit :=
  match remaining with
  | O => mret (Break "")
  | S remaining' =>
      let iter := (CONFIG.MAX_ITERATIONS - remaining')%nat in
      completion ← settled (groqChat messages (Some TOOLS));
      match completion with
      | Throw err =>
          if statusIs err 400 || statusIs err 429 || statusGe err 500
          then fallback userId
          else throw err
      | Ok msg =>
          match Reply.tool_calls msg with
          | [] =>
              let reply :=
                match Reply.content msg with
                | Some (String c r) => String c r
                | _ => "I'm here to help you remember things."
                end in
              _ ← pushHistory userId assistant reply;
              mret (Break reply)
          | tcs =>
              '(messages, toolResults) ←
                runToolCalls userId tcs
                  (messages ++ [Msg.mk assistant (Reply.content msg) tcs None]) [];
              if (iter =? CONFIG.MAX_ITERATIONS)%nat && (0 <? length toolResults)%nat
              then mret (Break (join nl toolResults))
              else chat_loop remaining' userId messages
          end
      end
  end.

Definition chat (userId : Z) (userMessage : string) : M string :=
  r ← gets (λ w, random env (length (trace w)));
  _ ← (if negb (Qle_bool (1 # 10) r) then clearOldHistory userId else mret ());
  _ ← pushHistory userId user userMessage;
  cached ← cache_getAll (String_ userId);
  _ ← (match cached with
       | Some _ => mret ()
       | None =>
           try_catch
             (all ← convex (listMemories (String_ userId))
                      (λ d, (memories.listMemories (String_ userId) d, d));
              cache_setAll (String_ userId) all)
             (λ e, mret ())
       end);
  h ← getHistory userId;
  let messages := Msg.mk system (Some SYSTEM_PROMPT) [] None :: (plain <$> h) in
  out ← chat_loop CONFIG.MAX_ITERATIONS userId messages;
  match out with
  | Return text => mret text
  | Break finalResponse =>
      let finalResponse :=
        if String.eqb finalResponse ""
        then "I processed your request but couldn't generate a complete response. Please try again."
        else finalResponse in
      _ ← pushHistory userId assistant finalResponse;
      mret (stripMarkdown finalResponse)
  end.

(** ** The text handler: [bot.on(message("text"), ...)]

    What is sent to the user for a message that is not a command: the
    answer of [chat], or the text chosen in the [catch].  The queue, the
    typing indicator and the split of a long answer into parts are left
    out. *)
Definition onText (userId : Z) (text : string) : M string :=
  if String.prefix "/" text then mret "Unknown command. Try /help for available commands."
  else
  try_catch (chat userId text)
    (λ err,
       mret (if includes "temporarily unavailable" (message err)
             then message err
             else "Sorry, something went wrong. Please try again in a moment.")).

End Bot.

(** ** What groqChat throws *)



(** ** Long answers: the parts sent by the text handler *)

(** What [.] does not match (no [s] flag): the line terminators; below 256
    these are the line feed and the carriage return. *)
Definition isLineTerminator (c : ascii) : bool :=
  ((code c =? 10) || (code c =? 13))%N.

(** [s.match(/.{1,limit}/g)], the matches from left to right: each is the
    longest run of at most [limit] code units without line terminator;
    [cur] is the match being read.  [[]] stands for [null]. *)
Fixpoint matchParts (limit : nat) (cur s : string) : list string :=
  match s with
  | EmptyString => if String.eqb cur "" then [] else [cur]
  | String c s' =>
      if isLineTerminator c
      then (if String.eqb cur "" then matchParts limit "" s'
            else cur :: matchParts limit "" s')
      else if (String.length cur <? limit)%nat
           then matchParts limit (cur +:+ String c EmptyString) s'
           else cur :: matchParts limit (String c EmptyString) s'
  end.

(** The texts that the handler passes to [ctx.reply] for the answer
    [response], in order; [None] when the [for ... of] over [null] raises
    its TypeError. *)
Definition replyParts (response : string) : option (list string) :=
  if (CONFIG.MAX_MESSAGE_LENGTH <? String.length response)%nat then
    match matchParts CONFIG.MAX_MESSAGE_LENGTH "" response with
    | [] => None
    | parts => Some parts
    end
  else Some [response].

(** [s] without its line terminators. *)
Fixpoint dropTerminators (s : string) : string :=
  match s with
  | EmptyString => EmptyString
  | String c s' =>
      if isLineTerminator c then dropTerminators s' else String c (dropTerminators s')
  end.

(** ** The list of memories in chunks: the [/list] command *)

(** [txt.split("\n")] *)
Fixpoint splitLines (cur s : string) : list string :=
  match s with
  | EmptyString => [cur]
  | String c s' =>
      if (code c =? 10)%N then cur :: splitLines "" s'
      else splitLines (cur +:+ String c EmptyString) s'
  end.

(** The loop over the lines: [chunks] and [chunk] as they grow. *)
Fixpoint chunkLines (chunks : list string) (chunk : string) (lines : list string)
    : list string * string :=
  match lines with
  | [] => (chunks, chunk)
  | line :: lines' =>
      if (CONFIG.MAX_MESSAGE_LENGTH <? String.length chunk + String.length line)%nat
      then chunkLines (chunks ++ [chunk]) (line +:+ nl) lines'
      else chunkLines chunks (chunk +:+ line +:+ nl) lines'
  end.

(** The chunks that the command sends for a text longer than
    [CONFIG.MAX_MESSAGE_LENGTH]. *)
Definition listChunks (txt : string) : list string :=
  let '(chunks, chunk) := chunkLines [] "" (splitLines "" txt) in
  if String.eqb chunk "" then chunks else chunks ++ [chunk].

(** A part: not empty, at most [limit] code units, no line terminator. *)
Definition isPart (limit : nat) (p : string) : Prop :=
  p ≠ "" ∧ (String.length p ≤ limit)%nat ∧ dropTerminators p = p.

(** The lines, each followed by a line feed, put together. *)
Definition unlines (lines : list string) : string :=
  String.concat "" ((λ l, l +:+ nl) <$> lines).

(** * Sample inputs *)

(** Three configured keys, none used yet. *)
Definition pool3 : APIKeyManager.t := APIKeyManager.init ["gsk_a"; "gsk_b"; "gsk_c"].

(** Time as it passes in the samples: a sleep takes its duration (rounded
    up to a millisecond), a call to the provider or to Convex takes 40 ms. *)
Definition timely (n : nat) (ev : Event) : nat :=
  match ev with
  | EvSleep (Fin q) => Z.to_nat (Qceiling q)
  | EvSleep NaN => 1
  | _ => 40
  end.

(** A world in which nothing fails: the provider answers every request
    with [reply] and every Convex call goes through. *)
Definition calm (reply : Reply.t) : Env :=
  mkEnv None (λ _ _, Ok reply) (λ _, None) timely (λ _, 1%Q).

(** The state at process start and an empty table. *)
Definition start : World := mkWorld 0 pool3 ∅ ∅ [] [].

(** A provider that refuses every request with the given error. *)
Definition refusing (err : Err) : Env :=
  mkEnv None (λ _ _, Throw err) (λ _, None) timely (λ _, 1%Q).

Definition rateLimited : Err :=
  mkErr (Some 429) "Rate limit reached for model. Please try again in 7.5s. Visit the console.".

Definition badRequest : Err := mkErr (Some 400) "tool call validation failed".

(** The primary requests (those with tools) are rate limited, the request
    of the fallback (without tools) is answered. *)
Definition primaryDown : Env :=
  mkEnv None
    (λ _ req, match Request.tools req with
              | Some _ => Throw rateLimited
              | None => Ok (Reply.mk (Some "Hi there") [])
              end)
    (λ _, None) timely (λ _, 1%Q).

(** A reply that asks for the list of all memories. *)
Definition listCall : Reply.t :=
  Reply.mk None [ToolCall.mk "call_1" "get_memory" (Some (Args.mk None None None None))].

(** The start state with a cache entry for user 7, loaded at time 0. *)
Definition warm : World :=
  mkWorld 0 pool3 {["7" := MemoryCache.mkEntry ∅ 0]} ∅ [] [].

(** * Properties *)

(** ** Comparisons of numbers *)

Lemma num_ltb_irrefl a : num_ltb a a = false.
Proof.
  destruct a as [x|]; simpl; [|done].
  apply negb_false_iff, Qle_bool_iff, Qle_refl.
Qed.

Lemma num_ltb_trans a b c :
  num_ltb a b = true → num_ltb b c = true → num_ltb a c = true.
Proof.
  destruct a as [x|], b as [y|], c as [z|]; simpl; try done.
  rewrite !negb_true_iff. intros H1 H2.
  apply not_true_iff_false. rewrite Qle_bool_iff.
  apply not_true_iff_false in H1, H2. rewrite Qle_bool_iff in H1, H2.
  apply Qnot_le_lt in H1, H2. apply Qlt_not_le. by eapply Qlt_trans.
Qed.

Lemma num_ltb_leb a b : num_ltb a b = true → num_leb b a = false.
Proof.
  destruct a as [x|], b as [y|]; simpl; try done.
  by rewrite negb_true_iff.
Qed.

(** [b] is not below [c], and [a] is below [c]: [b] is not below or equal to [a]. *)
Lemma num_leb_below a b c :
  num_ltb b c = false → num_ltb a c = true → num_leb b a = false.
Proof.
  destruct a as [x|], b as [y|], c as [z|]; simpl; try done.
  rewrite negb_false_iff, negb_true_iff. intros H1 H2.
  apply not_true_iff_false. rewrite Qle_bool_iff.
  apply Qle_bool_iff in H1. apply not_true_iff_false in H2.
  rewrite Qle_bool_iff in H2. apply Qnot_le_lt in H2.
  apply Qlt_not_le. by eapply Qlt_le_trans.
Qed.

Lemma num_ltb_below a b c :
  num_ltb b c = false → num_ltb a c = true → num_ltb b a = false.
Proof.
  intros H1 H2. pose proof (num_leb_below _ _ _ H1 H2) as H.
  destruct a as [x|], b as [y|]; simpl in *; try done.
  apply negb_false_iff, Qle_bool_iff.
  apply not_true_iff_false in H. rewrite Qle_bool_iff in H.
  apply Qlt_le_weak. by apply Qnot_le_lt.
Qed.

(** ** APIKeyManager.pick *)

Section PickFacts.
Import APIKeyManager.

Variable now : Z.
Variable m : t.
Hypothesis Hwf : wf m.

Let n := length (keys m).

Lemma wf_pos : (0 < n)%nat.
Proof. destruct Hwf as [Hne _]. subst n. destruct (keys m); [done | simpl; lia]. Qed.

(** Every position of the pool is visited by the first loop. *)
Lemma rotation_covers q :
  (q < n)%nat → ∃ i, (i < n)%nat ∧ ((idx m + i) mod n)%nat = q.
Proof.
  intros Hq. pose proof wf_pos as Hn.
  exists ((q + (n - idx m mod n)) mod n)%nat. split.
  - apply Nat.mod_upper_bound. lia.
  - rewrite Nat.Div0.add_mod_idemp_r.
    rewrite <- Nat.Div0.add_mod_idemp_l.
    pose proof (Nat.mod_upper_bound (idx m) n ltac:(lia)) as Hlt.
    replace (idx m mod n + (q + (n - idx m mod n)))%nat with (q + 1 * n)%nat by lia.
    rewrite Nat.Div0.mod_add. by apply Nat.mod_small.
Qed.

Lemma pick_scan_spec i todo :
  match pick_scan now m i todo with
  | Crash => False
  | Miss =>
      ∀ i' k, (i ≤ i' < i + todo)%nat →
        keys m !! ((idx m + i') mod n)%nat = Some k → eligible now m k = false
  | Hit k m' =>
      ∃ i', (i ≤ i' < i + todo)%nat ∧
        keys m !! ((idx m + i') mod n)%nat = Some k ∧
        eligible now m k = true ∧
        (∀ i'' k', (i ≤ i'' < i')%nat →
           keys m !! ((idx m + i'') mod n)%nat = Some k' → eligible now m k' = false) ∧
        m' = mk (keys m) (state m) (((idx m + i') mod n + 1) mod n)%nat
  end.
Proof.
  revert i. induction todo as [|todo IH]; intros i; simpl.
  - intros; lia.
  - fold n. pose proof wf_pos as Hn.
    destruct (lookup_lt_is_Some_2 (keys m) ((idx m + i) mod n)%nat) as [k Hk].
    { apply Nat.mod_upper_bound. lia. }
    rewrite Hk.
    destruct Hwf as [_ Hst]. rewrite Forall_forall in Hst.
    destruct (Hst k) as [s Hs]. { by eapply list_elem_of_lookup_2. }
    rewrite Hs.
    destruct (usable now s) eqn:Hu.
    + exists i. split_and!; [lia | lia | done | | intros; lia | done].
      unfold eligible. by rewrite Hs.
    + specialize (IH (S i)).
      destruct (pick_scan now m (S i) todo) as [k' m'| |]; [| |done].
      * destruct IH as (i' & Hi' & Hk' & He & Hbefore & ->).
        exists i'. split_and!; [lia | lia | done | done | | done].
        intros i'' k'' Hi'' Hk''.
        destruct (decide (i'' = i)) as [->|].
        -- rewrite Hk in Hk''. injection Hk'' as <-.
           unfold eligible. by rewrite Hs.
        -- apply (Hbefore i''); [lia | done].
      * intros i' k' Hi' Hk'.
        destruct (decide (i' = i)) as [->|].
        -- rewrite Hk in Hk'. injection Hk' as <-.
           unfold eligible. by rewrite Hs.
        -- apply (IH i'); [lia | done].
Qed.

(** The second loop: the result is [best], or a later key strictly below
    [best] with nothing before it below or equal to it; and nothing at all
    is strictly below the result. *)
Lemma pick_best_spec (ks : list string) : ∀ best,
  (∀ k, k ∈ best :: ks → is_Some (state m !! k)) →
  ∃ r, pick_best (state m) best ks = Some r ∧
    (r = best ∨
     ∃ p, ks !! p = Some r ∧ num_ltb (until m r) (until m best) = true ∧
          ∀ j x, (j < p)%nat → ks !! j = Some x → num_leb (until m x) (until m r) = false) ∧
    (∀ x, x ∈ best :: ks → num_ltb (until m x) (until m r) = false).
Proof.
  induction ks as [|k ks IH]; intros best Hst; simpl.
  - exists best. split_and!; [done | by left |].
    intros x ->%list_elem_of_singleton. apply num_ltb_irrefl.
  - destruct (Hst best) as [bs Hbs]; [apply elem_of_cons; by left|].
    destruct (Hst k) as [kS HkS]; [apply elem_of_cons; right; apply elem_of_cons; by left|].
    rewrite Hbs, HkS.
    assert (Hub : until m best = blockedUntil bs) by (unfold until; by rewrite Hbs).
    assert (Huk : until m k = blockedUntil kS) by (unfold until; by rewrite HkS).
    rewrite <- Hub, <- Huk.
    destruct (num_ltb (until m k) (until m best)) eqn:Hlt.
    + destruct (IH k) as (r & -> & Hpos & Hmin).
      { intros x Hx. apply Hst, elem_of_cons. by right. }
      exists r. split_and!; [done | |].
      * right. destruct Hpos as [->|(p & Hp & Hrk & Hbefore)].
        -- exists 0%nat. split_and!; [done | done | intros; lia].
        -- exists (S p). split_and!; [done | by eapply num_ltb_trans |].
           intros [|j] x Hj Hx; simpl in Hx.
           ++ injection Hx as <-. by apply num_ltb_leb.
           ++ apply (Hbefore j); [lia | done].
      * intros x [->|Hx]%elem_of_cons; [|by apply Hmin].
        destruct Hpos as [->|(p & _ & Hrk & _)].
        -- eapply num_ltb_below; [apply num_ltb_irrefl | done].
        -- eapply num_ltb_below; [|by eapply num_ltb_trans].
           apply num_ltb_irrefl.
    + destruct (IH best) as (r & -> & Hpos & Hmin).
      { intros x [->|Hx]%elem_of_cons; apply Hst, elem_of_cons; [by left|].
        right. apply elem_of_cons. by right. }
      exists r. split_and!; [done | |].
      * destruct Hpos as [->|(p & Hp & Hrb & Hbefore)]; [by left|].
        right. exists (S p). split_and!; [done | done |].
        intros [|j] x Hj Hx; simpl in Hx.
        -- injection Hx as <-. by eapply num_leb_below.
        -- apply (Hbefore j); [lia | done].
      * intros x [->|[->|Hx]%elem_of_cons]%elem_of_cons.
        -- apply Hmin, elem_of_cons. by left.
        -- destruct Hpos as [->|(p & _ & Hrb & _)]; [done|].
           by eapply num_ltb_below.
        -- apply Hmin, elem_of_cons. by right.
Qed.

End PickFacts.

(** C1. [pick] on a pool as the constructor leaves it (at least one key, a
    state record for each) returns a key of the pool and changes nothing but
    the cursor.  If some key is eligible ([blockedUntil <= now] and
    [failCount < 3]), the key returned is the first eligible one met from the
    cursor on, going round the pool, and the cursor is set just past it.  If
    none is, the cursor stays, no key has a [blockedUntil] strictly below
    that of the key returned, and every key before it in the pool is not
    below or equal to it.  With a single key, that key is returned. *)
Theorem pick_round_robin (now : Z) (m : APIKeyManager.t) :
  APIKeyManager.wf m →
  let n := length (APIKeyManager.keys m) in
  ∃ k m',
    APIKeyManager.pick now m = Some (k, m') ∧
    APIKeyManager.keys m' = APIKeyManager.keys m ∧
    APIKeyManager.state m' = APIKeyManager.state m ∧
    k ∈ APIKeyManager.keys m ∧
    ((∃ k', k' ∈ APIKeyManager.keys m ∧ APIKeyManager.eligible now m k' = true) →
       ∃ i, (i < n)%nat ∧
         APIKeyManager.keys m !! ((APIKeyManager.idx m + i) mod n)%nat = Some k ∧
         APIKeyManager.eligible now m k = true ∧
         (∀ i' k', (i' < i)%nat →
            APIKeyManager.keys m !! ((APIKeyManager.idx m + i') mod n)%nat = Some k' →
            APIKeyManager.eligible now m k' = false) ∧
         APIKeyManager.idx m' = (((APIKeyManager.idx m + i) mod n + 1) mod n)%nat) ∧
    ((∀ k', k' ∈ APIKeyManager.keys m → APIKeyManager.eligible now m k' = false) →
       APIKeyManager.idx m' = APIKeyManager.idx m ∧
       (∀ k', k' ∈ APIKeyManager.keys m →
          num_ltb (APIKeyManager.until m k') (APIKeyManager.until m k) = false) ∧
       ∃ p, APIKeyManager.keys m !! p = Some k ∧
         ∀ j k', (j < p)%nat → APIKeyManager.keys m !! j = Some k' →
           num_leb (APIKeyManager.until m k') (APIKeyManager.until m k) = false) ∧
    (∀ k0, APIKeyManager.keys m = [k0] → k = k0).
Proof.
  intros Hwf n. subst n. unfold APIKeyManager.pick.
  pose proof (pick_scan_spec now m Hwf 0 (length (APIKeyManager.keys m))) as Hscan.
  pose proof (wf_pos m Hwf) as Hn.
  pose proof (rotation_covers m Hwf) as Hcover.
  assert (Hone : ∀ k k0, k ∈ APIKeyManager.keys m → APIKeyManager.keys m = [k0] → k = k0).
  { intros k k0 Hk Hk0. rewrite Hk0 in Hk. by apply list_elem_of_singleton in Hk. }
  destruct (APIKeyManager.pick_scan now m 0 (length (APIKeyManager.keys m)))
    as [k m'| |]; [| |done].
  - destruct Hscan as (i & Hi & Hk & He & Hbefore & ->).
    assert (Hin : k ∈ APIKeyManager.keys m) by (by eapply list_elem_of_lookup_2).
    eexists k, _. split_and!; try done.
    + intros _. exists i. split_and!; [lia | done | done | | done].
      intros i' k' Hi'. apply Hbefore. lia.
    + intros Hnone. rewrite (Hnone k Hin) in He. done.
    + intros k0. by apply Hone.
  - destruct Hwf as [Hne Hst]. rewrite Forall_forall in Hst.
    pose proof (pick_best_spec m (APIKeyManager.keys m)) as Hbest.
    destruct (APIKeyManager.keys m) as [|k0 ks] eqn:Hkeys; [done|].
    destruct (Hbest k0) as (r & Hr & Hpos & Hmin).
    { intros k [->|Hk]%elem_of_cons; apply Hst; [apply elem_of_cons; by left | done]. }
    rewrite Hr.
    assert (Hin : r ∈ k0 :: ks).
    { destruct Hpos as [->|(p & Hp & _)]; [apply elem_of_cons; by left|].
      by eapply list_elem_of_lookup_2. }
    exists r, m. split_and!; try done.
    + intros (k' & Hk' & He). exfalso.
      apply list_elem_of_lookup_1 in Hk' as [q Hq].
      destruct (Hcover q) as (i & Hi & Hiq); [by eapply lookup_lt_Some|].
      rewrite (Hscan i k') in He; [done | lia |].
      by rewrite Hiq.
    + intros _. split_and!; [done | |].
      * intros k' Hk'. apply Hmin, elem_of_cons. by right.
      * destruct Hpos as [->|(p & Hp & _ & Hbefore)].
        -- exists 0%nat. split; [done | intros; lia].
        -- by exists p.
    + intros k1. by apply Hone.
Qed.

Lemma pool3_wf : APIKeyManager.wf pool3.
Proof. split; [done | repeat constructor; by eexists]. Qed.

Lemma pick_round_robin_witness :
  APIKeyManager.wf pool3 ∧
  ∃ k m', APIKeyManager.pick 1000 pool3 = Some (k, m') ∧
          APIKeyManager.keys m' = APIKeyManager.keys pool3.
Proof.
  split; [exact pool3_wf|].
  destruct (pick_round_robin 1000 pool3 pool3_wf) as (k & m' & Hp & Hk & _).
  by exists k, m'.
Defined.

(** ** MemoryCache *)

Section CacheFacts.
Import MemoryCache.

Lemma _entry_fresh now uid (c : t) e :
  c !! uid = Some e → fresh now e → _entry now uid c = (Some e, c).
Proof.
  intros Hc Hf. unfold _entry. rewrite Hc.
  destruct (CONFIG.CACHE_TTL <? now - ts e) eqn:H; [|done].
  apply Z.ltb_lt in H. unfold fresh in Hf. lia.
Qed.

Lemma _entry_stale now uid (c : t) e :
  c !! uid = Some e → ¬ fresh now e → _entry now uid c = (None, delete uid c).
Proof.
  intros Hc Hf. unfold _entry. rewrite Hc.
  destruct (CONFIG.CACHE_TTL <? now - ts e) eqn:H; [done|].
  apply Z.ltb_ge in H. unfold fresh in Hf. lia.
Qed.

Lemma _entry_absent now uid (c : t) :
  c !! uid = None → _entry now uid c = (None, c).
Proof. intros Hc. unfold _entry. by rewrite Hc. Qed.

Lemma _entry_Some now uid (c : t) e c' :
  _entry now uid c = (Some e, c') → c !! uid = Some e ∧ fresh now e ∧ c' = c.
Proof.
  unfold _entry. destruct (c !! uid) as [e0|]; [|done].
  destruct (CONFIG.CACHE_TTL <? now - ts e0) eqn:H; [done|].
  intros [= -> ->]. apply Z.ltb_ge in H. by split_and!.
Qed.

End CacheFacts.

(** [isDuplicate] is true exactly on an unexpired entry that maps the key to
    the value. *)
Lemma isDuplicate_true (uid key value : string) (c : MemoryCache.t) (now : Z) :
  (MemoryCache.isDuplicate now uid key value c).1 = true ↔
  ∃ e, c !! uid = Some e ∧ MemoryCache.fresh now e ∧ MemoryCache.map e !! key = Some value.
Proof.
  unfold MemoryCache.isDuplicate.
  destruct (MemoryCache._entry now uid c) as [[e|] c'] eqn:He; simpl.
  - apply _entry_Some in He as (Hc & Hf & ->).
    rewrite bool_decide_eq_true. split.
    + intros Hk. by exists e.
    + intros (e' & Hc' & _ & Hk). by simplify_eq.
  - split; [done|]. intros (e & Hc & Hf & _).
    by rewrite (_entry_fresh _ _ _ _ Hc Hf) in He.
Qed.

Lemma isDuplicate_false (uid key value : string) (c : MemoryCache.t) (now : Z) :
  (∀ e, c !! uid = Some e → MemoryCache.fresh now e →
        MemoryCache.map e !! key ≠ Some value) →
  (MemoryCache.isDuplicate now uid key value c).1 = false.
Proof.
  intros H. apply not_true_iff_false. rewrite isDuplicate_true.
  intros (e & Hc & Hf & Hk). by eapply H.
Qed.

(** C8. [isDuplicate(uid, key, value)] is true exactly when the store holds
    an entry for the user that has not expired ([now - ts <= CACHE_TTL]) and
    whose map gives exactly [value] for [key].  Hence: on an entry that is
    there and stays unexpired, it is true after [upsert] of that key and
    value; and it is false after [remove] of the key, after [invalidate] of
    the user, and once the entry is older than the time to live. *)
Theorem isDuplicate_iff (uid key value : string) (c : MemoryCache.t) (now : Z) :
  ((MemoryCache.isDuplicate now uid key value c).1 = true ↔
     ∃ e, c !! uid = Some e ∧ MemoryCache.fresh now e ∧
          MemoryCache.map e !! key = Some value) ∧
  (∀ e t0, c !! uid = Some e → MemoryCache.fresh t0 e → now - t0 ≤ CONFIG.CACHE_TTL →
     (MemoryCache.isDuplicate now uid key value
        (MemoryCache.upsert t0 uid key value c)).1 = true) ∧
  (∀ t0, (MemoryCache.isDuplicate now uid key value
            (MemoryCache.remove t0 uid key c)).1 = false) ∧
  (MemoryCache.isDuplicate now uid key value (MemoryCache.invalidate uid c)).1 = false ∧
  (∀ e, c !! uid = Some e → ¬ MemoryCache.fresh now e →
     (MemoryCache.isDuplicate now uid key value c).1 = false).
Proof.
  split_and!.
  - apply isDuplicate_true.
  - intros e t0 Hc Hf Hnow. apply isDuplicate_true.
    unfold MemoryCache.upsert. rewrite (_entry_fresh _ _ _ _ Hc Hf).
    eexists. rewrite lookup_insert_eq. split_and!; [done | done |].
    simpl. by rewrite lookup_insert_eq.
  - intros t0. apply isDuplicate_false. intros e Hc _.
    unfold MemoryCache.remove in Hc.
    destruct (MemoryCache._entry t0 uid c) as [[e0|] c'] eqn:He.
    + rewrite lookup_insert_eq in Hc. injection Hc as <-. simpl.
      by rewrite lookup_delete_eq.
    + unfold MemoryCache._entry in He. destruct (c !! uid) as [e1|] eqn:Hc1.
      * destruct (CONFIG.CACHE_TTL <? t0 - MemoryCache.ts e1); [|done].
        injection He as <-. by rewrite lookup_delete_eq in Hc.
      * injection He as <-. by rewrite Hc in Hc1.
  - apply isDuplicate_false. intros e Hc. unfold MemoryCache.invalidate in Hc.
    by rewrite lookup_delete_eq in Hc.
  - intros e Hc Hf. apply isDuplicate_false. intros e' Hc' Hf'. by simplify_eq.
Qed.

(** ** validateKey and the save of one fact *)

(** The text of the denylist error for a normalized key. *)
Lemma validateKey_generic (key : string) :
  normalizeKey key ∈ genericKeys →
  validateKey key =
    Invalid ("Key " +:+ quote (normalizeKey key) +:+
      " is too generic. Use descriptive names like " +:+ quote "github_token" +:+
      " or " +:+ quote "mom_birthday").
Proof.
  intros Hin. unfold validateKey.
  rewrite (bool_decide_eq_true_2 _ Hin).
  unfold genericKeys in Hin.
  repeat (apply elem_of_cons in Hin as [-> | Hin]; [done|]).
  by apply elem_of_nil in Hin.
Qed.

(** A normalized key that passes [validateKey] is not on the denylist. *)
Lemma validateKey_Valid (key normalized : string) :
  validateKey key = Valid normalized →
  normalized = normalizeKey key ∧ normalized ∉ genericKeys.
Proof.
  unfold validateKey.
  destruct (String.length (normalizeKey key) <? 2)%nat; [done|].
  destruct (100 <? String.length (normalizeKey key))%nat; [done|].
  destruct (bool_decide (normalizeKey key ∈ genericKeys)) eqn:H; [done|].
  intros [= <-]. split; [done|]. by apply bool_decide_eq_false in H.
Qed.

(** C7, as the code has it.  A [save_memory] call whose key normalizes to a
    term of the denylist returns the validation error as its result, and
    leaves the whole state as it was: no event (so no Convex write), no
    change to the cache.  The key ["Test"], which normalizes to ["test"], is
    such a key. *)
Theorem save_memory_generic_rejected (env : Env) (userId : Z) (args : Args.t)
    (key : string) (w : World) :
  Args.key args = Some key →
  normalizeKey key ∈ genericKeys →
  executeTool env "save_memory" args userId w =
    (Ok ("Error: Key " +:+ quote (normalizeKey key) +:+
           " is too generic. Use descriptive names like " +:+ quote "github_token" +:+
           " or " +:+ quote "mom_birthday"), w).
Proof.
  intros Hkey Hin. unfold executeTool, try_catch, save_memory. simpl.
  rewrite Hkey. unfold validateKey_, mbind, M_bind, mret, M_ret.
  by rewrite (validateKey_generic _ Hin).
Qed.

Lemma save_memory_generic_rejected_witness :
  normalizeKey "Test" = "test" ∧
  ∃ text, executeTool (calm (Reply.mk None [])) "save_memory"
            (Args.mk (Some "Test") (Some "abc") None None) 7 start = (Ok text, start).
Proof.
  split; [reflexivity|]. eexists.
  apply (save_memory_generic_rejected _ 7 _ "Test"); [reflexivity|].
  apply (bool_decide_unpack _). vm_compute. exact I.
Defined.

(** C7, the example of the claim.  The key ["Token "] normalizes to
    ["token_"], not to ["token"]; neither is on the denylist, and the save
    goes through: it is written to the store and reported as saved. *)
Lemma save_memory_Token_accepted :
  normalizeKey "Token " = "token_" ∧
  ("token" ∉ genericKeys) ∧
  (∃ w', executeTool (calm (Reply.mk None [])) "save_memory"
           (Args.mk (Some "Token ") (Some "abc") None None) 7 start
         = (Ok "Saved: token_", w') ∧
         trace w' = [EvConvex (saveMemory "7" "token_" "abc")] ∧
         db w' = [memories.mkDoc "7" "token_" "abc"]).
Proof.
  split_and!; [reflexivity | apply (bool_decide_unpack _); vm_compute; exact I |].
  eexists. split_and!; [vm_compute; reflexivity | reflexivity | reflexivity].
Qed.

(** ** Running the tools *)

Section ToolFacts.

Variable env : Env.

Lemma convex_run {A : Type} (c : ConvexCall)
    (handler : memories.table → A * memories.table) (w : World) :
  convex env c handler w =
    match convexError env (length (trace w)) with
    | Some e => (Throw e, after env (EvConvex c) w)
    | None => (Ok (handler (db w)).1, set_db (handler (db w)).2 (after env (EvConvex c) w))
    end.
Proof.
  unfold convex, await, mbind, M_bind, after. simpl.
  destruct (convexError env (length (trace w))); [done|].
  simpl. by destruct (handler (db w)).
Qed.

Lemma set_cache_id (w : World) : set_cache (cache w) w = w.
Proof. by destruct w. Qed.

(** [save_memory] on a valid key and a value that is not blank, when the
    cache does not know the pair and the write goes through. *)
Lemma save_memory_saved (uid key k v : string) (args : Args.t) (w : World) c1 :
  Args.key args = Some key → Args.value args = Some v →
  validateKey key = Valid k →
  emptyValue (Some v) = false →
  MemoryCache.isDuplicate (now w) uid k v (cache w) = (false, c1) →
  convexError env (length (trace w)) = None →
  save_memory env uid args w =
    (Ok ("Saved: " +:+ k),
     let w1 := after env (EvConvex (saveMemory uid k v)) (set_cache c1 w) in
     set_cache (MemoryCache.upsert (now w1) uid k v c1)
       (set_db (memories.saveMemory uid k v (db w)) w1)).
Proof.
  intros Hkey Hval Hvalid Hne Hdup Hok.
  unfold save_memory, validateKey_, cache_isDuplicate, cache_upsert,
    mbind, M_bind, mret, M_ret.
  rewrite Hkey, Hval, Hvalid, Hne. simpl. rewrite Hdup.
  rewrite convex_run. simpl. by rewrite Hok.
Qed.

Lemma save_memory_duplicate (uid key k v : string) (args : Args.t) (w : World) c1 :
  Args.key args = Some key → Args.value args = Some v →
  validateKey key = Valid k →
  emptyValue (Some v) = false →
  MemoryCache.isDuplicate (now w) uid k v (cache w) = (true, c1) →
  save_memory env uid args w = (Ok ("Already saved: " +:+ k), set_cache c1 w).
Proof.
  intros Hkey Hval Hvalid Hne Hdup.
  unfold save_memory, validateKey_, cache_isDuplicate, mbind, M_bind, mret, M_ret.
  rewrite Hkey, Hval, Hvalid, Hne. simpl. by rewrite Hdup.
Qed.

(** [get_memory] with a key that the cache holds: served without an await. *)
Lemma get_memory_hit (uid key v : string) (args : Args.t) (w : World) e :
  Args.key args = Some key → key ≠ "" →
  cache w !! uid = Some e → MemoryCache.fresh (now w) e →
  MemoryCache.map e !! normalizeKey key = Some v → v ≠ "" →
  get_memory env uid args w = (Ok (normalizeKey key +:+ ": " +:+ v), w).
Proof.
  intros Hkey Hk Hc Hf Hm Hv. unfold get_memory. rewrite Hkey.
  destruct key as [|a key]; [done|].
  unfold cache_get, mbind, M_bind, mret, M_ret, MemoryCache.get.
  rewrite (_entry_fresh _ _ _ _ Hc Hf). simpl. rewrite Hm.
  destruct v as [|b v]; [done|]. by rewrite set_cache_id.
Qed.

(** [get_memory] with a key, for a user without cache entry: the store is
    asked. *)
Lemma get_memory_miss (uid key : string) (args : Args.t) (w : World) :
  Args.key args = Some key → key ≠ "" →
  cache w !! uid = None →
  ∃ r w', get_memory env uid args w = (r, w') ∧
    trace w' = trace w ++ [EvConvex (getMemory uid (normalizeKey key))].
Proof.
  intros Hkey Hk Hc. unfold get_memory. rewrite Hkey.
  destruct key as [|a key]; [done|].
  unfold cache_get, cache_upsert, mbind, M_bind, mret, M_ret, MemoryCache.get.
  rewrite (_entry_absent _ _ _ Hc). simpl. rewrite convex_run. simpl.
  destruct (convexError env (length (trace w))); [by eexists _, _|].
  simpl. destruct (memories.getMemory _ _ _); by eexists _, _.
Qed.

(** Inside [executeTool], a tool that returns is passed through. *)
Lemma executeTool_save_memory (args : Args.t) (userId : Z) (w : World) r w' :
  save_memory env (String_ userId) args w = (Ok r, w') →
  executeTool env "save_memory" args userId w = (Ok r, w').
Proof. intros H. unfold executeTool, try_catch. simpl. by rewrite H. Qed.

Lemma executeTool_get_memory (args : Args.t) (userId : Z) (w : World) r w' :
  get_memory env (String_ userId) args w = (Ok r, w') →
  executeTool env "get_memory" args userId w = (Ok r, w').
Proof. intros H. unfold executeTool, try_catch. simpl. by rewrite H. Qed.

End ToolFacts.

(** C9.  With a cache entry for the user that is unexpired when the save
    runs, a [save_memory] of [github_token = ghp_abc123xyz] whose write goes
    through, followed by a [get_memory] of [github_token], returns exactly
    that value, and the read adds no event: the store is not asked.  For a
    user without cache entry the save creates none, and the same read asks
    the store. *)
Theorem save_then_get_from_cache (env : Env) (userId : Z) (w : World) :
  let uid := String_ userId in
  let save := Args.mk (Some "github_token") (Some "ghp_abc123xyz") None None in
  let read := Args.mk (Some "github_token") None None None in
  convexError env (length (trace w)) = None →
  (∀ e, cache w !! uid = Some e →
     MemoryCache.fresh
       (now (after env (EvConvex (saveMemory uid "github_token" "ghp_abc123xyz")) w)) e →
     ∃ r1 w1,
       executeTool env "save_memory" save userId w = (Ok r1, w1) ∧
       (r1 = "Saved: github_token" ∧
          trace w1 = trace w ++ [EvConvex (saveMemory uid "github_token" "ghp_abc123xyz")]
        ∨ r1 = "Already saved: github_token" ∧ trace w1 = trace w) ∧
       executeTool env "get_memory" read userId w1 =
         (Ok "github_token: ghp_abc123xyz", w1)) ∧
  (cache w !! uid = None →
     ∃ w1 r2 w2,
       executeTool env "save_memory" save userId w = (Ok "Saved: github_token", w1) ∧
       cache w1 !! uid = None ∧
       executeTool env "get_memory" read userId w1 = (r2, w2) ∧
       trace w2 = trace w1 ++ [EvConvex (getMemory uid "github_token")]).
Proof.
  intros uid save read Hok. split.
  - intros e Hc Hf.
    set (ev := EvConvex (saveMemory uid "github_token" "ghp_abc123xyz")) in *.
    change (now (after env ev w))
      with (now w + Z.of_nat (elapsed env (length (trace w)) ev)) in Hf.
    assert (Hf0 : MemoryCache.fresh (now w) e).
    { unfold MemoryCache.fresh in *. lia. }
    destruct (MemoryCache.isDuplicate (now w) uid "github_token" "ghp_abc123xyz" (cache w))
      as [dup c1] eqn:Hdup.
    assert (c1 = cache w) as ->.
    { unfold MemoryCache.isDuplicate in Hdup.
      rewrite (_entry_fresh _ _ _ _ Hc Hf0) in Hdup. by injection Hdup. }
    destruct dup.
    + eexists _, _. split; [|split].
      * apply executeTool_save_memory.
        by eapply (save_memory_duplicate env uid "github_token" "github_token").
      * by right; rewrite set_cache_id.
      * rewrite set_cache_id. apply executeTool_get_memory.
        apply (get_memory_hit env uid "github_token" "ghp_abc123xyz" _ _ e);
          try done.
        pose proof (isDuplicate_true uid "github_token" "ghp_abc123xyz"
                      (cache w) (now w)) as Hiff.
        rewrite Hdup in Hiff. destruct (proj1 Hiff eq_refl) as (e' & He' & _ & Hm).
        by simplify_eq.
    + eexists _, _. split; [|split].
      * apply executeTool_save_memory.
        by eapply (save_memory_saved env uid "github_token" "github_token").
      * left. by rewrite set_cache_id.
      * rewrite set_cache_id. apply executeTool_get_memory.
        set (t1 := now w + Z.of_nat (elapsed env (length (trace w)) ev)) in *.
        apply (get_memory_hit env uid "github_token" "ghp_abc123xyz" _ _
                 (MemoryCache.mkEntry
                    (<["github_token" := "ghp_abc123xyz"]> (MemoryCache.map e)) t1));
          [done | done | | | | done].
        -- subst t1 ev. simpl. unfold MemoryCache.upsert. simpl.
           rewrite (_entry_fresh _ _ _ _ Hc Hf). apply lookup_insert_eq.
        -- subst t1 ev. unfold MemoryCache.fresh. simpl. unfold CONFIG.CACHE_TTL. lia.
        -- simpl. apply lookup_insert_eq.
  - intros Hc.
    assert (Hdup : MemoryCache.isDuplicate (now w) uid "github_token" "ghp_abc123xyz" (cache w)
                   = (false, cache w)).
    { unfold MemoryCache.isDuplicate. by rewrite (_entry_absent _ _ _ Hc). }
    pose proof (save_memory_saved env uid "github_token" "github_token" "ghp_abc123xyz"
                  save w (cache w) eq_refl eq_refl eq_refl eq_refl Hdup Hok) as Hsave.
    rewrite set_cache_id in Hsave. cbv zeta in Hsave.
    match type of Hsave with _ = (_, ?w1') => set (w1 := w1') in * end.
    assert (Hcold : cache w1 !! uid = None).
    { subst w1. simpl. unfold MemoryCache.upsert. by rewrite (_entry_absent _ _ _ Hc). }
    destruct (get_memory_miss env uid "github_token" read w1 eq_refl ltac:(done) Hcold)
      as (r2 & w2 & Hget & Htr).
    assert (Hexec : ∃ r, executeTool env "get_memory" read userId w1 = (r, w2)).
    { unfold executeTool, try_catch. simpl. fold uid. rewrite Hget.
      destruct r2; by eexists. }
    destruct Hexec as [r Hexec].
    exists w1, r, w2. split_and!; [by apply executeTool_save_memory | done | done | done].
Qed.

(** ** groqChat *)

Section ClientFacts.

Variable env : Env.
Variables (remaining' : nat) (lastErr : option Err).
Variables (messages : list Msg.t) (tools : option ToolSchema).
Variable w : World.
Variables (k : string) (a : APIKeyManager.t).

(** The attempt that [groqChat_loop] makes with [S remaining'] to go. *)
Let attempt : nat := (CONFIG.MAX_RETRIES - remaining')%nat.

(** The world in which that attempt issues its request: the key is
    picked, and its cooldown, if any, is waited out. *)
Let wait : num := APIKeyManager.waitTime (now w) k a.
Let w1 : World :=
  if num_ltb (ofZ 0) wait
  then after env (EvSleep wait) (set_apiKeys a w) else set_apiKeys a w.
Let req : Request.t := paramsOf env k messages tools.
Let w2 : World := after env (EvRequest req) w1.

Hypothesis Hpick : APIKeyManager.pick (now w) (apiKeys w) = Some (k, a).

Lemma groqChat_loop_failed (err : Err) :
  llm env (length (trace w1)) req = Throw err →
  groqChat_loop env (S remaining') lastErr messages tools w =
    (let rest : M Reply.t :=
       if statusIs err 400 then
         throw (Error "Invalid request format. Please try rephrasing.")
       else if statusGe err 500 && (attempt <? CONFIG.MAX_RETRIES)%nat then
         _ ← sleep env (ofZ (CONFIG.RETRY_BASE_DELAY * Z.of_nat attempt));
         groqChat_loop env remaining' (Some err) messages tools
       else throw err in
     if statusIs err 429 then
       let cooldown := cooldownOf err attempt in
       _ ← modify (λ w, set_apiKeys
                          (APIKeyManager.block (now w) k cooldown (apiKeys w)) w);
       if (attempt <? CONFIG.MAX_RETRIES)%nat then
         _ ← sleep env cooldown;
         groqChat_loop env remaining' (Some err) messages tools
       else rest
     else rest) w2.
Proof.
  intros Hllm.
  cbn [groqChat_loop]. unfold mbind, M_bind at 1. unfold pick_ at 1. rewrite Hpick.
  unfold M_bind at 1. unfold gets at 1. cbn [now apiKeys set_apiKeys].
  fold wait. unfold M_bind at 1.
  assert (Hw1 : (if num_ltb (ofZ 0) wait then sleep env wait else mret ())
                  (set_apiKeys a w) = (Ok (), w1)).
  { subst w1. by destruct (num_ltb (ofZ 0) wait). }
  rewrite Hw1. unfold try_catch. unfold M_bind at 1. unfold create at 1.
  unfold mbind, M_bind at 1. unfold await at 1.
  fold req. rewrite Hllm. unfold throw at 1. by fold w2.
Qed.

Lemma groqChat_loop_answered (r : Reply.t) :
  llm env (length (trace w1)) req = Ok r →
  groqChat_loop env (S remaining') lastErr messages tools w =
    (Ok r, set_apiKeys (APIKeyManager.resetFailures k (apiKeys w2)) w2).
Proof.
  intros Hllm.
  cbn [groqChat_loop]. unfold mbind, M_bind at 1. unfold pick_ at 1. rewrite Hpick.
  unfold M_bind at 1. unfold gets at 1. cbn [now apiKeys set_apiKeys].
  fold wait. unfold M_bind at 1.
  assert (Hw1 : (if num_ltb (ofZ 0) wait then sleep env wait else mret ())
                  (set_apiKeys a w) = (Ok (), w1)).
  { subst w1. by destruct (num_ltb (ofZ 0) wait). }
  rewrite Hw1. unfold try_catch. unfold M_bind at 1. unfold create at 1.
  unfold mbind, M_bind at 1. unfold await at 1.
  fold req. rewrite Hllm. by fold w2.
Qed.

(** An attempt whose request fails with status 400 throws the rephrase
    error at once, whatever is left of the budget: the request just made
    is the last event. *)
Lemma bad_request_no_retry (err : Err) :
  llm env (length (trace w1)) req = Throw err →
  status err = Some 400 →
  groqChat_loop env (S remaining') lastErr messages tools w =
    (Throw (Error "Invalid request format. Please try rephrasing."), w2).
Proof.
  intros Hllm Hst. rewrite (groqChat_loop_failed err Hllm).
  assert (H429 : statusIs err 429 = false) by (unfold statusIs; by rewrite Hst).
  assert (H400 : statusIs err 400 = true) by (unfold statusIs; by rewrite Hst).
  cbv zeta. by rewrite H429, H400.
Qed.

End ClientFacts.

(** C5.  An attempt of [groqChat] (the [attempt]-th of [MAX_RETRIES], made
    with the key [k] that [pick] returned) whose request fails with status
    429.  The cooldown is [H * 1000 + 500] when the message holds a hint
    [try again in Hs], and [2000 * 2 ^ (attempt - 1)] otherwise.  The key is
    blocked until [Date.now() + cooldown] and its [failCount] grows by one.
    If attempts remain, the client sleeps for the cooldown and goes on with
    the next attempt, which picks its key anew; on the last attempt the
    error is thrown to the caller. *)
Theorem rate_limit_attempt (env : Env) (remaining' : nat) (lastErr : option Err)
    (messages : list Msg.t) (tools : option ToolSchema) (w : World)
    (k : string) (a : APIKeyManager.t) (err : Err) (s : APIKeyManager.KeyState) :
  let attempt := (CONFIG.MAX_RETRIES - remaining')%nat in
  let wait := APIKeyManager.waitTime (now w) k a in
  let w1 := if num_ltb (ofZ 0) wait
            then after env (EvSleep wait) (set_apiKeys a w) else set_apiKeys a w in
  let req := paramsOf env k messages tools in
  let w2 := after env (EvRequest req) w1 in
  let cooldown :=
    match matchRetryHint (message err) with
    | Some H => num_add (num_mul (parseFloat H) (ofZ 1000)) (ofZ 500)
    | None => ofZ (2000 * 2 ^ (Z.of_nat attempt - 1))
    end in
  let w3 := set_apiKeys (APIKeyManager.block (now w2) k cooldown (apiKeys w2)) w2 in
  (remaining' < CONFIG.MAX_RETRIES)%nat →
  APIKeyManager.pick (now w) (apiKeys w) = Some (k, a) →
  APIKeyManager.state a !! k = Some s →
  llm env (length (trace w1)) req = Throw err →
  status err = Some 429 →
  APIKeyManager.state (apiKeys w3) !! k =
    Some (APIKeyManager.mkKeyState (num_add (ofZ (now w2)) cooldown)
            (S (APIKeyManager.failCount s))) ∧
  ((attempt < CONFIG.MAX_RETRIES)%nat →
     groqChat_loop env (S remaining') lastErr messages tools w =
       groqChat_loop env remaining' (Some err) messages tools
         (after env (EvSleep cooldown) w3)) ∧
  (attempt = CONFIG.MAX_RETRIES →
     groqChat_loop env (S remaining') lastErr messages tools w = (Throw err, w3)).
Proof.
  intros attempt wait w1 req w2 cooldown w3 Hrem Hpick Hs Hllm Hst.
  pose proof (groqChat_loop_failed env remaining' lastErr messages tools w k a
                Hpick err Hllm) as Hstep.
  fold attempt wait w1 req w2 in Hstep. cbv zeta in Hstep.
  assert (Hw2 : apiKeys w2 = a).
  { subst w2 w1. by destruct (num_ltb (ofZ 0) wait). }
  assert (H429 : statusIs err 429 = true) by (unfold statusIs; by rewrite Hst).
  assert (H400 : statusIs err 400 = false) by (unfold statusIs; by rewrite Hst).
  assert (H500 : statusGe err 500 = false) by (unfold statusGe; by rewrite Hst).
  assert (Hcool : cooldownOf err attempt = cooldown) by done.
  rewrite H429, H400, H500, Hcool in Hstep.
  split_and!.
  - subst w3. unfold set_apiKeys at 1. cbn [apiKeys]. rewrite Hw2.
    unfold APIKeyManager.block. rewrite Hs. cbn [APIKeyManager.state].
    apply lookup_insert_eq.
  - intros Hlt. rewrite Hstep. apply Nat.ltb_lt in Hlt. by rewrite Hlt.
  - intros Heq. rewrite Hstep. fold attempt. by rewrite Heq, Nat.ltb_irrefl.
Qed.

(** ** Code that stays offline *)

Lemma offline_refl w : offline w w.
Proof. by split. Qed.

Lemma offline_trans w1 w2 w3 : offline w1 w2 → offline w2 w3 → offline w1 w3.
Proof. intros [H1 H2] [H3 H4]. split; congruence. Qed.

Lemma safe_tame {A : Type} (P : A → Prop) (c : M A) : safe P c → tame P c.
Proof. intros H w. destruct (H w) as (Ho & a & -> & Ha). by split. Qed.

Lemma tame_weaken {A : Type} (P Q : A → Prop) (c : M A) :
  (∀ a, P a → Q a) → tame P c → tame Q c.
Proof.
  intros HPQ H w. destruct (H w) as [Ho Hr]. split; [done|].
  destruct (c w).1; [by apply HPQ | done].
Qed.

Lemma tame_ret {A : Type} (P : A → Prop) (a : A) : P a → tame P (mret a).
Proof. intros Ha w. split; [apply offline_refl | done]. Qed.

Lemma safe_ret {A : Type} (P : A → Prop) (a : A) : P a → safe P (mret a).
Proof. intros Ha w. split; [apply offline_refl | by exists a]. Qed.

Lemma tame_throw {A : Type} (P : A → Prop) (e : Err) : tame P (throw e).
Proof. intros w. split; [apply offline_refl | done]. Qed.

Lemma tame_bind {A B : Type} (Q : A → Prop) (P : B → Prop) (c : M A) (f : A → M B) :
  tame Q c → (∀ a, Q a → tame P (f a)) → tame P (c ≫= f).
Proof.
  intros Hc Hf w. unfold mbind, M_bind.
  destruct (Hc w) as [Ho Hr]. destruct (c w) as [[a|e] w']; simpl in *.
  - destruct (Hf a Hr w') as [Ho' Hr']. split; [by eapply offline_trans | done].
  - by split.
Qed.

Lemma safe_bind {A B : Type} (Q : A → Prop) (P : B → Prop) (c : M A) (f : A → M B) :
  safe Q c → (∀ a, Q a → safe P (f a)) → safe P (c ≫= f).
Proof.
  intros Hc Hf w. unfold mbind, M_bind.
  destruct (Hc w) as (Ho & a & Ha & HQ). destruct (c w) as [r w']; simpl in *.
  subst r. destruct (Hf a HQ w') as [Ho' Hr']. split; [by eapply offline_trans | done].
Qed.

Lemma safe_try_catch {A : Type} (P : A → Prop) (body : M A) (handler : Err → M A) :
  tame P body → (∀ e, safe P (handler e)) → safe P (try_catch body handler).
Proof.
  intros Hb Hh w. unfold try_catch.
  destruct (Hb w) as [Ho Hr]. destruct (body w) as [[a|e] w']; simpl in *.
  - split; [done | by exists a].
  - destruct (Hh e w') as [Ho' Hr']. split; [by eapply offline_trans | done].
Qed.

Lemma requests_app tr ev :
  requests (tr ++ [ev]) =
    requests tr ++ match ev with EvRequest r => [r] | _ => [] end.
Proof. unfold requests. rewrite omap_app. by destruct ev. Qed.

Lemma tame_convex (env : Env) {A : Type} (c : ConvexCall)
    (handler : memories.table → A * memories.table) :
  tame (λ _, True) (convex env c handler).
Proof.
  intros w. rewrite convex_run.
  assert (Ho : offline w (after env (EvConvex c) w)).
  { split; [done|]. simpl. rewrite requests_app. apply app_nil_r. }
  destruct (convexError env (length (trace w))); simpl; by split.
Qed.

Lemma safe_cache_isDuplicate (uid key value : string) :
  safe (λ _, True) (cache_isDuplicate uid key value).
Proof.
  intros w. unfold cache_isDuplicate.
  destruct (MemoryCache.isDuplicate _ _ _ _ _) as [b c]. simpl.
  split; [by split | by exists b].
Qed.

Lemma safe_cache_get (uid key : string) : safe (λ _, True) (cache_get uid key).
Proof.
  intros w. unfold cache_get.
  destruct (MemoryCache.get _ _ _ _) as [b c]. simpl.
  split; [by split | by exists b].
Qed.

Lemma safe_cache_getAll (uid : string) : safe (λ _, True) (cache_getAll uid).
Proof.
  intros w. unfold cache_getAll.
  destruct (MemoryCache.getAll _ _ _) as [b c]. simpl.
  split; [by split | by exists b].
Qed.

Lemma safe_cache_upsert (uid key value : string) :
  safe (λ _, True) (cache_upsert uid key value).
Proof. intros w. split; [by split | by exists ()]. Qed.

Lemma safe_cache_remove (uid key : string) : safe (λ _, True) (cache_remove uid key).
Proof. intros w. split; [by split | by exists ()]. Qed.

Lemma safe_cache_setAll (uid : string) (arr : list memories.doc) :
  safe (λ _, True) (cache_setAll uid arr).
Proof. intros w. split; [by split | by exists ()]. Qed.

(** ** The tools stay offline and return a text that is not empty *)

Lemma append_nonempty_r (s1 s2 : string) : s2 ≠ "" → s1 +:+ s2 ≠ "".
Proof. destruct s1; [done|]. by intros _. Qed.

Lemma append_nonempty_l (s1 s2 : string) : s1 ≠ "" → s1 +:+ s2 ≠ "".
Proof. by destruct s1. Qed.

Lemma join_nonempty (sep : string) (l : list string) :
  Forall (λ s, s ≠ "") l → l ≠ [] → join sep l ≠ "".
Proof.
  destruct l as [|x [|y l]]; [done | |].
  - intros Hx _. by apply Forall_inv in Hx.
  - intros Hx _. apply Forall_inv in Hx.
    change (x +:+ sep +:+ join sep (y :: l) ≠ ""). by apply append_nonempty_l.
Qed.

Lemma line_nonempty (m : memories.doc) : line m ≠ "".
Proof. unfold line. by apply append_nonempty_r. Qed.

(** A primitive of the tools, and a run of binds over primitives. *)
Ltac tame_prim :=
  match goal with
  | |- tame _ (mret _) => apply tame_ret
  | |- tame _ (throw _) => apply tame_throw
  | |- tame _ (convex _ _ _) => apply tame_convex
  | |- tame _ (cache_isDuplicate _ _ _) => apply safe_tame, safe_cache_isDuplicate
  | |- tame _ (cache_get _ _) => apply safe_tame, safe_cache_get
  | |- tame _ (cache_upsert _ _ _) => apply safe_tame, safe_cache_upsert
  | |- tame _ (cache_remove _ _) => apply safe_tame, safe_cache_remove
  | |- tame _ (cache_setAll _ _) => apply safe_tame, safe_cache_setAll
  end.

Ltac tame_go :=
  repeat first
    [ tame_prim
    | eapply tame_bind; [tame_prim | intros ? _]
    | match goal with
      | |- tame _ (if ?b then _ else _) => destruct b
      | |- tame _ (match ?x with _ => _ end) => destruct x
      end ].

Section ToolsOffline.

Variable env : Env.

Let nonempty (s : string) : Prop := s ≠ "".

Lemma tame_validateKey_ (key : option string) : tame (λ _, True) (validateKey_ key).
Proof. destruct key; [by apply tame_ret | apply tame_throw]. Qed.

Lemma tame_normalizeKey_ (key : option string) : tame (λ _, True) (normalizeKey_ key).
Proof. destruct key; [by apply tame_ret | apply tame_throw]. Qed.

Lemma tame_save_memory (uid : string) (args : Args.t) :
  tame nonempty (save_memory env uid args).
Proof.
  unfold save_memory.
  eapply tame_bind; [apply tame_validateKey_ | intros v _].
  tame_go; done.
Qed.

Lemma tame_screenMemories (uid : string) (ms : list Item.t) :
  ∀ results toSave, Forall nonempty results →
    tame (λ out, Forall nonempty out.1) (screenMemories uid ms results toSave).
Proof.
  induction ms as [|m ms IH]; intros results toSave Hres; simpl.
  - by apply tame_ret.
  - eapply tame_bind; [apply tame_validateKey_ | intros v _].
    destruct v as [error|key].
    + apply IH, Forall_app. split; [done|]. by repeat constructor.
    + destruct (emptyValue (Item.value m)).
      * apply IH, Forall_app. split; [done|]. by repeat constructor.
      * eapply tame_bind; [apply safe_tame, safe_cache_isDuplicate | intros [] _].
        -- apply IH, Forall_app. split; [done|]. by repeat constructor.
        -- by apply IH.
Qed.

Lemma tame_writeMemories (uid : string) (toSave : list (string * string)) :
  ∀ results, Forall nonempty results →
    tame (Forall nonempty) (writeMemories env uid toSave results).
Proof.
  induction toSave as [|[key value] toSave IH]; intros results Hres; simpl.
  - by apply tame_ret.
  - eapply tame_bind; [tame_prim | intros _ _].
    eapply tame_bind; [tame_prim | intros _ _].
    apply IH, Forall_app. split; [done|]. by repeat constructor.
Qed.

Lemma tame_save_memories (uid : string) (args : Args.t) :
  tame nonempty (save_memories env uid args).
Proof.
  unfold save_memories. destruct (Args.memories args) as [[|m ms]|];
    [by apply tame_ret | | by apply tame_ret].
  eapply tame_bind; [by apply tame_screenMemories|].
  intros [results toSave] Hres.
  eapply tame_bind; [by apply tame_writeMemories|].
  intros results' Hres'. apply tame_ret.
  destruct results'; [done|]. by apply join_nonempty.
Qed.

Lemma lines_nonempty (all : list memories.doc) :
  all ≠ [] → nonempty (join nl (line <$> all)).
Proof.
  intros Hall. apply join_nonempty.
  - apply Forall_fmap, Forall_forall. intros m _. apply line_nonempty.
  - by destruct all.
Qed.

Lemma tame_get_memory (uid : string) (args : Args.t) :
  tame nonempty (get_memory env uid args).
Proof.
  unfold get_memory.
  assert (Hlist : tame nonempty
    (all ← convex env (listMemories uid) (λ d, (memories.listMemories uid d, d));
     _ ← cache_setAll uid all;
     match all with
     | [] => mret "No memories saved yet."
     | _ => mret (join nl (line <$> all))
     end)).
  { eapply tame_bind; [tame_prim | intros all _].
    eapply tame_bind; [tame_prim | intros _ _].
    destruct all as [|m all]; apply tame_ret; [done | by apply lines_nonempty]. }
  destruct (Args.key args) as [[|c k]|]; [done | | done].
  eapply tame_bind; [tame_prim | intros cached _].
  assert (Hstore : tame nonempty
    (mem ← convex env (getMemory uid (normalizeKey (String c k)))
             (λ d, (memories.getMemory uid (normalizeKey (String c k)) d, d));
     match mem with
     | Some mem =>
         _ ← cache_upsert uid (normalizeKey (String c k)) (memories.value mem);
         mret (line mem)
     | None => mret ("No memory found: " +:+ normalizeKey (String c k))
     end)).
  { eapply tame_bind; [tame_prim | intros [mem|] _].
    - eapply tame_bind; [tame_prim | intros _ _]. apply tame_ret, line_nonempty.
    - by apply tame_ret. }
  destruct cached as [[|c' v]|]; [done | | done].
  apply tame_ret. by apply append_nonempty_r.
Qed.

Lemma tame_search_memories (uid : string) (args : Args.t) :
  tame nonempty (search_memories env uid args).
Proof.
  unfold search_memories. destruct (emptyValue (Args.query args)); [by apply tame_ret|].
  eapply tame_bind; [tame_prim | intros [|m mems] _]; apply tame_ret; [done|].
  by apply lines_nonempty.
Qed.

Lemma tame_delete_memory (uid : string) (args : Args.t) :
  tame nonempty (delete_memory env uid args).
Proof.
  unfold delete_memory.
  eapply tame_bind; [apply tame_normalizeKey_ | intros key _].
  tame_go; done.
Qed.

(** [executeTool] never throws; it stays offline and its text is not empty. *)
Lemma safe_executeTool (name : string) (args : Args.t) (userId : Z) :
  safe nonempty (executeTool env name args userId).
Proof.
  unfold executeTool. apply safe_try_catch.
  - repeat match goal with |- tame _ (if ?b then _ else _) => destruct b end.
    + apply tame_save_memory.
    + apply tame_save_memories.
    + apply tame_get_memory.
    + apply tame_search_memories.
    + apply tame_delete_memory.
    + by apply tame_ret.
  - intros e. apply safe_ret. by apply append_nonempty_l.
Qed.

End ToolsOffline.

(** ** Rounds of the conversation loop *)

(** On a pool as the constructor leaves it, [pick] returns a key that has a
    state record and leaves keys and records as they are. *)
Lemma pick_total (now : Z) (m : APIKeyManager.t) :
  APIKeyManager.wf m →
  ∃ k m', APIKeyManager.pick now m = Some (k, m') ∧
    APIKeyManager.keys m' = APIKeyManager.keys m ∧
    APIKeyManager.state m' = APIKeyManager.state m.
Proof.
  intros Hwf. unfold APIKeyManager.pick.
  pose proof (pick_scan_spec now m Hwf 0 (length (APIKeyManager.keys m))) as Hscan.
  destruct (APIKeyManager.pick_scan now m 0 (length (APIKeyManager.keys m)))
    as [k m'| |]; [| |done].
  - destruct Hscan as (i & _ & _ & _ & _ & ->). by eexists _, _.
  - destruct Hwf as [Hne Hst]. rewrite Forall_forall in Hst.
    pose proof (pick_best_spec m (APIKeyManager.keys m)) as Hbest.
    destruct (APIKeyManager.keys m) as [|k0 ks] eqn:Hkeys; [done|].
    destruct (Hbest k0) as (r & Hr & _).
    { intros k [->|Hk]%elem_of_cons; apply Hst; [apply elem_of_cons; by left | done]. }
    rewrite Hr. by eexists _, _.
Qed.

Lemma resetFailures_wf (k : string) (m : APIKeyManager.t) :
  APIKeyManager.wf m → APIKeyManager.wf (APIKeyManager.resetFailures k m).
Proof.
  intros [Hne Hst]. unfold APIKeyManager.resetFailures.
  destruct (APIKeyManager.state m !! k) as [s|] eqn:Hk; [|done].
  split; [done|]. simpl. eapply Forall_impl; [exact Hst|].
  intros k' [s' Hs']. simpl.
  destruct (decide (k = k')) as [->|Hne'].
  - rewrite lookup_insert_eq. by eexists.
  - rewrite lookup_insert_ne; [by eexists | done].
Qed.

Section Rounds.

Variable env : Env.
Variable stripMarkdown : string → string.
Variable userId : Z.

(** The provider answers every request, and always with tool calls. *)
Hypothesis Hllm : ∀ n req, ∃ msg, llm env n req = Ok msg ∧ Reply.tool_calls msg ≠ [].

(** One successful attempt: a single request, answered. *)
Lemma groqChat_answers (messages : list Msg.t) (tools : option ToolSchema) (w : World) :
  APIKeyManager.wf (apiKeys w) →
  ∃ req reply w',
    groqChat env messages tools w = (Ok reply, w') ∧
    APIKeyManager.wf (apiKeys w') ∧
    requests (trace w') = requests (trace w) ++ [req] ∧
    last (trace w') = Some (EvRequest req) ∧
    llm env (length (trace w') - 1) req = Ok reply ∧
    Reply.tool_calls reply ≠ [].
Proof.
  intros Hwf.
  destruct (pick_total (now w) (apiKeys w) Hwf) as (k & a & Hpick & Hkeys & Hstate).
  set (wait := APIKeyManager.waitTime (now w) k a).
  set (w1 := if num_ltb (ofZ 0) wait
             then after env (EvSleep wait) (set_apiKeys a w) else set_apiKeys a w).
  set (req := paramsOf env k messages tools).
  destruct (Hllm (length (trace w1)) req) as (reply & Hreply & Htc).
  exists req, reply. eexists. split.
  { unfold groqChat.
    by apply (groqChat_loop_answered env _ None messages tools w k a Hpick reply). }
  fold wait w1 req.
  assert (Ha : APIKeyManager.wf a).
  { destruct Hwf as [Hne Hst]. split; [by rewrite Hkeys|]. by rewrite Hkeys, Hstate. }
  assert (Hw1 : apiKeys w1 = a ∧ requests (trace w1) = requests (trace w)).
  { subst w1. destruct (num_ltb (ofZ 0) wait); simpl; [|done].
    split; [done|]. rewrite requests_app. apply app_nil_r. }
  destruct Hw1 as [Hw1a Hw1r].
  split_and!.
  - simpl. rewrite Hw1a. by apply resetFailures_wf.
  - simpl. by rewrite requests_app, Hw1r.
  - simpl. by rewrite last_snoc.
  - simpl. rewrite length_app. simpl.
    by replace (length (trace w1) + 1 - 1)%nat with (length (trace w1)) by lia.
  - done.
Qed.

(** The tool calls of one reply: all run, none throws, one text each. *)
Lemma runToolCalls_runs (tcs : list ToolCall.t) :
  ∀ messages toolResults w,
    Forall (λ s, s ≠ "") toolResults →
    ∃ messages' toolResults' w',
      runToolCalls env userId tcs messages toolResults w
        = (Ok (messages', toolResults'), w') ∧
      offline w w' ∧
      Forall (λ s, s ≠ "") toolResults' ∧
      length toolResults' = (length toolResults + length tcs)%nat.
Proof.
  induction tcs as [|tc tcs IH]; intros messages toolResults w Hres; simpl.
  - eexists _, _, _. split_and!; [done | apply offline_refl | done | lia].
  - destruct (ToolCall.arguments tc) as [args|].
    + unfold mbind, M_bind, try_catch.
      destruct (safe_executeTool env (ToolCall.name tc) args userId w)
        as (Ho & content & Hc & Hne).
      destruct (executeTool env (ToolCall.name tc) args userId w) as [r w1].
      simpl in Hc, Ho. subst r.
      edestruct (IH (messages ++ [Msg.mk tool (Some content) [] (Some (ToolCall.id tc))])
                    (toolResults ++ [content]) w1)
        as (messages' & toolResults' & w' & Hrun & Ho' & Hres' & Hlen).
      { apply Forall_app. split; [done|]. by repeat constructor. }
      rewrite Hrun. eexists _, _, _.
      split_and!; [done | by eapply offline_trans | done |].
      rewrite Hlen, length_app. simpl. lia.
    + edestruct (IH (messages ++ [Msg.mk tool (Some "Error: invalid arguments format") []
                                    (Some (ToolCall.id tc))])
                    (toolResults ++ ["Error: invalid arguments format"]) w)
        as (messages' & toolResults' & w' & Hrun & Ho' & Hres' & Hlen).
      { apply Forall_app. split; [done|]. by repeat constructor. }
      rewrite Hrun. eexists _, _, _. split_and!; [done | done | done |].
      rewrite Hlen, length_app. simpl. lia.
Qed.

(** The loop with [remaining] iterations to go makes [remaining] requests
    and ends after the tools of the last reply, with their texts joined. *)
Lemma chat_loop_rounds (remaining : nat) :
  (1 ≤ remaining ≤ CONFIG.MAX_ITERATIONS)%nat →
  ∀ messages w, APIKeyManager.wf (apiKeys w) →
  ∃ w5 req5 reply5 messages5 messages6 toolResults w6,
    length (requests (trace w5)) = (length (requests (trace w)) + remaining)%nat ∧
    last (trace w5) = Some (EvRequest req5) ∧
    llm env (length (trace w5) - 1) req5 = Ok reply5 ∧
    Reply.tool_calls reply5 ≠ [] ∧
    runToolCalls env userId (Reply.tool_calls reply5) messages5 [] w5
      = (Ok (messages6, toolResults), w6) ∧
    offline w5 w6 ∧
    join nl toolResults ≠ "" ∧
    chat_loop env stripMarkdown remaining userId messages w
      = (Ok (Break (join nl toolResults)), w6).
Proof.
  induction remaining as [|r IH]; [lia|]. intros Hr messages w Hwf.
  destruct (groqChat_answers messages (Some TOOLS) w Hwf)
    as (req & reply & w1 & Hgroq & Hwf1 & Hreq1 & Hlast1 & Hllm1 & Htc).
  set (messages1 := messages ++ [Msg.mk assistant (Reply.content reply)
                                   (Reply.tool_calls reply) None]).
  destruct (runToolCalls_runs (Reply.tool_calls reply) messages1 [] w1 ltac:(done))
    as (messages2 & toolResults & w2 & Hrun & Ho & Hres & Hlen).
  assert (Hjoin : join nl toolResults ≠ "").
  { apply join_nonempty; [done|]. destruct toolResults; [|done].
    destruct (Reply.tool_calls reply); [done | simpl in Hlen; lia]. }
  assert (Hstep : chat_loop env stripMarkdown (S r) userId messages w =
    (if ((CONFIG.MAX_ITERATIONS - r)%nat =? CONFIG.MAX_ITERATIONS)%nat
        && (0 <? length toolResults)%nat
     then mret (Break (join nl toolResults))
     else chat_loop env stripMarkdown r userId messages2) w2).
  { cbn [chat_loop]. unfold mbind, M_bind at 1. unfold settled. rewrite Hgroq.
    destruct (Reply.tool_calls reply) as [|tc tcs] eqn:Htcs; [done|].
    unfold M_bind at 1. fold messages1. by rewrite Hrun. }
  rewrite Hstep.
  assert (Hpos : (0 <? length toolResults)%nat = true).
  { apply Nat.ltb_lt. destruct (Reply.tool_calls reply); [done | simpl in Hlen; lia]. }
  rewrite Hpos, andb_true_r.
  destruct (decide (r = 0%nat)) as [->|Hr0].
  - simpl. exists w1, req, reply, messages1, messages2, toolResults, w2.
    split_and!; try done. rewrite Hreq1, length_app. simpl. lia.
  - assert (Hne : ((CONFIG.MAX_ITERATIONS - r)%nat =? CONFIG.MAX_ITERATIONS)%nat = false).
    { apply Nat.eqb_neq. unfold CONFIG.MAX_ITERATIONS in *. lia. }
    rewrite Hne.
    destruct Ho as [Hkeys Hreqs].
    destruct (IH ltac:(lia) messages2 w2 ltac:(by rewrite Hkeys))
      as (w5 & req5 & reply5 & messages5 & messages6 & toolResults5 & w6 &
          Hcount & Hlast & Hans & Htc5 & Hrun5 & Ho5 & Hjoin5 & Hloop).
    exists w5, req5, reply5, messages5, messages6, toolResults5, w6.
    split_and!; try done.
    rewrite Hcount, Hreqs, Hreq1, length_app. simpl. lia.
Qed.

End Rounds.

(** ** History *)

Lemma shiftWhile_last (fuel : nat) (h : list Turn.t) :
  h ≠ [] → last (shiftWhile fuel h) = last h.
Proof.
  revert h. induction fuel as [|fuel IH]; intros h Hh; simpl; [done|].
  destruct (CONFIG.MAX_HISTORY <? length h)%nat eqn:Hlen; [|done].
  apply Nat.ltb_lt in Hlen. unfold CONFIG.MAX_HISTORY in Hlen.
  destruct h as [|t [|t' h]]; simpl in *; [lia | lia |].
  by rewrite IH.
Qed.

(** [pushHistory] does not throw and touches the history of [uid] only,
    where the new turn comes last. *)
Lemma pushHistory_run (uid : Z) (role : Role) (content : string) (w : World) :
  ∃ w' h',
    pushHistory uid role content w = (Ok (), w') ∧
    now w' = now w ∧ apiKeys w' = apiKeys w ∧ cache w' = cache w ∧
    db w' = db w ∧ trace w' = trace w ∧
    conversations w' !! uid = Some h' ∧
    last h' = Some (Turn.mk role content (now w)).
Proof.
  unfold pushHistory, mbind, M_bind, getHistory, modify.
  destruct (conversations w !! uid) as [h|]; eexists _, _; simpl;
    (split_and!; [done | done | done | done | done | done | apply lookup_insert_eq |]).
  - rewrite shiftWhile_last; [apply last_snoc | by destruct h].
  - done.
Qed.

Lemma bind_safe {A B : Type} (P : A → Prop) (c : M A) (f : A → M B) (w : World) :
  safe P c → ∃ a w', offline w w' ∧ P a ∧ (c ≫= f) w = f a w'.
Proof.
  intros Hc. destruct (Hc w) as (Ho & a & Ha & HP).
  unfold mbind, M_bind. destruct (c w) as [r w']. simpl in *. subst r.
  by exists a, w'.
Qed.

Lemma safe_gets {A : Type} (f : World → A) : safe (λ _, True) (gets f).
Proof. intros w. split; [apply offline_refl | by eexists]. Qed.

Lemma safe_getHistory (uid : Z) : safe (λ _, True) (getHistory uid).
Proof.
  intros w. unfold getHistory.
  destruct (conversations w !! uid); (split; [by split | by eexists]).
Qed.

Lemma safe_pushHistory (uid : Z) (role : Role) (content : string) :
  safe (λ _, True) (pushHistory uid role content).
Proof.
  intros w. destruct (pushHistory_run uid role content w)
    as (w' & h' & -> & _ & Hk & _ & _ & Htr & _).
  split; [split; simpl; congruence | by eexists].
Qed.

Lemma safe_clearOldHistory (uid : Z) : safe (λ _, True) (clearOldHistory uid).
Proof.
  intros w. unfold clearOldHistory, mbind, M_bind, getHistory, modify.
  destruct (conversations w !! uid); (split; [by split | by eexists]).
Qed.

(** ** chat *)

(** Run the first command of a chain of binds, given that it is safe. *)
Ltac bind_step tac :=
  match goal with
  | |- context [(?c ≫= ?f) ?w0] =>
      let Hs := fresh "Hs" in
      assert (Hs : safe (λ _, True) c) by tac;
      destruct (bind_safe (λ _, True) c f w0 Hs) as (? & ? & ? & _ & ->);
      clear Hs
  end.

(** What [chat] does before its loop stays offline and does not throw. *)
Lemma chat_reaches_loop (env : Env) (stripMarkdown : string → string)
    (SYSTEM_PROMPT : string) (userId : Z) (userMessage : string) (w : World) :
  ∃ h w0, offline w w0 ∧
    chat env stripMarkdown SYSTEM_PROMPT userId userMessage w =
      (out ← chat_loop env stripMarkdown CONFIG.MAX_ITERATIONS userId
               (Msg.mk system (Some SYSTEM_PROMPT) [] None :: (plain <$> h));
       match out with
       | Return text => mret text
       | Break finalResponse =>
           let finalResponse :=
             if String.eqb finalResponse ""
             then "I processed your request but couldn't generate a complete response. Please try again."
             else finalResponse in
           _ ← pushHistory userId assistant finalResponse;
           mret (stripMarkdown finalResponse)
       end) w0.
Proof.
  unfold chat.
  bind_step ltac:(apply safe_gets).
  bind_step ltac:(destruct (negb _); [apply safe_clearOldHistory | by apply safe_ret]).
  bind_step ltac:(apply safe_pushHistory).
  bind_step ltac:(apply safe_cache_getAll).
  bind_step ltac:(
    match goal with |- safe _ (match ?x with _ => _ end) => destruct x end;
      [by apply safe_ret|];
    apply safe_try_catch; [|intros e; by apply safe_ret];
    eapply tame_bind; [apply tame_convex | intros all _];
    apply safe_tame, safe_cache_setAll).
  bind_step ltac:(apply safe_getHistory).
  eexists _, _. split; [|done].
  repeat (eapply offline_trans; [eassumption|]). apply offline_refl.
Qed.

(** C2.  A run of [chat] in which the provider answers every request with
    tool calls (on a key pool as the constructor leaves it) ends, after
    exactly [MAX_ITERATIONS = 5] requests.  The tools of the fifth reply are
    run, their texts joined by line feeds are the final answer: it is put
    last in the user's history and returned through [stripMarkdown], and no
    request follows the fifth. *)
Theorem chat_tool_rounds (env : Env) (stripMarkdown : string → string)
    (SYSTEM_PROMPT : string) (userId : Z) (userMessage : string) (w : World) :
  APIKeyManager.wf (apiKeys w) →
  (∀ n req, ∃ msg, llm env n req = Ok msg ∧ Reply.tool_calls msg ≠ []) →
  ∃ w5 req5 reply5 messages5 messages6 toolResults w6 w' h',
    length (requests (trace w5)) = (length (requests (trace w)) + 5)%nat ∧
    last (trace w5) = Some (EvRequest req5) ∧
    llm env (length (trace w5) - 1) req5 = Ok reply5 ∧
    Reply.tool_calls reply5 ≠ [] ∧
    runToolCalls env userId (Reply.tool_calls reply5) messages5 [] w5
      = (Ok (messages6, toolResults), w6) ∧
    chat env stripMarkdown SYSTEM_PROMPT userId userMessage w
      = (Ok (stripMarkdown (join nl toolResults)), w') ∧
    requests (trace w') = requests (trace w5) ∧
    conversations w' !! userId = Some h' ∧
    last h' = Some (Turn.mk assistant (join nl toolResults) (now w6)).
Proof.
  intros Hwf Hllm.
  destruct (chat_reaches_loop env stripMarkdown SYSTEM_PROMPT userId userMessage w)
    as (h & w0 & [Hkeys0 Hreq0] & ->).
  destruct (chat_loop_rounds env stripMarkdown userId Hllm CONFIG.MAX_ITERATIONS
              ltac:(unfold CONFIG.MAX_ITERATIONS; lia)
              (Msg.mk system (Some SYSTEM_PROMPT) [] None :: (plain <$> h)) w0
              ltac:(by rewrite Hkeys0))
    as (w5 & req5 & reply5 & messages5 & messages6 & toolResults & w6 &
        Hcount & Hlast & Hans & Htc & Hrun & [_ Hreq6] & Hjoin & Hloop).
  destruct (pushHistory_run userId assistant (join nl toolResults) w6)
    as (w' & h' & Hpush & _ & _ & _ & _ & Htr & Hconv & Hlast').
  exists w5, req5, reply5, messages5, messages6, toolResults, w6, w', h'.
  split_and!; try done.
  - by rewrite Hcount, Hreq0.
  - unfold mbind, M_bind at 1. rewrite Hloop.
    assert (Hnot : String.eqb (join nl toolResults) "" = false).
    { by apply String.eqb_neq. }
    rewrite Hnot. unfold M_bind. by rewrite Hpush.
  - by rewrite Htr.
Qed.

(** C3, at a failing input.  All three primary attempts are rate limited and
    the fallback request is answered.  The answer is returned through
    [stripMarkdown]; the fallback request has no tools and the reduced
    instruction followed by the history, but its model is [CONFIG.MODEL],
    the primary one, not [CONFIG.FALLBACK_MODEL]. *)
Theorem fallback_keeps_primary_model (stripMarkdown : string → string)
    (SYSTEM_PROMPT : string) :
  ∃ w' req,
    chat primaryDown stripMarkdown SYSTEM_PROMPT 7 "hello" start
      = (Ok (stripMarkdown "Hi there"), w') ∧
    length (requests (trace w')) = 4%nat ∧
    last (requests (trace w')) = Some req ∧
    Request.tools req = None ∧
    Request.messages req =
      [Msg.mk system
         (Some "You are a helpful memory assistant. Answer from conversation context. Keep it short, no markdown.")
         [] None;
       Msg.mk user (Some "hello") [] None] ∧
    Request.model req = MODEL primaryDown ∧
    Request.model req = "openai/gpt-oss-120b" ∧
    Request.model req ≠ CONFIG.FALLBACK_MODEL.
Proof.
  eexists _, _. split_and!; [vm_compute; reflexivity | reflexivity ..| done].
Qed.

(** C6, at a failing input.  The first request is refused with status 400:
    no second request is made, and the text sent to the user is the general
    apology, not the rephrase message that [groqChat] threw. *)
Theorem bad_request_generic_apology (stripMarkdown : string → string)
    (SYSTEM_PROMPT : string) :
  ∃ w',
    onText (refusing badRequest) stripMarkdown SYSTEM_PROMPT 7 "hello" start
      = (Ok "Sorry, something went wrong. Please try again in a moment.", w') ∧
    length (requests (trace w')) = 1%nat ∧
    fst (groqChat (refusing badRequest) [] (Some TOOLS) start)
      = Throw (Error "Invalid request format. Please try rephrasing.").
Proof.
  eexists. split_and!; [vm_compute; reflexivity | reflexivity | reflexivity].
Qed.

(** C10, at a failing input.  The provider answers the first request with
    plain text: the answer is returned through [stripMarkdown], and it is
    in the history twice. *)
Theorem plain_answer_pushed_twice (stripMarkdown : string → string)
    (SYSTEM_PROMPT : string) :
  ∃ w',
    chat (calm (Reply.mk (Some "Hello") [])) stripMarkdown SYSTEM_PROMPT 7 "hello" start
      = (Ok (stripMarkdown "Hello"), w') ∧
    conversations w' !! 7 =
      Some [Turn.mk user "hello" 0; Turn.mk assistant "Hello" 80;
            Turn.mk assistant "Hello" 80].
Proof.
  eexists. split; [vm_compute; reflexivity | reflexivity].
Qed.

(** ** RequestQueue: the chains of promises *)

Section QueueFacts.

Import RequestQueue.

Implicit Types (q : t) (x : chain) (U : Z → chain) (u : Z).

Lemma submitted_snoc u l ev :
  submitted u (l ++ [ev]) =
    submitted u l ++
    match ev with
    | Enqueued u' _ task => if decide (u' = u) then [task] else []
    | _ => []
    end.
Proof.
  unfold submitted. rewrite omap_app. f_equal.
  destruct ev; simpl; [|done..]. by destruct (decide _).
Qed.

Lemma activity_snoc u l ev :
  activity u (l ++ [ev]) =
    activity u l ++
    match ev with
    | Started task | Finished task _ => if decide (task.1.1 = u) then [ev] else []
    | Enqueued _ _ _ => []
    end.
Proof.
  unfold activity. rewrite List.filter_app. f_equal.
  destruct ev; simpl; [done| |]; case_bool_decide; by destruct (decide _).
Qed.

Lemma out_snoc_old x o i os' :
  (i < length (os x))%nat → os' = os x ++ [o] →
  default (Fulfilled None) (os' !! i) = out x i.
Proof. intros Hi ->. unfold out. by rewrite lookup_app_l. Qed.

Lemma Inv_init : Inv init.
Proof.
  exists (λ _, mkChain 0 [] [] 0 0 0).
  split; try done.
  - intros u. unfold chain_ok, b. simpl. lia.
  - intros u i r. unfold init. simpl. rewrite lookup_empty.
    destruct r; simpl; by repeat case_decide; try lia.
  - intros j Hj. by apply elem_of_nil in Hj.
  - constructor.
Qed.

(** The chain of [u] replaced by [x']. *)
Lemma rep_other U u x' u' : u' ≠ u → (<[u := x']> U) u' = U u'.
Proof. intros. by apply fn_lookup_insert_ne. Qed.

Lemma rep_same U u x' : (<[u := x']> U) u = x'.
Proof. apply fn_lookup_insert. Qed.

(** A step of user [u] that leaves what belongs to the others alone. *)
Lemma rep_update U q q' u x' :
  rep U q →
  chain_ok x' →
  (∀ i r, heap q' !! (u, i, r) = cell_of u x' i r) →
  (∀ u' i r, u' ≠ u → heap q' !! (u', i, r) = heap q !! (u', i, r)) →
  chains q' !! u = (if decide (0 < n x')%nat then Some (u, (n x' - 1)%nat, Catch) else None) →
  (∀ u', u' ≠ u → chains q' !! u' = chains q !! u') →
  stats q' !! u = (if decide (0 < n x')%nat then Some (n x') else None) →
  (∀ u', u' ≠ u → stats q' !! u' = stats q !! u') →
  (∀ j, owner j ≠ u → j ∈ jobs q' ↔ j ∈ jobs q) →
  (∀ j, owner j = u → j ∈ jobs q' ↔ job_of u x' = Some j) →
  NoDup (owner <$> jobs q') →
  submitted u (log q') = (λ i, (u, i, Task)) <$> seq 0 (n x') →
  (∀ u', u' ≠ u → submitted u' (log q') = submitted u' (log q)) →
  activity u (log q') = acts u x' →
  (∀ u', u' ≠ u → activity u' (log q') = activity u' (log q)) →
  rep (<[u := x']> U) q'.
Proof.
  intros [] Hok Hheap Hheap' Hch Hch' Hst Hst' Hjo Hju Hnd Hsub Hsub' Hact Hact'.
  split.
  - intros u'. destruct (decide (u' = u)) as [->|Hne];
      [by rewrite rep_same | by rewrite rep_other].
  - intros u' i r. destruct (decide (u' = u)) as [->|Hne];
      [by rewrite rep_same | rewrite rep_other, Hheap' by done; auto].
  - intros u'. destruct (decide (u' = u)) as [->|Hne];
      [by rewrite rep_same | rewrite rep_other, Hch' by done; auto].
  - intros u'. destruct (decide (u' = u)) as [->|Hne];
      [by rewrite rep_same | rewrite rep_other, Hst' by done; auto].
  - intros j Hj. destruct (decide (owner j = u)) as [Hu|Hne].
    + rewrite Hu, rep_same. by apply Hju.
    + rewrite rep_other by done. apply rep_jobs_in0. by apply Hjo.
  - done.
  - intros u' j. destruct (decide (u' = u)) as [->|Hne].
    + rewrite rep_same. intros Hj. apply Hju; [|done].
      unfold job_of in Hj. by repeat case_decide; simplify_eq.
    + rewrite rep_other by done. intros Hj.
      assert (owner j = u') as Ho.
      { unfold job_of in Hj. by repeat case_decide; simplify_eq. }
      apply Hjo; [congruence | by eapply rep_jobs_all0].
  - intros u'. destruct (decide (u' = u)) as [->|Hne];
      [by rewrite rep_same | rewrite rep_other, Hsub' by done; auto].
  - intros u'. destruct (decide (u' = u)) as [->|Hne];
      [by rewrite rep_same | rewrite rep_other, Hact' by done; auto].
Qed.

(** The owner of the job of a chain. *)
Lemma job_of_owner u x j : job_of u x = Some j → owner j = u.
Proof. unfold job_of. intros Hj. by repeat case_decide; simplify_eq. Qed.

(** A user without job in the queue. *)
Lemma no_job_not_owner U q u j :
  rep U q → job_of u (U u) = None → j ∈ jobs q → owner j ≠ u.
Proof.
  intros Hrep Hnone Hj Ho. subst u.
  pose proof (rep_jobs_in _ _ Hrep j Hj). congruence.
Qed.

Lemma Inv_finish q uid i o rs :
  Inv q → heap q !! (uid, i, Call) = Some (Pending rs) →
  Inv (record (Finished (uid, i, Task) o) (settle (uid, i, Call) o q)).
Proof.
  intros [U Hrep] Hp.
  pose proof (rep_heap _ _ Hrep uid i Call) as Hc. rewrite Hp in Hc.
  pose proof (rep_ok _ _ Hrep uid) as Hok.
  set (x := U uid) in *. unfold chain_ok in Hok. unfold cell_of in Hc.
  repeat case_decide; simplify_eq.
  assert (Hi : i = b x) by lia. subst i.
  assert (Hnone : job_of uid x = None).
  { unfold job_of. repeat case_decide; try done; lia. }
  set (x' := mkChain (n x) (fns x) (os x ++ [o]) (a x) (c x) (d x)).
  assert (Hb' : b x' = S (b x)).
  { unfold b, x'. simpl. rewrite length_app. simpl. lia. }
  assert (Hout : ∀ k, (k < b x)%nat → out x' k = out x k).
  { intros k Hk. unfold out, x'. simpl. by rewrite lookup_app_l. }
  assert (Houtb : out x' (b x) = o).
  { unfold out, x', b. simpl. by rewrite lookup_app_r, Nat.sub_diag. }
  exists (<[uid := x']> U).
  unfold settle. rewrite Hp.
  apply rep_update with (q := q); try done; simpl.
  - unfold chain_ok. rewrite Hb'. simpl. lia.
  - intros k r. destruct (decide ((uid, k, r) = (uid, b x, Call))) as [[= -> ->]|Hne].
    + rewrite lookup_insert_eq. unfold cell_of. rewrite Hb'. simpl.
      repeat case_decide; try lia. by rewrite Houtb.
    + rewrite lookup_insert_ne by done. rewrite (rep_heap _ _ Hrep). fold x.
      unfold cell_of. rewrite Hb'. simpl.
      destruct r; repeat case_decide; try lia; try done;
        try (rewrite Hout by lia; done);
        try (exfalso; apply Hne; repeat f_equal; lia).
  - intros u' k r Hne. rewrite lookup_insert_ne; [done | congruence].
  - apply (rep_chains _ _ Hrep).
  - apply (rep_stats _ _ Hrep).
  - intros j Hj. rewrite elem_of_app, list_elem_of_singleton. split; [|by left].
    intros [?| ->]; [done|]. by simpl in Hj.
  - intros j Hj. rewrite elem_of_app, list_elem_of_singleton.
    assert (Hjob : job_of uid x' = Some (Settle (uid, b x, Task), o)).
    { unfold job_of. rewrite Hb'. simpl. repeat case_decide; try lia.
      replace (d x) with (b x) by lia. by rewrite Houtb. }
    rewrite Hjob. split.
    + intros [Hin| ->]; [|done]. by destruct (no_job_not_owner U q uid j).
    + intros [= <-]. by right.
  - rewrite fmap_app. simpl. apply NoDup_app. split_and!.
    + apply (rep_jobs_nodup _ _ Hrep).
    + intros u' [j [Hu Hj]]%list_elem_of_fmap Hu'%list_elem_of_singleton.
      change (u' = uid) in Hu'. subst u'.
      by apply (no_job_not_owner U q uid j).
    + apply NoDup_singleton.
  - rewrite submitted_snoc, app_nil_r. apply (rep_submitted _ _ Hrep).
  - intros u' _. by rewrite submitted_snoc, app_nil_r.
  - rewrite activity_snoc. simpl. rewrite decide_True by done.
    rewrite (rep_activity _ _ Hrep). fold x. unfold acts. rewrite Hb'.
    rewrite (decide_True (P := (b x < a x)%nat)) by lia.
    rewrite (decide_False (P := (S (b x) < a x')%nat)) by (simpl; lia).
    unfold x' at 1. simpl. rewrite imap_app, join_app. simpl.
    rewrite Nat.add_0_r, app_nil_r, <- app_assoc. done.
  - intros u' Hne. rewrite activity_snoc. simpl. rewrite decide_False by done.
    apply app_nil_r.
Qed.

(** The jobs behind the head belong to other users. *)
Lemma tail_not_owner U q job js j :
  rep U q → jobs q = job :: js → j ∈ js → owner j ≠ owner job.
Proof.
  intros Hrep Hjobs Hj Ho.
  pose proof (rep_jobs_nodup _ _ Hrep) as Hnd. rewrite Hjobs in Hnd.
  simpl in Hnd. apply NoDup_cons in Hnd as [Hnot _].
  apply Hnot, list_elem_of_fmap. by exists j.
Qed.

Lemma Inv_job q job js :
  Inv q → jobs q = job :: js →
  Inv (run job (mk (chains q) (stats q) (heap q) js (log q))).
Proof.
  intros [U Hrep] Hjobs.
  assert (Hin : job ∈ jobs q) by (rewrite Hjobs; apply elem_of_cons; by left).
  pose proof (rep_jobs_in _ _ Hrep job Hin) as Hjob.
  pose proof (λ j, tail_not_owner U q job js j Hrep Hjobs) as Htail.
  pose proof (rep_jobs_nodup _ _ Hrep) as Hnd. rewrite Hjobs in Hnd.
  simpl in Hnd. apply NoDup_cons in Hnd as [_ Hnd].
  set (u := owner job) in *.
  pose proof (rep_ok _ _ Hrep u) as Hok.
  pose proof (rep_heap _ _ Hrep u) as Hheap.
  set (x := U u) in *. unfold chain_ok in Hok.
  assert (Hothers : ∀ j l, l = js ∨ (∃ j', l = js ++ [j'] ∧ owner j' = u) →
            owner j ≠ u → j ∈ l ↔ j ∈ jobs q).
  { intros j q' Hq' Hne. rewrite Hjobs, elem_of_cons.
    destruct Hq' as [-> | (j' & -> & Hj')].
    - split; [by right|]. intros [->|?]; [done | done].
    - rewrite elem_of_app, list_elem_of_singleton. split.
      + intros [?| ->]; [by right | done].
      + intros [->|?]; [done | by left]. }
  unfold job_of in Hjob. repeat case_decide; simplify_eq.
  - (* the function of the next task is called *)
    set (x' := mkChain (n x) (fns x) (os x) (S (a x)) (c x) (d x)).
    exists (<[u := x']> U). rewrite <- Hjob. simpl. unfold register. simpl.
    rewrite lookup_insert_eq. simpl.
    apply rep_update with (q := q); try done; simpl.
    + unfold chain_ok, b. simpl. unfold b in *. lia.
    + intros k r. rewrite insert_insert_eq.
      destruct (decide ((u, k, r) = (u, a x, Call))) as [[= -> ->]|Hne].
      * rewrite lookup_insert_eq. unfold cell_of. simpl.
        unfold b in *; simpl; repeat case_decide; try done; lia.
      * rewrite lookup_insert_ne by done. rewrite Hheap.
        unfold cell_of, b in *. simpl.
        destruct r; repeat case_decide; try done; try lia;
          exfalso; apply Hne; repeat f_equal; lia.
    + intros u' k r Hne. rewrite insert_insert_eq, lookup_insert_ne; [done|congruence].
    + apply (rep_chains _ _ Hrep).
    + apply (rep_stats _ _ Hrep).
    + intros j Hj. apply (Hothers j js); [by left | done].
    + intros j Hj.
      assert (Hnone : job_of u x' = None).
      { unfold job_of, b in *. simpl. repeat case_decide; try done; lia. }
      rewrite Hnone. split; [|done]. intros Hjs. by destruct (Htail j).
    + rewrite submitted_snoc, app_nil_r. apply (rep_submitted _ _ Hrep).
    + intros u' _. by rewrite submitted_snoc, app_nil_r.
    + rewrite activity_snoc. simpl. rewrite decide_True by done.
      rewrite (rep_activity _ _ Hrep). fold x. unfold acts.
      rewrite (decide_False (P := (b x < a x)%nat)) by lia.
      rewrite (decide_True (P := (b x' < a x')%nat)) by (unfold b in *; simpl; lia).
      rewrite app_nil_r. simpl. repeat f_equal. unfold b in *. simpl. lia.
    + intros u' Hne. rewrite activity_snoc. simpl. rewrite decide_False by done.
      apply app_nil_r.
  - (* the task promise is settled *)
    set (x' := mkChain (n x) (fns x) (os x) (a x) (S (c x)) (d x)).
    exists (<[u := x']> U). rewrite <- Hjob. simpl. unfold settle. simpl.
    rewrite Hheap. unfold cell_of. rewrite decide_True by lia.
    rewrite decide_False by lia. simpl.
    apply rep_update with (q := q); try done; simpl.
    + unfold chain_ok, b. simpl. unfold b in *. lia.
    + intros k r.
      destruct (decide ((u, k, r) = (u, d x, Task))) as [[= -> ->]|Hne].
      * rewrite lookup_insert_eq. unfold cell_of. simpl.
        unfold b in *; simpl; repeat case_decide; try done; lia.
      * rewrite lookup_insert_ne by done. rewrite Hheap.
        unfold cell_of, b in *. simpl.
        destruct r; repeat case_decide; try done; try lia;
          exfalso; apply Hne; repeat f_equal; lia.
    + intros u' k r Hne. rewrite lookup_insert_ne; [done|congruence].
    + apply (rep_chains _ _ Hrep).
    + apply (rep_stats _ _ Hrep).
    + intros j Hj. apply (Hothers j (js ++ [_])); [|done].
      right. by eexists.
    + intros j Hj.
      assert (Hnew : job_of u x' = Some (Swallow (u, d x, Catch), out x (d x))).
      { unfold job_of, b in *. simpl. repeat case_decide; try done; lia. }
      rewrite Hnew, elem_of_app, list_elem_of_singleton. split.
      * intros [Hjs| ->]; [by destruct (Htail j) | done].
      * intros [= <-]. by right.
    + rewrite fmap_app. apply NoDup_app. split_and!; [done | | apply NoDup_singleton].
      intros u' [j [Hu Hj]]%list_elem_of_fmap Hu'%list_elem_of_singleton.
      change (u' = u) in Hu'. subst u'. by destruct (Htail j).
    + apply (rep_submitted _ _ Hrep).
    + apply (rep_activity _ _ Hrep).
  - (* the catch promise is settled *)
    set (x' := mkChain (n x) (fns x) (os x) (a x) (c x) (S (d x))).
    exists (<[u := x']> U). rewrite <- Hjob. simpl. unfold settle. simpl.
    rewrite Hheap. unfold cell_of. rewrite decide_True by lia.
    rewrite decide_False by lia. simpl.
    assert (Hnew : job_of u x' =
      if decide (S (d x) < n x)%nat
      then Some (Finally (fn_at x (S (d x))) (u, S (d x), Task), swallowed (out x (d x)))
      else None).
    { unfold job_of, prevOut, b in *. simpl.
      assert (a x = S (d x)) as Ha by lia. rewrite Ha.
      repeat case_decide; try done; lia. }
    apply rep_update with (q := q); try done; simpl.
    + unfold chain_ok, b. simpl. unfold b in *. lia.
    + intros k r.
      destruct (decide ((u, k, r) = (u, d x, Catch))) as [[= -> ->]|Hne].
      * rewrite lookup_insert_eq. unfold cell_of. simpl.
        unfold b in *; simpl; repeat case_decide; try done; lia.
      * rewrite lookup_insert_ne by done. rewrite Hheap.
        unfold cell_of, b in *. simpl.
        destruct r; repeat case_decide; try done; try lia;
          exfalso; apply Hne; repeat f_equal; lia.
    + intros u' k r Hne. rewrite lookup_insert_ne; [done|congruence].
    + apply (rep_chains _ _ Hrep).
    + apply (rep_stats _ _ Hrep).
    + intros j Hj. case_decide; simpl.
      * apply (Hothers j (js ++ [_])); [|done]. right. by eexists.
      * rewrite app_nil_r. apply (Hothers j js); [by left | done].
    + intros j Hj. rewrite Hnew. case_decide; simpl.
      * rewrite elem_of_app, list_elem_of_singleton. split.
        -- intros [Hjs| ->]; [by destruct (Htail j) | done].
        -- intros [= <-]. by right.
      * rewrite app_nil_r. split; [|done]. intros Hjs. by destruct (Htail j).
    + case_decide; simpl; [|by rewrite app_nil_r].
      rewrite fmap_app. apply NoDup_app. split_and!; [done | | apply NoDup_singleton].
      intros u' [j [Hu Hj]]%list_elem_of_fmap Hu'%list_elem_of_singleton.
      change (u' = u) in Hu'. subst u'. by destruct (Htail j).
    + apply (rep_submitted _ _ Hrep).
    + apply (rep_activity _ _ Hrep).
Qed.

Lemma register_pending p r q rs :
  heap q !! p = Some (Pending rs) →
  register p r q = set_heap (<[p := Pending (rs ++ [r])]> (heap q)) q.
Proof. intros H. unfold register. by rewrite H. Qed.

Lemma register_settled p r q o :
  heap q !! p = Some (Settled o) → register p r q = push_jobs [(r, o)] q.
Proof. intros H. unfold register. by rewrite H. Qed.

(** What [enqueue] makes of the queue, by the state of the promise [prev]
    that the new task is chained on. *)
Lemma enqueue_chained q uid fn i prev rs :
  default 0%nat (stats q !! uid) = i →
  chains q !! uid = Some prev → prev ≠ (uid, i, Task) → prev ≠ (uid, i, Catch) →
  heap q !! prev = Some (Pending rs) →
  (enqueue uid fn q).2 =
    mk (<[uid := (uid, i, Catch)]> (chains q)) (<[uid := (i + 1)%nat]> (stats q))
       (<[(uid, i, Task) := Pending [Swallow (uid, i, Catch)]]>
          (<[(uid, i, Catch) := Pending []]>
             (<[prev := Pending (rs ++ [Finally fn (uid, i, Task)])]>
                (<[(uid, i, Task) := Pending []]> (heap q)))))
       (jobs q) (log q ++ [Enqueued uid fn (uid, i, Task)]).
Proof.
  intros Hi Hc Hne1 Hne2 Hp. unfold enqueue. rewrite Hi. simpl. rewrite Hc.
  rewrite (register_pending prev _ _ rs) by (simpl; by rewrite lookup_insert_ne).
  simpl.
  rewrite (register_pending (uid, i, Task) _ _ [])
    by (simpl; rewrite lookup_insert_ne by done;
        rewrite lookup_insert_ne by done; apply lookup_insert_eq).
  done.
Qed.

Lemma enqueue_idle q uid fn i prev o :
  default 0%nat (stats q !! uid) = i →
  chains q !! uid = Some prev → prev ≠ (uid, i, Task) → prev ≠ (uid, i, Catch) →
  heap q !! prev = Some (Settled o) →
  (enqueue uid fn q).2 =
    mk (<[uid := (uid, i, Catch)]> (chains q)) (<[uid := (i + 1)%nat]> (stats q))
       (<[(uid, i, Task) := Pending [Swallow (uid, i, Catch)]]>
          (<[(uid, i, Catch) := Pending []]>
             (<[(uid, i, Task) := Pending []]> (heap q))))
       (jobs q ++ [(Finally fn (uid, i, Task), o)])
       (log q ++ [Enqueued uid fn (uid, i, Task)]).
Proof.
  intros Hi Hc Hne1 Hne2 Hp. unfold enqueue. rewrite Hi. simpl. rewrite Hc.
  rewrite (register_settled prev _ _ o) by (simpl; by rewrite lookup_insert_ne).
  simpl.
  rewrite (register_pending (uid, i, Task) _ _ [])
    by (simpl; rewrite lookup_insert_ne by done; apply lookup_insert_eq).
  done.
Qed.

Lemma enqueue_first q uid fn i :
  default 0%nat (stats q !! uid) = i →
  chains q !! uid = None →
  (enqueue uid fn q).2 =
    mk (<[uid := (uid, i, Catch)]> (chains q)) (<[uid := (i + 1)%nat]> (stats q))
       (<[(uid, i, Task) := Pending [Swallow (uid, i, Catch)]]>
          (<[(uid, i, Catch) := Pending []]>
             (<[(uid, i, Task) := Pending []]>
                (<[(uid, i, Initial) := Settled (Fulfilled None)]> (heap q)))))
       (jobs q ++ [(Finally fn (uid, i, Task), Fulfilled None)])
       (log q ++ [Enqueued uid fn (uid, i, Task)]).
Proof.
  intros Hi Hc. unfold enqueue. rewrite Hi. simpl. rewrite Hc.
  rewrite (register_settled (uid, i, Initial) _ _ (Fulfilled None))
    by (simpl; rewrite lookup_insert_ne by done; apply lookup_insert_eq).
  simpl.
  rewrite (register_pending (uid, i, Task) _ _ [])
    by (simpl; rewrite lookup_insert_ne by done; apply lookup_insert_eq).
  done.
Qed.

(** Distinct promises of one user and one role differ in their index. *)
Ltac pid_neq :=
  repeat match goal with
  | H : (?u, ?k, ?r) ≠ (?u, ?k', ?r) |- _ =>
      assert (k ≠ k') by (intros ?; apply H; congruence); clear H
  | H : (_, _, ?r) ≠ (_, _, ?r') |- _ =>
      tryif unify r r' then fail else clear H
  end.

Lemma Inv_enqueue q uid fn : Inv q → Inv (enqueue uid fn q).2.
Proof.
  intros [U Hrep].
  pose proof (rep_ok _ _ Hrep uid) as Hok.
  pose proof (rep_heap _ _ Hrep uid) as Hheap.
  pose proof (rep_chains _ _ Hrep uid) as Hchains.
  pose proof (rep_stats _ _ Hrep uid) as Hstats.
  set (x := U uid) in *. unfold chain_ok in Hok.
  set (x' := mkChain (S (n x)) (fns x ++ [fn]) (os x) (a x) (c x) (d x)).
  assert (Hi : default 0%nat (stats q !! uid) = n x).
  { rewrite Hstats. case_decide; simpl; lia. }
  assert (Hfn : fn_at x' (n x) = fn).
  { unfold fn_at, x'. simpl. rewrite lookup_app_r by lia.
    replace (n x - length (fns x))%nat with 0%nat by lia. done. }
  assert (Hfn' : ∀ k, (k < n x)%nat → fn_at x' k = fn_at x k).
  { intros k Hk. unfold fn_at, x'. simpl. by rewrite lookup_app_l by lia. }
  assert (Hok' : chain_ok x').
  { unfold chain_ok, b in *. simpl. rewrite length_app. simpl. lia. }
  assert (Hsub : submitted uid (log q ++ [Enqueued uid fn (uid, n x, Task)]) =
                 (λ i, (uid, i, Task)) <$> seq 0 (n x')).
  { rewrite submitted_snoc, decide_True by done. rewrite (rep_submitted _ _ Hrep).
    fold x. change (n x') with (S (n x)). by rewrite seq_S, fmap_app. }
  assert (Hsub' : ∀ u', u' ≠ uid →
            submitted u' (log q ++ [Enqueued uid fn (uid, n x, Task)]) = submitted u' (log q)).
  { intros u' Hne. rewrite submitted_snoc, decide_False by done. apply app_nil_r. }
  assert (Hact : ∀ u', activity u' (log q ++ [Enqueued uid fn (uid, n x, Task)]) =
                       activity u' (log q)).
  { intros u'. rewrite activity_snoc. apply app_nil_r. }
  assert (Hacts : acts uid x' = acts uid x) by done.
  assert (Hchains' : (<[uid := (uid, n x, Catch)]> (chains q)) !! uid =
            if decide (0 < n x')%nat then Some (uid, (n x' - 1)%nat, Catch) else None).
  { rewrite lookup_insert_eq. change (n x') with (S (n x)). simpl. by rewrite Nat.sub_0_r. }
  assert (Hstats' : (<[uid := (n x + 1)%nat]> (stats q)) !! uid =
            if decide (0 < n x')%nat then Some (n x') else None).
  { rewrite lookup_insert_eq. change (n x') with (S (n x)). simpl. f_equal. lia. }
  exists (<[uid := x']> U).
  destruct (decide (0 < n x)%nat) as [Hpos|Hzero].
  - pose proof (Hheap (n x - 1)%nat Catch) as Hprev.
    unfold cell_of in Hprev. rewrite decide_True in Hprev by lia.
    rewrite (decide_False (P := (S (n x - 1) < n x)%nat)) in Hprev by lia.
    destruct (decide (n x - 1 < d x)%nat) as [Hidle|Hbusy].
    + (* the chain is idle: the new task is queued at once *)
      rewrite (enqueue_idle q uid fn (n x) _ _ Hi Hchains ltac:(done)
                 ltac:(intros [=]; lia) Hprev).
      assert (Hjob : job_of uid x' =
                Some (Finally fn (uid, n x, Task), swallowed (out x (n x - 1)))).
      { unfold job_of, prevOut, b in *. simpl.
        assert (a x = n x) as Ha by lia. rewrite Ha.
        rewrite decide_True by lia. rewrite decide_True by lia. rewrite Hfn.
        destruct (n x) as [|k] eqn:Hn; [lia|]. simpl. by rewrite Nat.sub_0_r. }
      assert (Hnone : job_of uid x = None).
      { unfold job_of, b in *. repeat case_decide; try done; lia. }
      apply rep_update with (q := q); try done; simpl.
      * intros k r. destruct r; rewrite !lookup_insert; repeat case_decide; simplify_eq.
        all: pid_neq.
        all: try rewrite Hheap.
        all: unfold cell_of, b in *; simpl.
        all: repeat case_decide; try done; try lia.
        all: try (rewrite Hfn' by lia; done).
      * intros u' k r Hne. rewrite !lookup_insert_ne; [done | congruence..].
      * intros u' Hne. by rewrite lookup_insert_ne.
      * intros u' Hne. by rewrite lookup_insert_ne.
      * intros j Hj. rewrite elem_of_app, list_elem_of_singleton.
        split; [|by left]. intros [?| ->]; [done | by simpl in Hj].
      * intros j Hj. rewrite Hjob, elem_of_app, list_elem_of_singleton. split.
        -- intros [Hin| ->]; [|done]. by destruct (no_job_not_owner U q uid j).
        -- intros [= <-]. by right.
      * rewrite fmap_app. apply NoDup_app.
        split_and!; [apply (rep_jobs_nodup _ _ Hrep) | | apply NoDup_singleton].
        intros u' [j [Hu Hj]]%list_elem_of_fmap Hu'%list_elem_of_singleton.
        change (u' = uid) in Hu'. subst u'. by apply (no_job_not_owner U q uid j).
      * rewrite Hact. apply (rep_activity _ _ Hrep).
    + (* a task is under way: the new one waits on the end of the chain *)
      rewrite (enqueue_chained q uid fn (n x) _ _ Hi Hchains ltac:(done)
                 ltac:(intros [=]; lia) Hprev).
      assert (Hjob : job_of uid x' = job_of uid x).
      { unfold job_of, prevOut, b in *. simpl.
        repeat case_decide; try done; try lia; by rewrite Hfn' by lia. }
      apply rep_update with (q := q); try done; simpl.
      * intros k r. destruct r; rewrite !lookup_insert; repeat case_decide; simplify_eq.
        all: pid_neq.
        all: try rewrite Hheap.
        all: unfold cell_of, b in *; simpl.
        all: repeat case_decide; try done; try lia.
        all: try (rewrite Hfn' by lia; done).
        all: try (replace (S (n x - 1)) with (n x) by lia; by rewrite Hfn).
      * intros u' k r Hne. rewrite !lookup_insert_ne; [done | congruence..].
      * intros u' Hne. by rewrite lookup_insert_ne.
      * intros u' Hne. by rewrite lookup_insert_ne.
      * intros j Hj. rewrite Hjob. split.
        -- intros Hin. pose proof (rep_jobs_in _ _ Hrep j Hin) as Hjin.
           by rewrite Hj in Hjin.
        -- apply (rep_jobs_all _ _ Hrep).
      * apply (rep_jobs_nodup _ _ Hrep).
      * rewrite Hact. apply (rep_activity _ _ Hrep).
  - (* the first task of the user *)
    assert (Hn : n x = 0%nat) by lia.
    rewrite (enqueue_first q uid fn (n x) Hi Hchains).
    assert (Hjob : job_of uid x' = Some (Finally fn (uid, n x, Task), Fulfilled None)).
    { unfold job_of, prevOut, b in *. simpl.
      assert (a x = 0%nat) as Ha by lia. rewrite Ha.
      rewrite decide_True by lia. rewrite decide_True by lia.
      rewrite <- Hn at 1. by rewrite Hfn, Hn. }
    assert (Hnone : job_of uid x = None).
    { unfold job_of, b in *. repeat case_decide; try done; lia. }
    apply rep_update with (q := q); try done; simpl.
    + intros k r. destruct r; rewrite !lookup_insert; repeat case_decide; simplify_eq.
      all: pid_neq.
      all: try rewrite Hheap.
      all: unfold cell_of, b in *; simpl.
      all: repeat case_decide; try done; try lia.
    + intros u' k r Hne. rewrite !lookup_insert_ne; [done | congruence..].
    + intros u' Hne. by rewrite lookup_insert_ne.
    + intros u' Hne. by rewrite lookup_insert_ne.
    + intros j Hj. rewrite elem_of_app, list_elem_of_singleton.
      split; [|by left]. intros [?| ->]; [done | by simpl in Hj].
    + intros j Hj. rewrite Hjob, elem_of_app, list_elem_of_singleton. split.
      * intros [Hin| ->]; [|done]. by destruct (no_job_not_owner U q uid j).
      * intros [= <-]. by right.
    + rewrite fmap_app. apply NoDup_app.
      split_and!; [apply (rep_jobs_nodup _ _ Hrep) | | apply NoDup_singleton].
      intros u' [j [Hu Hj]]%list_elem_of_fmap Hu'%list_elem_of_singleton.
      change (u' = uid) in Hu'. subst u'. by apply (no_job_not_owner U q uid j).
    + rewrite Hact. apply (rep_activity _ _ Hrep).
Qed.

Lemma Inv_step q q' : Inv q → step q q' → Inv q'.
Proof.
  intros HI Hstep. destruct Hstep.
  - by apply Inv_enqueue.
  - by apply Inv_job.
  - by eapply Inv_finish.
Qed.

Lemma Inv_rtc q q' : Inv q → rtc step q q' → Inv q'.
Proof.
  intros HI H. induction H as [|q1 q2 q3 Hs _ IH]; [done|].
  apply IH. by eapply Inv_step.
Qed.

Lemma Inv_reachable q : rtc step init q → Inv q.
Proof. apply Inv_rtc, Inv_init. Qed.

(** The record of a chain is serial. *)
Lemma serial_acts (u : Z) (os : list outcome) : ∀ k rest tl,
  serial rest tl →
  serial (((λ i, (u, i, Task)) <$> seq k (length os)) ++ rest)
         (mjoin (imap (λ i o, [Started (u, (k + i)%nat, Task);
                               Finished (u, (k + i)%nat, Task) o]) os) ++ tl).
Proof.
  induction os as [|o os IH]; intros k rest tl Htl; simpl; [done|].
  rewrite Nat.add_0_r. apply serial_next.
  specialize (IH (S k) rest tl Htl).
  erewrite imap_ext; [exact IH|].
  intros i o' _. simpl. by replace (k + S i)%nat with (S (k + i)) by lia.
Qed.

Lemma rep_serial U q u :
  rep U q → serial (submitted u (log q)) (activity u (log q)).
Proof.
  intros Hrep. rewrite (rep_submitted _ _ Hrep), (rep_activity _ _ Hrep).
  pose proof (rep_ok _ _ Hrep u) as Hok. set (x := U u) in *.
  unfold chain_ok in Hok. unfold acts.
  assert (Hsplit : seq 0 (n x) = seq 0 (b x) ++ seq (b x) (n x - b x)).
  { rewrite <- seq_app. f_equal. lia. }
  rewrite Hsplit, fmap_app.
  apply (serial_acts u (os x) 0).
  case_decide; [|constructor].
  destruct (n x - b x)%nat as [|m] eqn:Hm; [lia|]. simpl. constructor.
Qed.

(** What a job step leaves in the queue and adds to the record. *)
Lemma job_step_effect q job js :
  Inv q → jobs q = job :: js →
  let q' := run job (mk (chains q) (stats q) (heap q) js (log q)) in
  ∃ new starts,
    jobs q' = js ++ new ∧
    (sum_list_with weight new < weight job)%nat ∧
    log q' = log q ++ starts ∧ Forall is_start starts.
Proof.
  intros [U Hrep] Hjobs.
  assert (Hin : job ∈ jobs q) by (rewrite Hjobs; apply elem_of_cons; by left).
  pose proof (rep_jobs_in _ _ Hrep job Hin) as Hjob.
  set (u := owner job) in *.
  pose proof (rep_ok _ _ Hrep u) as Hok.
  pose proof (rep_heap _ _ Hrep u) as Hheap.
  set (x := U u) in *. unfold chain_ok in Hok.
  unfold job_of in Hjob. repeat case_decide; simplify_eq; rewrite <- Hjob; simpl.
  - unfold register. simpl. rewrite lookup_insert_eq. simpl.
    exists [], [Started (u, a x, Task)]. rewrite app_nil_r.
    split_and!; [done | unfold weight; simpl; lia | done | by repeat constructor].
  - unfold settle. simpl. rewrite Hheap. unfold cell_of.
    rewrite decide_True by lia. rewrite decide_False by lia. simpl.
    exists [(Swallow (u, d x, Catch), out x (d x))], [].
    split_and!; [done | unfold weight; simpl; lia | by rewrite app_nil_r | constructor].
  - unfold settle. simpl. rewrite Hheap. unfold cell_of.
    rewrite decide_True by lia. rewrite decide_False by lia. simpl.
    case_decide; simpl; eexists _, [];
      (split_and!; [reflexivity | unfold weight; simpl; lia
                   | by rewrite app_nil_r | constructor]).
Qed.

Lemma drain (m : nat) : ∀ q,
  Inv q → (sum_list_with weight (jobs q) ≤ m)%nat →
  ∃ q' starts, rtc job_step q q' ∧ jobs q' = [] ∧
    log q' = log q ++ starts ∧ Forall is_start starts.
Proof.
  induction m as [|m IH]; intros q HI Hm.
  - destruct (jobs q) as [|job js] eqn:Hjobs.
    + exists q, []. rewrite app_nil_r. by split_and!.
    + simpl in Hm. unfold weight in Hm. destruct job as [[]]; simpl in Hm; lia.
  - destruct (jobs q) as [|job js] eqn:Hjobs.
    + exists q, []. rewrite app_nil_r. by split_and!.
    + destruct (job_step_effect q job js HI Hjobs) as (new & starts & Hj & Hw & Hl & Hs).
      set (q1 := run job (mk (chains q) (stats q) (heap q) js (log q))) in *.
      destruct (IH q1) as (q' & starts' & Hrtc & Hempty & Hlog & Hstarts).
      * by apply (Inv_job q job js).
      * rewrite Hj, sum_list_with_app. simpl in Hm. lia.
      * exists q', (starts ++ starts'). split_and!; [| done | |].
        -- eapply rtc_l; [|exact Hrtc]. by exists job, js.
        -- by rewrite Hlog, Hl, app_assoc.
        -- by apply Forall_app.
Qed.

Lemma job_step_step q q' : job_step q q' → step q q'.
Proof. intros (job & js & Hj & ->). by apply step_job. Qed.

Lemma length_pairs {A B : Type} (l : list A) : ∀ f : nat → A → list B,
  (∀ i o, length (f i o) = 2%nat) →
  length (mjoin (imap f l)) = (2 * length l)%nat.
Proof.
  induction l as [|o l IH]; intros f Hf; [done|].
  rewrite imap_cons. simpl. rewrite length_app, Hf, IH; [lia|].
  intros i o'. apply Hf.
Qed.

(** With no job left: what has ended is settled, and a task runs unless
    all have ended. *)
Lemma rep_quiet U q u :
  rep U q → jobs q = [] →
  (∀ t o, Finished t o ∈ activity u (log q) → heap q !! t = Some (Settled o)) ∧
  ((∃ t, last (activity u (log q)) = Some (Started t)) ∨
   length (activity u (log q)) = (2 * length (submitted u (log q)))%nat).
Proof.
  intros Hrep Hjobs.
  pose proof (rep_ok _ _ Hrep u) as Hok.
  pose proof (rep_jobs_all _ _ Hrep u) as Hall. rewrite Hjobs in Hall.
  assert (Hnone : job_of u (U u) = None).
  { destruct (job_of u (U u)) as [j|] eqn:Hj; [|done].
    by destruct (proj1 (elem_of_nil j) (Hall j eq_refl)). }
  rewrite (rep_submitted _ _ Hrep), (rep_activity _ _ Hrep).
  set (x := U u) in *. unfold chain_ok in Hok.
  assert (Hcb : c x = b x).
  { unfold job_of in Hnone. repeat case_decide; try done; lia. }
  split.
  - intros t o Ht. unfold acts in Ht. apply elem_of_app in Ht as [Ht|Ht].
    + apply list_elem_of_join in Ht as (l & Hto & Hl).
      apply elem_of_lookup_imap in Hl as (i & o' & -> & Hi).
      apply elem_of_cons in Hto as [|Hto]; [done|].
      apply list_elem_of_singleton in Hto as [= -> ->].
      rewrite (rep_heap _ _ Hrep). fold x. unfold cell_of.
      apply lookup_lt_Some in Hi as Hlt. fold (b x) in Hlt.
      rewrite decide_True by lia. rewrite decide_True by lia.
      unfold out. by rewrite Hi.
    + case_decide; [|by apply elem_of_nil in Ht].
      by apply list_elem_of_singleton in Ht.
  - unfold acts. case_decide.
    + left. eexists. by rewrite last_snoc.
    + right. rewrite app_nil_r, length_fmap, length_seq.
      assert (Hn : n x = b x).
      { unfold job_of in Hnone. repeat case_decide; try done; lia. }
      rewrite Hn. unfold b. by apply length_pairs.
Qed.

End QueueFacts.

(** C4.  In every state that calls of [enqueue] (for any users), runs of
    jobs and ends of task functions lead to, and for every user: the record
    of the user's tasks is serial over the tasks in the order of their
    submission, so a task starts only once the one before it has ended.
    Moreover the jobs then in the queue run out, recording starts only, and
    leave a state in which every task that has ended, fulfilled or rejected,
    has settled the promise that [enqueue] returned for it with that very
    outcome, and in which either a task of the user is running or all the
    tasks submitted have run: a task that ends in a rejection does not hold
    up the next. *)
Theorem enqueue_serial (q : RequestQueue.t) :
  rtc RequestQueue.step RequestQueue.init q →
  (∀ uid, RequestQueue.serial (RequestQueue.submitted uid (RequestQueue.log q))
                              (RequestQueue.activity uid (RequestQueue.log q))) ∧
  ∃ q' starts,
    rtc RequestQueue.job_step q q' ∧
    RequestQueue.jobs q' = [] ∧
    RequestQueue.log q' = RequestQueue.log q ++ starts ∧
    Forall RequestQueue.is_start starts ∧
    ∀ uid,
      (∀ task o,
         RequestQueue.Finished task o ∈ RequestQueue.activity uid (RequestQueue.log q') →
         RequestQueue.heap q' !! task = Some (RequestQueue.Settled o)) ∧
      ((∃ task, last (RequestQueue.activity uid (RequestQueue.log q'))
                = Some (RequestQueue.Started task)) ∨
       length (RequestQueue.activity uid (RequestQueue.log q'))
       = (2 * length (RequestQueue.submitted uid (RequestQueue.log q')))%nat).
Proof.
  intros Hreach. pose proof (Inv_reachable q Hreach) as HI. split.
  - intros uid. destruct HI as [U Hrep]. by eapply rep_serial.
  - destruct (drain _ q HI (Nat.le_refl _)) as (q' & starts & Hrtc & Hempty & Hlog & Hst).
    exists q', starts. split_and!; try done.
    assert (HI' : RequestQueue.Inv q').
    { eapply Inv_rtc; [exact HI|]. eapply rtc_subrel; [|exact Hrtc].
      intros ??. apply job_step_step. }
    intros uid. destruct HI' as [U' Hrep']. by eapply rep_quiet.
Qed.

(** ** Instances *)

Lemma chat_tool_rounds_witness :
  APIKeyManager.wf (apiKeys start) ∧
  ∃ toolResults w',
    chat (calm listCall) (λ s, s) "" 7 "hi" start = (Ok (join nl toolResults), w').
Proof.
  split; [exact pool3_wf|].
  destruct (chat_tool_rounds (calm listCall) (λ s, s) "" 7 "hi" start pool3_wf)
    as (w5 & req5 & reply5 & messages5 & messages6 & toolResults & w6 & w' & h' &
        _ & _ & _ & _ & _ & Hchat & _).
  { intros n req. exists listCall. by split. }
  by exists toolResults, w'.
Defined.

Lemma rate_limit_attempt_witness :
  APIKeyManager.pick (now start) (apiKeys start)
    = Some ("gsk_a", APIKeyManager.mk (APIKeyManager.keys pool3) (APIKeyManager.state pool3) 1) ∧
  matchRetryHint (message rateLimited) = Some "7.5" ∧
  parseFloat "7.5" = Fin (15 # 2) ∧
  ∃ w3,
    APIKeyManager.state (apiKeys w3) !! "gsk_a"
      = Some (APIKeyManager.mkKeyState (Fin 8040) 1) ∧
    groqChat_loop (refusing rateLimited) 3 None [] None start
      = groqChat_loop (refusing rateLimited) 2 (Some rateLimited) [] None
          (after (refusing rateLimited) (EvSleep (Fin 8000)) w3).
Proof.
  split_and!; [reflexivity | reflexivity | reflexivity |].
  destruct (rate_limit_attempt (refusing rateLimited) 2 None [] None start "gsk_a"
              (APIKeyManager.mk (APIKeyManager.keys pool3) (APIKeyManager.state pool3) 1)
              rateLimited (APIKeyManager.mkKeyState (ofZ 0) 0))
    as (Hblock & Hretry & _);
    [unfold CONFIG.MAX_RETRIES; lia | reflexivity | reflexivity | reflexivity | reflexivity |].
  eexists. split; [exact Hblock|]. apply Hretry. unfold CONFIG.MAX_RETRIES. lia.
Defined.

Lemma isDuplicate_iff_witness :
  cache warm !! "7" = Some (MemoryCache.mkEntry ∅ 0) ∧
  (MemoryCache.isDuplicate 1000 "7" "github_token" "ghp_abc123xyz"
     (MemoryCache.upsert 500 "7" "github_token" "ghp_abc123xyz" (cache warm))).1 = true.
Proof.
  split; [reflexivity|].
  destruct (isDuplicate_iff "7" "github_token" "ghp_abc123xyz" (cache warm) 1000)
    as (_ & Hupsert & _).
  apply (Hupsert (MemoryCache.mkEntry ∅ 0) 500); [reflexivity | |].
  - unfold MemoryCache.fresh, CONFIG.CACHE_TTL. simpl. lia.
  - unfold CONFIG.CACHE_TTL. lia.
Defined.

Lemma save_then_get_from_cache_witness :
  convexError (calm listCall) (length (trace warm)) = None ∧
  ∃ r1 w1,
    executeTool (calm listCall) "save_memory"
      (Args.mk (Some "github_token") (Some "ghp_abc123xyz") None None) 7 warm = (Ok r1, w1) ∧
    executeTool (calm listCall) "get_memory"
      (Args.mk (Some "github_token") None None None) 7 w1
      = (Ok "github_token: ghp_abc123xyz", w1).
Proof.
  split; [reflexivity|].
  destruct (save_then_get_from_cache (calm listCall) 7 warm eq_refl) as [Hwarm _].
  destruct (Hwarm (MemoryCache.mkEntry ∅ 0)) as (r1 & w1 & Hsave & _ & Hget).
  - reflexivity.
  - unfold MemoryCache.fresh, CONFIG.CACHE_TTL. simpl. lia.
  - by exists r1, w1.
Defined.

Lemma enqueue_serial_witness :
  rtc RequestQueue.step RequestQueue.init (RequestQueue.enqueue 7 0 RequestQueue.init).2 ∧
  RequestQueue.serial
    (RequestQueue.submitted 7 (RequestQueue.log (RequestQueue.enqueue 7 0 RequestQueue.init).2))
    (RequestQueue.activity 7 (RequestQueue.log (RequestQueue.enqueue 7 0 RequestQueue.init).2)).
Proof.
  assert (H : rtc RequestQueue.step RequestQueue.init
                (RequestQueue.enqueue 7 0 RequestQueue.init).2).
  { apply rtc_once. apply RequestQueue.step_enqueue. }
  split; [exact H|]. apply (proj1 (enqueue_serial _ H) 7).
Defined.

(** * Further properties *)

Lemma isKeyChar_plain (c : ascii) :
  isKeyChar c = true → isSpace c = false ∧ lowerChar c = c.
Proof.
  destruct c as [[] [] [] [] [] [] [] []]; vm_compute; intros H;
    try discriminate H; by split.
Qed.

Lemma keepKeyChars_keyChars (s : string) : keyChars (keepKeyChars s).
Proof.
  unfold keyChars. induction s as [|c s IH]; simpl; [constructor|].
  destruct (isKeyChar c) eqn:Hc; [|done]. simpl. by constructor.
Qed.

Lemma keyChars_fixed (s : string) :
  keyChars s →
  toLowerCase s = s ∧ (∀ b, replaceSpaces b s = s) ∧ keepKeyChars s = s.
Proof.
  unfold keyChars. induction s as [|c s IH]; simpl; [done|].
  intros H. apply Forall_cons in H as [Hc Hs].
  destruct (IH Hs) as (IH1 & IH2 & IH3).
  destruct (isKeyChar_plain c Hc) as [Hsp Hlow].
  rewrite Hsp, Hc, Hlow, IH1, IH3. split_and!; [done | | done].
  intros b. by rewrite IH2.
Qed.

Lemma toLowerCase_length (s : string) : String.length (toLowerCase s) = String.length s.
Proof. induction s as [|c s IH]; simpl; [done | by rewrite IH]. Qed.

Lemma replaceSpaces_length (s : string) : ∀ b,
  (String.length (replaceSpaces b s) ≤ String.length s)%nat.
Proof.
  induction s as [|c s IH]; intros b; simpl; [done|].
  destruct (isSpace c); [destruct b|]; simpl;
    [pose proof (IH true) | pose proof (IH true) | pose proof (IH false)]; lia.
Qed.

Lemma keepKeyChars_length (s : string) :
  (String.length (keepKeyChars s) ≤ String.length s)%nat.
Proof.
  induction s as [|c s IH]; simpl; [done|].
  destruct (isKeyChar c); simpl; lia.
Qed.

Lemma normalizeKey_keyChars (key : string) : keyChars (normalizeKey key).
Proof. apply keepKeyChars_keyChars. Qed.

Lemma normalizeKey_idem (key : string) : normalizeKey (normalizeKey key) = normalizeKey key.
Proof.
  destruct (keyChars_fixed _ (normalizeKey_keyChars key)) as (H1 & H2 & H3).
  unfold normalizeKey at 1. by rewrite H1, H2, H3.
Qed.

(** X1. [normalizeKey] gives the canonical form of a key: its result is made
    of [[a-z0-9_]] only, is never longer than the key, and is left as it is
    by a second [normalizeKey]. *)
Theorem normalizeKey_canonical (key : string) :
  keyChars (normalizeKey key) ∧
  (String.length (normalizeKey key) ≤ String.length key)%nat ∧
  normalizeKey (normalizeKey key) = normalizeKey key.
Proof.
  split_and!; [apply normalizeKey_keyChars | | apply normalizeKey_idem].
  unfold normalizeKey.
  pose proof (keepKeyChars_length (replaceSpaces false (toLowerCase key))).
  pose proof (replaceSpaces_length (toLowerCase key) false).
  pose proof (toLowerCase_length key). lia.
Qed.

(** X2. What [validateKey] accepts: the normalized key handed back has
    between 2 and 100 code units, all in [[a-z0-9_]], is not on the
    denylist, and is accepted again unchanged when it is validated
    itself. *)
Theorem validateKey_accepts (key normalized : string) :
  validateKey key = Valid normalized →
  normalized = normalizeKey key ∧
  (2 ≤ String.length normalized ≤ 100)%nat ∧
  keyChars normalized ∧
  (normalized ∉ genericKeys) ∧
  validateKey normalized = Valid normalized.
Proof.
  intros H. pose proof H as H0. unfold validateKey in H.
  destruct (String.length (normalizeKey key) <? 2)%nat eqn:H2; [done|].
  destruct (100 <? String.length (normalizeKey key))%nat eqn:H100; [done|].
  destruct (bool_decide (normalizeKey key ∈ genericKeys)) eqn:Hg; [done|].
  injection H as <-.
  assert (Hlen : (2 ≤ String.length (normalizeKey key) ≤ 100)%nat).
  { apply Nat.ltb_ge in H2. apply Nat.ltb_ge in H100. lia. }
  assert (Hnot : normalizeKey key ∉ genericKeys) by (by apply bool_decide_eq_false in Hg).
  split; [done|]. split; [exact Hlen|]. split; [apply normalizeKey_keyChars|].
  split; [exact Hnot|].
  unfold validateKey. by rewrite normalizeKey_idem, H2, H100, Hg.
Qed.

Lemma validateKey_accepts_witness :
  validateKey "GitHub Token" = Valid "github_token" ∧
  validateKey "github_token" = Valid "github_token".
Proof.
  assert (H : validateKey "GitHub Token" = Valid "github_token") by reflexivity.
  split; [exact H|].
  by destruct (validateKey_accepts _ _ H) as (_ & _ & _ & _ & ?).
Defined.

Lemma block_wf (now : Z) (key : string) (ms : num) (m : APIKeyManager.t) :
  APIKeyManager.wf m → APIKeyManager.wf (APIKeyManager.block now key ms m).
Proof.
  intros [Hne Hst]. unfold APIKeyManager.block.
  destruct (APIKeyManager.state m !! key) as [s|] eqn:Hk; [|done].
  split; [done|]. simpl. eapply Forall_impl; [exact Hst|].
  intros k' [s' Hs']. simpl.
  destruct (decide (key = k')) as [->|Hne'].
  - rewrite lookup_insert_eq. by eexists.
  - rewrite lookup_insert_ne; [by eexists | done].
Qed.

Lemma init_wf (ks : list string) : ks ≠ [] → APIKeyManager.wf (APIKeyManager.init ks).
Proof.
  intros Hne. split; [done|]. simpl. apply Forall_forall. intros k Hk.
  destruct (list_to_map ((λ k0, (k0, APIKeyManager.mkKeyState (ofZ 0) 0)) <$> ks)
              !! k) as [s|] eqn:Hl; [by eexists|].
  apply not_elem_of_list_to_map in Hl. exfalso. apply Hl.
  rewrite <- list_fmap_compose. simpl. by rewrite list_fmap_id.
Qed.

(** X3. The pool stays as the constructor builds it: with at least one key
    and a state record for each.  This holds of the pool the constructor
    builds from a list of keys that is not empty, and [pick], [block] and
    [resetFailures] keep it, with the list of keys unchanged; and on such a
    pool [pick] always returns a key.  On a key without record, [block] and
    [resetFailures] do nothing. *)
Theorem pool_invariant :
  (∀ ks, ks ≠ [] → APIKeyManager.wf (APIKeyManager.init ks)) ∧
  (∀ m now, APIKeyManager.wf m →
     ∃ k m', APIKeyManager.pick now m = Some (k, m') ∧ APIKeyManager.wf m' ∧
             APIKeyManager.keys m' = APIKeyManager.keys m) ∧
  (∀ m now key ms, APIKeyManager.wf m →
     APIKeyManager.wf (APIKeyManager.block now key ms m) ∧
     APIKeyManager.keys (APIKeyManager.block now key ms m) = APIKeyManager.keys m) ∧
  (∀ m key, APIKeyManager.wf m →
     APIKeyManager.wf (APIKeyManager.resetFailures key m) ∧
     APIKeyManager.keys (APIKeyManager.resetFailures key m) = APIKeyManager.keys m) ∧
  (∀ m now key ms, APIKeyManager.state m !! key = None →
     APIKeyManager.block now key ms m = m ∧ APIKeyManager.resetFailures key m = m).
Proof.
  split_and!.
  - apply init_wf.
  - intros m now Hwf. destruct (pick_total now m Hwf) as (k & m' & Hp & Hk & Hs).
    exists k, m'. split_and!; [done | | done]. destruct Hwf as [Hne Hst].
    split; [by rewrite Hk | by rewrite Hk, Hs].
  - intros m now key ms Hwf. split; [by apply block_wf|].
    unfold APIKeyManager.block. by destruct (APIKeyManager.state m !! key).
  - intros m key Hwf. split; [by apply resetFailures_wf|].
    unfold APIKeyManager.resetFailures. by destruct (APIKeyManager.state m !! key).
  - intros m now key ms Hk. unfold APIKeyManager.block, APIKeyManager.resetFailures.
    by rewrite Hk.
Qed.

Lemma pool_invariant_witness :
  APIKeyManager.wf pool3 ∧
  APIKeyManager.wf (APIKeyManager.block 0 "gsk_a" (ofZ 8000) pool3).
Proof.
  destruct pool_invariant as (Hinit & _ & Hblock & _).
  assert (H : APIKeyManager.wf pool3) by (by apply Hinit).
  split; [exact H|]. by apply Hblock.
Defined.

(** X4. A key blocked at [now] for [q] milliseconds.  Picked at once, it is
    waited for [q] milliseconds (not at all when [q] is not positive).  It
    is eligible again at [now'] exactly when the cooldown is over and this
    was at most its second failure in a row: from the third on it is not
    eligible at any time.  [resetFailures] makes a key eligible as soon as
    its cooldown is over, whatever its failures were. *)
Theorem blocked_key_eligibility (m : APIKeyManager.t) (now now' : Z) (key : string)
    (q : Q) (s : APIKeyManager.KeyState) :
  APIKeyManager.state m !! key = Some s →
  (∃ r, APIKeyManager.waitTime now key (APIKeyManager.block now key (Fin q) m) = Fin r ∧
        ((0 <= q)%Q → (r == q)%Q) ∧ ((q <= 0)%Q → (r == 0)%Q)) ∧
  (APIKeyManager.eligible now' (APIKeyManager.block now key (Fin q) m) key = true ↔
     (inject_Z now + q <= inject_Z now')%Q ∧ (APIKeyManager.failCount s < 2)%nat) ∧
  (APIKeyManager.eligible now' (APIKeyManager.resetFailures key m) key = true ↔
     num_leb (APIKeyManager.blockedUntil s) (ofZ now') = true).
Proof.
  intros Hs. split_and!.
  - unfold APIKeyManager.waitTime, APIKeyManager.block. rewrite Hs. simpl.
    rewrite lookup_insert_eq. simpl.
    set (x := Qred (Qred (inject_Z now + q) - inject_Z now)).
    assert (Hx : (x == q)%Q).
    { subst x. rewrite !Qred_correct. ring. }
    destruct (Qle_bool x 0) eqn:Hle.
    + exists 0%Q. split; [done|]. apply Qle_bool_iff in Hle. rewrite Hx in Hle.
      split; [intros H0; by apply Qle_antisym | done].
    + exists x. split; [done|]. split; [done|]. intros Hq. exfalso.
      apply not_true_iff_false in Hle. apply Hle, Qle_bool_iff. by rewrite Hx.
  - unfold APIKeyManager.eligible, APIKeyManager.block. rewrite Hs. simpl.
    rewrite lookup_insert_eq. unfold APIKeyManager.usable. simpl.
    rewrite andb_true_iff, Qle_bool_iff, Nat.ltb_lt, Qred_correct. split; intros [? ?]; split; [done | lia | done | lia].
  - unfold APIKeyManager.eligible, APIKeyManager.resetFailures. rewrite Hs. simpl.
    rewrite lookup_insert_eq. unfold APIKeyManager.usable. simpl.
    by rewrite andb_true_r.
Qed.

Lemma blocked_key_eligibility_witness :
  APIKeyManager.state pool3 !! "gsk_a" = Some (APIKeyManager.mkKeyState (ofZ 0) 0) ∧
  APIKeyManager.eligible 9000 (APIKeyManager.block 1000 "gsk_a" (Fin 8000) pool3) "gsk_a"
    = true.
Proof.
  split; [reflexivity|].
  destruct (blocked_key_eligibility pool3 1000 9000 "gsk_a" 8000
              (APIKeyManager.mkKeyState (ofZ 0) 0) eq_refl) as (_ & Hel & _).
  apply Hel. split; [|simpl; lia]. vm_compute. discriminate.
Defined.


Lemma _entry_other (now : Z) (uid uid' : string) (c : MemoryCache.t) :
  uid ≠ uid' → (MemoryCache._entry now uid c).2 !! uid' = c !! uid'.
Proof.
  intros Hne. unfold MemoryCache._entry. destruct (c !! uid) as [e|]; [|done].
  destruct (CONFIG.CACHE_TTL <? now - MemoryCache.ts e); [|done].
  simpl. by rewrite lookup_delete_ne.
Qed.

(** X5. The cache keeps the users apart: no method called for one user
    changes the entry of another. *)
Theorem cache_users_apart (uid uid' : string) (c : MemoryCache.t) (now : Z) :
  uid ≠ uid' →
  (MemoryCache.getAll now uid c).2 !! uid' = c !! uid' ∧
  (∀ key, (MemoryCache.get now uid key c).2 !! uid' = c !! uid') ∧
  (∀ arr, MemoryCache.setAll now uid arr c !! uid' = c !! uid') ∧
  (∀ key value, MemoryCache.upsert now uid key value c !! uid' = c !! uid') ∧
  (∀ key, MemoryCache.remove now uid key c !! uid' = c !! uid') ∧
  (∀ key value, (MemoryCache.isDuplicate now uid key value c).2 !! uid' = c !! uid') ∧
  MemoryCache.invalidate uid c !! uid' = c !! uid' ∧
  (MemoryCache.size now uid c).2 !! uid' = c !! uid'.
Proof.
  intros Hne. pose proof (_entry_other now uid uid' c Hne) as He.
  unfold MemoryCache.getAll, MemoryCache.get, MemoryCache.setAll, MemoryCache.upsert,
    MemoryCache.remove, MemoryCache.isDuplicate, MemoryCache.invalidate, MemoryCache.size.
  destruct (MemoryCache._entry now uid c) as [[e|] c']; simpl in *;
    split_and!; intros; rewrite ?lookup_insert_ne, ?lookup_delete_ne; done.
Qed.

Lemma cache_users_apart_witness :
  MemoryCache.upsert 10 "8" "k" "v" (cache warm) !! "7" = cache warm !! "7".
Proof.
  destruct (cache_users_apart "8" "7" (cache warm) 10) as (_ & _ & _ & H & _); [done|].
  apply H.
Defined.

(** What a run of [m.set] leaves for a key: the value of the last pair
    with that key, or what was there. *)
Lemma foldl_set_lookup (arr : list (string * string)) : ∀ (m0 : gmap string string) key,
  foldl (λ m kv, <[kv.1 := kv.2]> m) m0 arr !! key =
    match List.find (λ kv, bool_decide (kv.1 = key)) (rev arr) with
    | Some kv => Some kv.2
    | None => m0 !! key
    end.
Proof.
  induction arr as [|[k v] arr IH] using rev_ind; intros m0 key; [done|].
  rewrite foldl_app, rev_unit. simpl.
  destruct (decide (k = key)) as [->|Hne].
  - rewrite bool_decide_eq_true_2 by done. apply lookup_insert_eq.
  - rewrite bool_decide_eq_false_2 by done. rewrite lookup_insert_ne by done. apply IH.
Qed.

(** X6. [setAll] then [get]: while the entry has not expired, [get] returns
    for a key the value of the last pair of the array with that key, and
    [null] when there is none; once it has expired, [get] returns [null]
    for every key. *)
Theorem setAll_then_get (now now' : Z) (uid key : string)
    (arr : list (string * string)) (c : MemoryCache.t) :
  (MemoryCache.get now' uid key (MemoryCache.setAll now uid arr c)).1 =
    if bool_decide (now' - now ≤ CONFIG.CACHE_TTL)
    then snd <$> List.find (λ kv, bool_decide (kv.1 = key)) (rev arr)
    else None.
Proof.
  unfold MemoryCache.get, MemoryCache.setAll, MemoryCache._entry.
  rewrite lookup_insert_eq. simpl.
  case_bool_decide as Hfresh.
  - destruct (CONFIG.CACHE_TTL <? now' - now) eqn:Hlt; [apply Z.ltb_lt in Hlt; lia|].
    simpl. rewrite foldl_set_lookup, lookup_empty.
    by destruct (List.find _ _).
  - destruct (CONFIG.CACHE_TTL <? now' - now) eqn:Hlt; [done|].
    apply Z.ltb_ge in Hlt. lia.
Qed.

(** X7. [upsert] then [get].  The value comes back exactly when the user had
    an unexpired entry at the time of the [upsert] and the [get] comes no
    later than [CACHE_TTL] after it: [upsert] restarts the lifetime of an
    entry, it does not create one, and on an expired entry it removes the
    entry. *)
Theorem upsert_then_get (now now' : Z) (uid key value : string) (c : MemoryCache.t) :
  ((MemoryCache.get now' uid key (MemoryCache.upsert now uid key value c)).1 = Some value ↔
     (∃ e, c !! uid = Some e ∧ MemoryCache.fresh now e) ∧ now' - now ≤ CONFIG.CACHE_TTL) ∧
  (c !! uid = None → MemoryCache.upsert now uid key value c = c) ∧
  (∀ e, c !! uid = Some e → ¬ MemoryCache.fresh now e →
     MemoryCache.upsert now uid key value c = delete uid c).
Proof.
  split_and!.
  - unfold MemoryCache.upsert.
    destruct (MemoryCache._entry now uid c) as [[e|] c'] eqn:He.
    + apply _entry_Some in He as (Hc & Hf & ->).
      unfold MemoryCache.get, MemoryCache._entry. rewrite lookup_insert_eq. simpl.
      destruct (CONFIG.CACHE_TTL <? now' - now) eqn:Hlt; simpl.
      * apply Z.ltb_lt in Hlt. split; [done|]. intros [_ ?]. lia.
      * apply Z.ltb_ge in Hlt. rewrite lookup_insert_eq. split; [|done].
        intros _. split; [by exists e | done].
    + assert (Hnone : c' !! uid = None).
      { unfold MemoryCache._entry in He. destruct (c !! uid) as [e|] eqn:Hc.
        - destruct (CONFIG.CACHE_TTL <? now - MemoryCache.ts e); [|done].
          injection He as <-. apply lookup_delete_eq.
        - by injection He as <-. }
      unfold MemoryCache.get. rewrite (_entry_absent _ _ _ Hnone). simpl.
      split; [done|]. intros [(e & Hc & Hf) _].
      by rewrite (_entry_fresh _ _ _ _ Hc Hf) in He.
  - intros Hc. unfold MemoryCache.upsert. by rewrite (_entry_absent _ _ _ Hc).
  - intros e Hc Hf. unfold MemoryCache.upsert. by rewrite (_entry_stale _ _ _ _ Hc Hf).
Qed.

Lemma upsert_then_get_witness :
  (MemoryCache.get 1000 "7" "k" (MemoryCache.upsert 500 "7" "k" "v" (cache warm))).1
    = Some "v".
Proof.
  destruct (upsert_then_get 500 1000 "7" "k" "v" (cache warm)) as (H & _).
  apply H. split.
  - exists (MemoryCache.mkEntry ∅ 0). split; [reflexivity|].
    unfold MemoryCache.fresh, CONFIG.CACHE_TTL. simpl. lia.
  - unfold CONFIG.CACHE_TTL. lia.
Defined.

Section StoreFacts.
Import memories.

Implicit Types (db : table) (d : doc).

Lemma by_user_key_true uid k d :
  by_user_key uid k d = true ↔ userId d = uid ∧ key d = k.
Proof.
  unfold by_user_key. rewrite andb_true_iff, !bool_decide_eq_true. done.
Qed.

Lemma by_user_key_other uid k uid' k' d :
  (uid', k') ≠ (uid, k) → by_user_key uid k d = true → by_user_key uid' k' d = false.
Proof.
  intros Hne [Hu Hk]%by_user_key_true. apply not_true_iff_false.
  intros [Hu' Hk']%by_user_key_true. congruence.
Qed.

Lemma first_None uid k db :
  first uid k db = None ↔ (uid, k) ∉ (λ d, (userId d, key d)) <$> db.
Proof.
  unfold first. induction db as [|d db IH]; simpl.
  - split; [intros _; apply not_elem_of_nil | done].
  - destruct (by_user_key uid k d) eqn:Hd.
    + apply by_user_key_true in Hd as [Hu Hk]. subst uid k. split; [done|].
      intros H. exfalso. apply H, elem_of_cons. by left.
    + rewrite IH, not_elem_of_cons. split; [|by intros [_ ?]].
      intros H. split; [|done]. intros [= -> ->].
      apply not_true_iff_false in Hd. apply Hd. by apply by_user_key_true.
Qed.

Lemma patch_keys uid k v db :
  (λ d, (userId d, key d)) <$> patch uid k v db = (λ d, (userId d, key d)) <$> db.
Proof.
  induction db as [|d db IH]; csimpl; [done|].
  destruct (by_user_key uid k d); csimpl; [done | by rewrite IH].
Qed.

Lemma first_patch uid k v db d0 :
  first uid k db = Some d0 → first uid k (patch uid k v db) = Some (mkDoc uid k v).
Proof.
  unfold first. induction db as [|d db IH]; simpl; [done|].
  destruct (by_user_key uid k d) eqn:Hd; simpl.
  - intros _. apply by_user_key_true in Hd as [Hu Hk].
    unfold by_user_key. simpl. rewrite !bool_decide_eq_true_2 by done. simpl.
    by rewrite Hu, Hk.
  - rewrite Hd. apply IH.
Qed.

Lemma first_patch_other uid k v uid' k' db :
  (uid', k') ≠ (uid, k) → first uid' k' (patch uid k v db) = first uid' k' db.
Proof.
  intros Hne. unfold first. induction db as [|d db IH]; simpl; [done|].
  destruct (by_user_key uid k d) eqn:Hd; simpl.
  - rewrite (by_user_key_other _ _ _ _ _ Hne Hd).
    assert (Hd' : by_user_key uid' k' (mkDoc (userId d) (key d) v) = false).
    { apply not_true_iff_false. intros [Hu' Hk']%by_user_key_true. simpl in *.
      apply by_user_key_true in Hd as [Hu Hk]. congruence. }
    by rewrite Hd'.
  - by rewrite IH.
Qed.

Lemma first_app_None uid k db db' :
  first uid k db = None → first uid k (db ++ db') = first uid k db'.
Proof.
  unfold first. induction db as [|d db IH]; simpl; [done|].
  destruct (by_user_key uid k d); [done | apply IH].
Qed.

Lemma first_app_Some uid k db db' d :
  first uid k db = Some d → first uid k (db ++ db') = Some d.
Proof.
  unfold first. induction db as [|d0 db IH]; simpl; [done|].
  destruct (by_user_key uid k d0); [done | apply IH].
Qed.

Lemma first_snoc_other uid k v uid' k' db :
  (uid', k') ≠ (uid, k) → first uid' k' (db ++ [mkDoc uid k v]) = first uid' k' db.
Proof.
  intros Hne. destruct (first uid' k' db) as [d|] eqn:Hf.
  - by apply first_app_Some.
  - rewrite first_app_None by done. unfold first. simpl.
    assert (H : by_user_key uid' k' (mkDoc uid k v) = false).
    { apply not_true_iff_false. intros [Hu Hk]%by_user_key_true. simpl in *. congruence. }
    by rewrite H.
Qed.

Lemma delete1_sublist uid k db : sublist (delete1 uid k db) db.
Proof.
  induction db as [|d db IH]; simpl; [done|].
  destruct (by_user_key uid k d); [by apply sublist_cons | by apply sublist_skip].
Qed.

Lemma filter_sublist (f : doc → bool) db : sublist (List.filter f db) db.
Proof.
  induction db as [|d db IH]; simpl; [done|].
  destruct (f d); [by apply sublist_skip | by apply sublist_cons].
Qed.

Lemma first_delete1_other uid k uid' k' db :
  (uid', k') ≠ (uid, k) → first uid' k' (delete1 uid k db) = first uid' k' db.
Proof.
  intros Hne. unfold first. induction db as [|d db IH]; simpl; [done|].
  destruct (by_user_key uid k d) eqn:Hd; simpl.
  - by rewrite (by_user_key_other _ _ _ _ _ Hne Hd).
  - by rewrite IH.
Qed.

Lemma first_delete1 uid k db :
  unique db → first uid k (delete1 uid k db) = None.
Proof.
  unfold unique. induction db as [|d db IH]; simpl; [done|].
  intros [Hd Hnd]%NoDup_cons.
  destruct (by_user_key uid k d) eqn:Hb.
  - apply by_user_key_true in Hb as [Hu' Hk']. subst uid k. by apply first_None.
  - unfold first. simpl. rewrite Hb. by apply IH.
Qed.

End StoreFacts.

(** X8. [saveMemory] then [getMemory]: the document found has the value
    just saved, whether the key was new or not; the answer of [getMemory]
    for any other user or key is what it was. *)
Theorem saveMemory_then_getMemory (uid k v : string) (db : memories.table) :
  memories.getMemory uid k (memories.saveMemory uid k v db) = Some (memories.mkDoc uid k v) ∧
  ∀ uid' k', (uid', k') ≠ (uid, k) →
    memories.getMemory uid' k' (memories.saveMemory uid k v db) = memories.getMemory uid' k' db.
Proof.
  unfold memories.getMemory, memories.saveMemory.
  destruct (memories.first uid k db) as [d0|] eqn:Hf; split.
  - by eapply first_patch.
  - intros uid' k' Hne. by apply first_patch_other.
  - rewrite first_app_None by done. unfold memories.first. simpl.
    unfold memories.by_user_key. simpl. by rewrite !bool_decide_eq_true_2.
  - intros uid' k' Hne. by apply first_snoc_other.
Qed.

Lemma saveMemory_then_getMemory_witness :
  memories.getMemory "7" "city" (memories.saveMemory "8" "city" "Oslo"
    [memories.mkDoc "7" "city" "Rome"]) = Some (memories.mkDoc "7" "city" "Rome").
Proof.
  destruct (saveMemory_then_getMemory "8" "city" "Oslo" [memories.mkDoc "7" "city" "Rome"])
    as [_ H].
  by rewrite H.
Defined.

(** X9. The table never holds two documents for the same user and key: the
    empty table does not, and [saveMemory], [deleteMemory] and
    [deleteAllMemories] keep it so. *)
Theorem store_keeps_unique (uid k v : string) (db : memories.table) :
  unique [] ∧
  (unique db →
     unique (memories.saveMemory uid k v db) ∧
     unique (memories.deleteMemory uid k db).2 ∧
     unique (memories.deleteAllMemories uid db).2).
Proof.
  split; [constructor|]. intros Hu. unfold unique in *. split_and!.
  - unfold memories.saveMemory.
    destruct (memories.first uid k db) as [d0|] eqn:Hf.
    + by rewrite patch_keys.
    + rewrite fmap_app. simpl. apply NoDup_app. split_and!; [done | | apply NoDup_singleton].
      intros x Hx ->%list_elem_of_singleton. by apply first_None in Hf.
  - unfold memories.deleteMemory. destruct (memories.first uid k db); [|done]. simpl.
    eapply sublist_NoDup; [exact Hu|]. apply fmap_sublist, delete1_sublist.
  - simpl. eapply sublist_NoDup; [exact Hu|]. apply fmap_sublist, filter_sublist.
Qed.

Lemma store_keeps_unique_witness :
  unique [memories.mkDoc "7" "city" "Rome"] ∧
  unique (memories.saveMemory "7" "city" "Oslo" [memories.mkDoc "7" "city" "Rome"]).
Proof.
  assert (H : unique [memories.mkDoc "7" "city" "Rome"]).
  { unfold unique. simpl. apply NoDup_singleton. }
  split; [exact H|].
  by destruct (store_keeps_unique "7" "city" "Oslo" [memories.mkDoc "7" "city" "Rome"])
    as [_ Hkeep]; destruct (Hkeep H) as (? & _).
Defined.

Section StoreFacts2.
Import memories.
Implicit Types (db : table) (d : doc).

Lemma listMemories_patch uid k v uid' db :
  key <$> listMemories uid' (patch uid k v db) = key <$> listMemories uid' db.
Proof.
  unfold listMemories. induction db as [|d db IH]; [done|]. simpl.
  destruct (by_user_key uid k d) eqn:Hd; simpl.
  - unfold by_user. simpl. by destruct (bool_decide (userId d = uid')).
  - destruct (by_user uid' d); csimpl; by rewrite IH.
Qed.

End StoreFacts2.

(** X10. [deleteMemory] answers [true] exactly when the user has a document
    with that key, and otherwise leaves the table as it is.  After it,
    on a table without duplicates, [getMemory] finds nothing for that user
    and key; what it finds for any other user or key is what it was. *)
Theorem deleteMemory_then_getMemory (uid k : string) (db : memories.table) :
  ((memories.deleteMemory uid k db).1 = true ↔ is_Some (memories.getMemory uid k db)) ∧
  (memories.getMemory uid k db = None → (memories.deleteMemory uid k db).2 = db) ∧
  (unique db → memories.getMemory uid k (memories.deleteMemory uid k db).2 = None) ∧
  (∀ uid' k', (uid', k') ≠ (uid, k) →
     memories.getMemory uid' k' (memories.deleteMemory uid k db).2
       = memories.getMemory uid' k' db).
Proof.
  unfold memories.deleteMemory, memories.getMemory.
  destruct (memories.first uid k db) as [d|] eqn:Hf; simpl; split_and!.
  - split; [by eexists | done].
  - done.
  - apply first_delete1.
  - intros uid' k' Hne. by apply first_delete1_other.
  - split; [done | by intros [? ?]].
  - done.
  - done.
  - done.
Qed.

Lemma deleteMemory_then_getMemory_witness :
  unique [memories.mkDoc "7" "city" "Rome"] ∧
  memories.getMemory "7" "city"
    (memories.deleteMemory "7" "city" [memories.mkDoc "7" "city" "Rome"]).2 = None.
Proof.
  assert (H : unique [memories.mkDoc "7" "city" "Rome"]).
  { unfold unique. simpl. apply NoDup_singleton. }
  split; [exact H|].
  destruct (deleteMemory_then_getMemory "7" "city" [memories.mkDoc "7" "city" "Rome"])
    as (_ & _ & Hgone & _).
  by apply Hgone.
Defined.

(** X11. What [saveMemory] does to the lists of [listMemories]: the keys of
    the user's list stay as they are, in their order, when the key was
    there, and the new key is added at the end when it was not; the lists
    of the other users are untouched. *)
Theorem saveMemory_then_listMemories (uid k v : string) (db : memories.table) :
  memories.key <$> memories.listMemories uid (memories.saveMemory uid k v db) =
    (memories.key <$> memories.listMemories uid db) ++
    (match memories.getMemory uid k db with Some _ => [] | None => [k] end) ∧
  ∀ uid', uid' ≠ uid →
    memories.listMemories uid' (memories.saveMemory uid k v db)
      = memories.listMemories uid' db.
Proof.
  unfold memories.saveMemory, memories.getMemory.
  destruct (memories.first uid k db) as [d0|] eqn:Hf; split.
  - rewrite listMemories_patch. by rewrite app_nil_r.
  - intros uid' Hne. unfold memories.listMemories.
    clear Hf. induction db as [|d db IH]; [done|]. simpl.
    destruct (memories.by_user_key uid k d) eqn:Hd; simpl.
    + apply by_user_key_true in Hd as [Hu Hk].
      unfold memories.by_user. simpl.
      rewrite !bool_decide_eq_false_2 by congruence. done.
    + by rewrite IH.
  - unfold memories.listMemories. rewrite List.filter_app, fmap_app. simpl.
    unfold memories.by_user at 2. simpl. by rewrite bool_decide_eq_true_2.
  - intros uid' Hne. unfold memories.listMemories. rewrite List.filter_app. simpl.
    unfold memories.by_user at 2. simpl. rewrite bool_decide_eq_false_2 by done.
    apply app_nil_r.
Qed.

Lemma saveMemory_then_listMemories_witness :
  memories.listMemories "8" (memories.saveMemory "7" "city" "Oslo" []) =
    memories.listMemories "8" [].
Proof.
  destruct (saveMemory_then_listMemories "7" "city" "Oslo" []) as [_ H].
  by apply H.
Defined.

(** X12. [deleteAllMemories] answers with the number of documents of the
    user, leaves the user with none, and leaves the lists of the other
    users as they were. *)
Theorem deleteAllMemories_clears (uid : string) (db : memories.table) :
  (memories.deleteAllMemories uid db).1 = length (memories.listMemories uid db) ∧
  memories.listMemories uid (memories.deleteAllMemories uid db).2 = [] ∧
  ∀ uid', uid' ≠ uid →
    memories.listMemories uid' (memories.deleteAllMemories uid db).2
      = memories.listMemories uid' db.
Proof.
  unfold memories.deleteAllMemories, memories.listMemories. simpl. split_and!; [done | |].
  - induction db as [|d db IH]; [done|]. simpl.
    destruct (memories.by_user uid d) eqn:Hd; simpl; [done|]. by rewrite Hd.
  - intros uid' Hne. induction db as [|d db IH]; [done|]. simpl.
    destruct (memories.by_user uid d) eqn:Hd; simpl.
    + unfold memories.by_user in *. apply bool_decide_eq_true in Hd.
      rewrite bool_decide_eq_false_2 by congruence. done.
    + by rewrite IH.
Qed.

Lemma deleteAllMemories_clears_witness :
  memories.listMemories "8"
    (memories.deleteAllMemories "7"
       [memories.mkDoc "7" "city" "Rome"; memories.mkDoc "8" "city" "Oslo"]).2
  = [memories.mkDoc "8" "city" "Oslo"].
Proof.
  destruct (deleteAllMemories_clears "7"
              [memories.mkDoc "7" "city" "Rome"; memories.mkDoc "8" "city" "Oslo"])
    as (_ & _ & H).
  by rewrite H.
Defined.

(** ** Search *)

Lemma includes_prefix (sub s : string) : String.prefix sub s = true → includes sub s = true.
Proof. intros H. destruct s; simpl in *; by rewrite H. Qed.

Lemma includes_empty (s : string) : includes "" s = true.
Proof. by destruct s. Qed.

Lemma prefix_trimEnd (s : string) : String.prefix (trimEnd s) s = true.
Proof.
  induction s as [|c s IH]; simpl; [done|].
  destruct (isSpace c && String.eqb (trimEnd s) ""); simpl; [done|].
  by destruct (ascii_dec c c).
Qed.

Lemma includes_trimStart (sub s : string) :
  includes sub (trimStart s) = true → includes sub s = true.
Proof.
  induction s as [|c s IH]; simpl; [done|].
  destruct (isSpace c); [|done].
  intros H. rewrite (IH H). apply orb_true_r.
Qed.

Lemma includes_trim (s : string) : includes (trim s) s = true.
Proof. apply includes_trimStart, includes_prefix, prefix_trimEnd. Qed.

Lemma lowerChar_facts (c : ascii) :
  lowerChar (lowerChar c) = lowerChar c ∧ isSpace (lowerChar c) = isSpace c.
Proof. destruct c as [[] [] [] [] [] [] [] []]; by vm_compute. Qed.

Lemma toLowerCase_idem (s : string) : toLowerCase (toLowerCase s) = toLowerCase s.
Proof.
  induction s as [|c s IH]; simpl; [done|].
  by rewrite IH, (proj1 (lowerChar_facts c)).
Qed.

Lemma toLowerCase_trimStart (s : string) :
  toLowerCase (trimStart s) = trimStart (toLowerCase s).
Proof.
  induction s as [|c s IH]; simpl; [done|].
  rewrite (proj2 (lowerChar_facts c)). by destruct (isSpace c).
Qed.

Lemma toLowerCase_empty (s : string) :
  String.eqb (toLowerCase s) "" = String.eqb s "".
Proof. by destruct s. Qed.

Lemma toLowerCase_trimEnd (s : string) :
  toLowerCase (trimEnd s) = trimEnd (toLowerCase s).
Proof.
  induction s as [|c s IH]; simpl; [done|].
  rewrite (proj2 (lowerChar_facts c)), <- IH, toLowerCase_empty.
  by destruct (isSpace c && String.eqb (trimEnd s) "").
Qed.

Lemma dropSeparators_trimStart (s : string) :
  memories.dropSeparators (trimStart s) = memories.dropSeparators s.
Proof.
  induction s as [|c s IH]; simpl; [done|].
  destruct (isSpace c) eqn:Hc; simpl; [done|]. by rewrite Hc.
Qed.

Lemma dropSeparators_trimEnd (s : string) :
  memories.dropSeparators (trimEnd s) = memories.dropSeparators s.
Proof.
  induction s as [|c s IH]; simpl; [done|].
  destruct (isSpace c) eqn:Hc; simpl.
  - destruct (String.eqb (trimEnd s) "") eqn:He; simpl.
    + apply String.eqb_eq in He. by rewrite <- IH, He.
    + rewrite Hc. simpl. exact IH.
  - rewrite ?Hc. simpl. by rewrite IH.
Qed.

(** Trimming and a first lower-casing do not show in the normal form. *)
Lemma normalizeText_searchTerm (query : string) :
  memories.normalizeText (trim (toLowerCase query)) = memories.normalizeText query.
Proof.
  unfold memories.normalizeText, trim.
  by rewrite toLowerCase_trimEnd, toLowerCase_trimStart, toLowerCase_idem,
    dropSeparators_trimEnd, dropSeparators_trimStart.
Qed.

Lemma includes_refl (s : string) : includes s s = true.
Proof. apply includes_prefix. induction s as [|c s IH]; simpl; [done|]. by destruct (ascii_dec c c). Qed.

Lemma matches_key (query : string) (m : memories.doc) :
  memories.normalizeText query = memories.normalizeText (memories.key m) →
  memories.matches query m = true.
Proof.
  intros H. unfold memories.matches. cbv zeta.
  rewrite normalizeText_searchTerm, H, includes_refl.
  by rewrite !orb_true_r.
Qed.

Lemma matches_value (query : string) (m : memories.doc) :
  memories.normalizeText query = memories.normalizeText (memories.value m) →
  memories.matches query m = true.
Proof.
  intros H. unfold memories.matches. cbv zeta.
  rewrite normalizeText_searchTerm, H, includes_refl.
  by rewrite !orb_true_r.
Qed.

Lemma matches_blank (query : string) (m : memories.doc) :
  trim (toLowerCase query) = "" → memories.matches query m = true.
Proof.
  intros H. unfold memories.matches. cbv zeta. rewrite H.
  rewrite (includes_empty (toLowerCase (memories.value m))).
  by rewrite !orb_true_r.
Qed.

(** X13. [searchMemories] answers with documents of the user only, in the
    order of [listMemories].  A document of the user is found by every
    query that is its key, or its value, up to the case of the letters and
    to white space, underscores and hyphens (so [GitHub token] finds the
    key [github_token]); and a query that is blank once trimmed finds
    every document of the user. *)
Theorem searchMemories_finds (uid query : string) (db : memories.table) :
  sublist (memories.searchMemories uid query db) (memories.listMemories uid db) ∧
  (∀ d, d ∈ memories.searchMemories uid query db → memories.userId d = uid) ∧
  (∀ d, d ∈ memories.listMemories uid db →
     memories.normalizeText query = memories.normalizeText (memories.key d) ∨
     memories.normalizeText query = memories.normalizeText (memories.value d) →
     d ∈ memories.searchMemories uid query db) ∧
  (trim (toLowerCase query) = "" →
     memories.searchMemories uid query db = memories.listMemories uid db).
Proof.
  unfold memories.searchMemories. split_and!.
  - apply filter_sublist.
  - intros d Hd. apply list_elem_of_In, List.filter_In in Hd as [Hd _].
    unfold memories.listMemories in Hd. apply List.filter_In in Hd as [_ Hd].
    by apply bool_decide_eq_true in Hd.
  - intros d Hd Hq. apply list_elem_of_In in Hd.
    apply list_elem_of_In, List.filter_In. split; [done|].
    destruct Hq; [by apply matches_key | by apply matches_value].
  - intros Hblank. induction (memories.listMemories uid db) as [|d l IH]; [done|].
    simpl. by rewrite (matches_blank _ _ Hblank), IH.
Qed.

Lemma searchMemories_finds_witness :
  memories.mkDoc "7" "github_token" "ghp 1" ∈
    memories.searchMemories "7" "GitHub token" [memories.mkDoc "7" "github_token" "ghp 1"].
Proof.
  destruct (searchMemories_finds "7" "GitHub token"
              [memories.mkDoc "7" "github_token" "ghp 1"]) as (_ & _ & H & _).
  apply (H (memories.mkDoc "7" "github_token" "ghp 1")).
  - apply list_elem_of_In. simpl. by left.
  - by left.
Defined.

(** X14. [executeTool] never throws: whatever the tool name, the arguments
    and the failures of the store, it returns a text, which is not empty.
    It sends nothing to the provider and leaves the key pool alone. *)
Theorem executeTool_never_throws (env : Env) (name : string) (args : Args.t)
    (userId : Z) (w : World) :
  ∃ text w',
    executeTool env name args userId w = (Ok text, w') ∧
    text ≠ "" ∧
    apiKeys w' = apiKeys w ∧
    requests (trace w') = requests (trace w).
Proof.
  destruct (safe_executeTool env name args userId w) as ([Hk Hr] & text & Ht & Hne).
  destruct (executeTool env name args userId w) as [r w'] eqn:He. simpl in *. subst r.
  by exists text, w'.
Qed.

Section ToolFacts2.

Variable env : Env.

Lemma isDuplicate_snd (now : Z) (uid key value : string) (c : MemoryCache.t) :
  (MemoryCache.isDuplicate now uid key value c).2 = (MemoryCache._entry now uid c).2.
Proof. unfold MemoryCache.isDuplicate. by destruct (MemoryCache._entry now uid c). Qed.

Lemma _entry_snd_lookup (now : Z) (uid : string) (c : MemoryCache.t) e :
  (MemoryCache._entry now uid c).2 !! uid = Some e → c !! uid = Some e ∧ MemoryCache.fresh now e.
Proof.
  unfold MemoryCache._entry. destruct (c !! uid) as [e0|] eqn:Hc; [|simpl; by rewrite Hc].
  destruct (CONFIG.CACHE_TTL <? now - MemoryCache.ts e0) eqn:Hlt; simpl.
  - by rewrite lookup_delete_eq.
  - rewrite Hc. intros [= ->]. apply Z.ltb_ge in Hlt. by split.
Qed.

Lemma get_after_remove (now now' : Z) (uid key : string) (c : MemoryCache.t) :
  (MemoryCache.get now' uid key (MemoryCache.remove now uid key c)).1 = None.
Proof.
  unfold MemoryCache.get.
  destruct (MemoryCache._entry now' uid (MemoryCache.remove now uid key c))
    as [[e|] c'] eqn:He; [|done].
  apply _entry_Some in He as (Hc & _ & _). simpl.
  unfold MemoryCache.remove in Hc.
  destruct (MemoryCache._entry now uid c) as [[e0|] c0] eqn:He0.
  - rewrite lookup_insert_eq in Hc. injection Hc as <-. simpl. apply lookup_delete_eq.
  - exfalso. unfold MemoryCache._entry in He0. destruct (c !! uid) as [e1|] eqn:Hc1.
    + destruct (CONFIG.CACHE_TTL <? now - MemoryCache.ts e1); [|done].
      injection He0 as <-. by rewrite lookup_delete_eq in Hc.
    + injection He0 as <-. by rewrite Hc in Hc1.
Qed.

(** [get_memory] with a key that is not empty. *)
Lemma get_memory_keyed (uid key : string) (args : Args.t) :
  Args.key args = Some key → key ≠ "" →
  get_memory env uid args =
    (cached ← cache_get uid (normalizeKey key);
     match cached with
     | Some (String c' v) => mret (normalizeKey key +:+ ": " +:+ String c' v)
     | _ =>
         mem ← convex env (getMemory uid (normalizeKey key))
                 (λ d, (memories.getMemory uid (normalizeKey key) d, d));
         match mem with
         | Some mem =>
             _ ← cache_upsert uid (normalizeKey key) (memories.value mem);
             mret (line mem)
         | None => mret ("No memory found: " +:+ normalizeKey key)
         end
     end).
Proof. intros Hkey Hne. unfold get_memory. rewrite Hkey. by destruct key. Qed.

End ToolFacts2.

(** X15. A [save_memory] whose write to the store fails.  The failure comes
    back as the text of the result; the table is as it was, and the cache
    does not take the pair for saved: the same save would be tried
    again. *)
Theorem save_memory_store_failure (env : Env) (userId : Z) (args : Args.t)
    (key k v : string) (e : Err) (w : World) :
  let uid := String_ userId in
  Args.key args = Some key → Args.value args = Some v →
  validateKey key = Valid k →
  emptyValue (Some v) = false →
  (MemoryCache.isDuplicate (now w) uid k v (cache w)).1 = false →
  convexError env (length (trace w)) = Some e →
  ∃ w',
    executeTool env "save_memory" args userId w =
      (Ok ("Error executing save_memory: " +:+ message e), w') ∧
    db w' = db w ∧
    trace w' = trace w ++ [EvConvex (saveMemory uid k v)] ∧
    ∀ now', (MemoryCache.isDuplicate now' uid k v (cache w')).1 = false.
Proof.
  intros uid Hkey Hval Hvalid Hne Hdup Herr.
  destruct (MemoryCache.isDuplicate (now w) uid k v (cache w)) as [dup c1] eqn:Hd.
  simpl in Hdup. subst dup.
  eexists. split_and!.
  - unfold executeTool, try_catch. simpl. fold uid.
    unfold save_memory, validateKey_, cache_isDuplicate, mbind, M_bind, mret, M_ret.
    rewrite Hkey, Hval, Hvalid, Hne. simpl. rewrite Hd.
    rewrite convex_run. simpl. rewrite Herr. reflexivity.
  - done.
  - done.
  - intros now'. simpl. apply isDuplicate_false. intros e' Hc' Hf' Hm.
    assert (Hc1 : c1 = (MemoryCache._entry (now w) uid (cache w)).2).
    { rewrite <- isDuplicate_snd with (key := k) (value := v). by rewrite Hd. }
    rewrite Hc1 in Hc'. apply _entry_snd_lookup in Hc' as [Hc Hf].
    assert (Htrue : (MemoryCache.isDuplicate (now w) uid k v (cache w)).1 = true).
    { apply isDuplicate_true. by exists e'. }
    by rewrite Hd in Htrue.
Qed.

Lemma save_memory_store_failure_witness :
  ∃ w',
    executeTool (mkEnv None (λ _ _, Throw rateLimited) (λ _, Some (Error "Server Error"))
                   timely (λ _, 1%Q))
      "save_memory" (Args.mk (Some "city") (Some "Rome") None None) 7 start =
      (Ok "Error executing save_memory: Server Error", w') ∧
    db w' = [].
Proof.
  destruct (save_memory_store_failure
              (mkEnv None (λ _ _, Throw rateLimited) (λ _, Some (Error "Server Error"))
                 timely (λ _, 1%Q))
              7 (Args.mk (Some "city") (Some "Rome") None None) "city" "city" "Rome"
              (Error "Server Error") start)
    as (w' & Hrun & Hdb & _); try reflexivity.
  by exists w'.
Defined.

(** X16. [delete_memory] then [get_memory] for a key that the user has in the
    table (a table without duplicates), both calls to the store going
    through: the deletion is reported, and the read that follows finds
    nothing, neither in the cache nor in the store. *)
Theorem delete_then_get (env : Env) (userId : Z) (key : string) (d : memories.doc)
    (w : World) :
  let uid := String_ userId in
  let k := normalizeKey key in
  let args := Args.mk (Some key) None None None in
  key ≠ "" →
  unique (db w) →
  memories.getMemory uid k (db w) = Some d →
  convexError env (length (trace w)) = None →
  convexError env (S (length (trace w))) = None →
  ∃ w1 w2,
    executeTool env "delete_memory" args userId w = (Ok ("Deleted: " +:+ k), w1) ∧
    executeTool env "get_memory" args userId w1 = (Ok ("No memory found: " +:+ k), w2) ∧
    trace w2 = trace w ++ [EvConvex (deleteMemory uid k); EvConvex (getMemory uid k)] ∧
    memories.getMemory uid k (db w2) = None.
Proof.
  intros uid k args Hkey Huniq Hd Hok1 Hok2.
  pose proof (first_delete1 uid k (db w) Huniq) as Hgone.
  assert (Hdm : memories.deleteMemory uid k (db w) = (true, memories.delete1 uid k (db w))).
  { unfold memories.deleteMemory. unfold memories.getMemory in Hd. by rewrite Hd. }
  set (db1 := memories.delete1 uid k (db w)) in *.
  set (w0 := after env (EvConvex (deleteMemory uid k)) w).
  set (w1 := set_cache (MemoryCache.remove (now w0) uid k (cache w0)) (set_db db1 w0)).
  assert (Hrun1 : executeTool env "delete_memory" args userId w = (Ok ("Deleted: " +:+ k), w1)).
  { unfold executeTool, try_catch. simpl. fold uid.
    unfold delete_memory, normalizeKey_, cache_remove, mbind, M_bind, mret, M_ret. simpl.
    fold k. rewrite convex_run. rewrite Hok1, Hdm. simpl. reflexivity. }
  exists w1.
  destruct (MemoryCache.get (now w1) uid k (cache w1)) as [cached c2] eqn:Hget.
  assert (Hcached : cached = None).
  { pose proof (get_after_remove (now w0) (now w1) uid k (cache w0)) as H.
    change (cache w1) with (MemoryCache.remove (now w0) uid k (cache w0)) in Hget.
    by rewrite Hget in H. }
  subst cached.
  eexists. split_and!; [exact Hrun1 | | |].
  - unfold executeTool, try_catch. simpl. fold uid.
    rewrite (get_memory_keyed env uid key args eq_refl Hkey). fold k.
    unfold cache_get, mbind, M_bind, mret, M_ret. rewrite Hget.
    rewrite convex_run.
    change (length (trace (set_cache c2 w1))) with (length (trace w ++ [EvConvex (deleteMemory uid k)])).
    rewrite length_app. simpl. replace (length (trace w) + 1)%nat with (S (length (trace w))) by lia.
    rewrite Hok2. simpl. unfold memories.getMemory.
    rewrite Hgone. reflexivity.
  - simpl. by rewrite <- app_assoc.
  - simpl. exact Hgone.
Qed.

Lemma delete_then_get_witness :
  ∃ w1 w2,
    executeTool (calm listCall) "delete_memory" (Args.mk (Some "City") None None None) 7
      (set_db [memories.mkDoc "7" "city" "Rome"] start) = (Ok "Deleted: city", w1) ∧
    executeTool (calm listCall) "get_memory" (Args.mk (Some "City") None None None) 7 w1
      = (Ok "No memory found: city", w2).
Proof.
  destruct (delete_then_get (calm listCall) 7 "City" (memories.mkDoc "7" "city" "Rome")
              (set_db [memories.mkDoc "7" "city" "Rome"] start))
    as (w1 & w2 & H1 & H2 & _); try reflexivity; try done.
  - unfold unique. simpl. apply NoDup_singleton.
  - by exists w1, w2.
Defined.

Section WarmFacts.
Import memories.

Lemma find_app_bool {A : Type} (f : A → bool) (l1 l2 : list A) :
  List.find f (l1 ++ l2) =
    match List.find f l1 with Some x => Some x | None => List.find f l2 end.
Proof. induction l1 as [|a l1 IH]; simpl; [done|]. by destruct (f a). Qed.

Lemma find_Some_bool {A : Type} (f : A → bool) (l : list A) x :
  List.find f l = Some x → x ∈ l ∧ f x = true.
Proof.
  induction l as [|a l IH]; simpl; [done|].
  destruct (f a) eqn:Ha.
  - intros [= ->]. split; [apply elem_of_cons; by left | done].
  - intros H. destruct (IH H). split; [apply elem_of_cons; by right | done].
Qed.

(** Without two pairs for a key, the last pair with the key is the first. *)
Lemma find_rev_NoDup (arr : list (string * string)) (k : string) :
  NoDup (arr.*1) →
  List.find (λ kv, bool_decide (kv.1 = k)) (rev arr) =
  List.find (λ kv, bool_decide (kv.1 = k)) arr.
Proof.
  induction arr as [|[k0 v0] arr IH]; [done|]. csimpl.
  intros [Hk0 Hnd]%NoDup_cons. rewrite find_app_bool, (IH Hnd). simpl.
  destruct (List.find (λ kv, bool_decide (kv.1 = k)) arr) as [[k1 v1]|] eqn:Hf; [|done].
  apply find_Some_bool in Hf as [Hin Hk1]. apply bool_decide_eq_true in Hk1.
  simpl in Hk1. subst k1.
  rewrite bool_decide_eq_false_2; [done|].
  intros ->. apply Hk0. apply list_elem_of_fmap. by exists (k, v1).
Qed.

Lemma find_pairs (uid k : string) (db : table) :
  List.find (λ kv : string * string, bool_decide (kv.1 = k))
    ((λ d, (key d, value d)) <$> listMemories uid db) =
  (λ d, (key d, value d)) <$> first uid k db.
Proof.
  unfold listMemories, first. induction db as [|d db IH]; [done|]. simpl.
  unfold by_user_key. unfold by_user at 1.
  destruct (bool_decide (userId d = uid)); simpl; [|done].
  by destruct (bool_decide (key d = k)).
Qed.

Lemma unique_user_keys (uid : string) (db : table) :
  unique db → NoDup (((λ d, (key d, value d)) <$> listMemories uid db).*1).
Proof.
  unfold unique, listMemories. rewrite <- list_fmap_compose.
  induction db as [|d db IH]; [constructor|]. csimpl.
  intros [Hd Hnd]%NoDup_cons.
  destruct (by_user uid d) eqn:Hu; [|by apply IH]. csimpl.
  apply NoDup_cons. split; [|by apply IH].
  intros Hin. apply Hd. apply list_elem_of_fmap in Hin as (d' & Hk & Hd').
  apply list_elem_of_fmap. exists d'.
  apply list_elem_of_In, List.filter_In in Hd' as [Hd' Hu'].
  unfold by_user in *. apply bool_decide_eq_true in Hu, Hu'. simpl in Hk.
  split; [congruence | by apply list_elem_of_In].
Qed.

End WarmFacts.

(** X17. [get_memory] without a key (or with an empty one), when the read of
    the store goes through: the user's documents are listed, one per line,
    in the order of the table, and the cache is left in agreement with the
    table (a table without duplicates): for every key, [cache.get] right
    after gives the value that [getMemory] finds, or [null] when it finds
    none. *)
Theorem get_memory_list_warms_cache (env : Env) (userId : Z) (args : Args.t) (w : World) :
  let uid := String_ userId in
  (Args.key args = None ∨ Args.key args = Some "") →
  convexError env (length (trace w)) = None →
  unique (db w) →
  ∃ w',
    executeTool env "get_memory" args userId w =
      (Ok (match memories.listMemories uid (db w) with
           | [] => "No memories saved yet."
           | all => join nl (line <$> all)
           end), w') ∧
    db w' = db w ∧
    trace w' = trace w ++ [EvConvex (listMemories uid)] ∧
    ∀ k, (MemoryCache.get (now w') uid k (cache w')).1
         = memories.value <$> memories.getMemory uid k (db w').
Proof.
  intros uid Hkey Hok Huniq.
  assert (Hrun : get_memory env uid args w =
    (all ← convex env (listMemories uid) (λ d, (memories.listMemories uid d, d));
     _ ← cache_setAll uid all;
     match all with
     | [] => mret "No memories saved yet."
     | _ => mret (join nl (line <$> all))
     end) w).
  { unfold get_memory. by destruct Hkey as [-> | ->]. }
  set (w0 := after env (EvConvex (listMemories uid)) w).
  exists (set_cache
            (MemoryCache.setAll (now w0) uid
               ((λ d, (memories.key d, memories.value d)) <$> memories.listMemories uid (db w))
               (cache w))
            (set_db (db w) w0)).
  split_and!.
  - unfold executeTool, try_catch. simpl. fold uid. rewrite Hrun.
    unfold mbind, M_bind. rewrite convex_run, Hok. simpl.
    by destruct (memories.listMemories uid (db w)).
  - done.
  - done.
  - intros k. simpl.
    unfold MemoryCache.get, MemoryCache.setAll, MemoryCache._entry.
    rewrite lookup_insert_eq. simpl. rewrite Z.sub_diag. simpl.
    rewrite foldl_set_lookup, lookup_empty, find_rev_NoDup by (by apply unique_user_keys).
    rewrite find_pairs. unfold memories.getMemory.
    by destruct (memories.first uid k (db w)).
Qed.

Lemma get_memory_list_warms_cache_witness :
  ∃ w',
    executeTool (calm listCall) "get_memory" (Args.mk None None None None) 7
      (set_db [memories.mkDoc "7" "city" "Rome"] start) = (Ok "city: Rome", w') ∧
    (MemoryCache.get (now w') "7" "city" (cache w')).1 = Some "Rome".
Proof.
  destruct (get_memory_list_warms_cache (calm listCall) 7 (Args.mk None None None None)
              (set_db [memories.mkDoc "7" "city" "Rome"] start))
    as (w' & Hrun & Hdb & _ & Hget); [by left | reflexivity | |].
  - unfold unique. simpl. apply NoDup_singleton.
  - exists w'. split; [exact Hrun|]. rewrite Hget, Hdb. reflexivity.
Defined.

(** ** History *)

Lemma shiftWhile_drop (fuel : nat) : ∀ h : list Turn.t,
  (length h - CONFIG.MAX_HISTORY ≤ fuel)%nat →
  shiftWhile fuel h = drop (length h - CONFIG.MAX_HISTORY) h.
Proof.
  unfold CONFIG.MAX_HISTORY.
  induction fuel as [|fuel IH]; intros h Hf; cbn [shiftWhile].
  - by replace (length h - 20)%nat with 0%nat by lia.
  - unfold CONFIG.MAX_HISTORY. destruct (20 <? length h)%nat eqn:Hlen.
    + apply Nat.ltb_lt in Hlen. destruct h as [|t h]; [simpl in Hlen; lia|].
      cbn [tail length] in *. rewrite IH by lia.
      replace (S (length h) - 20)%nat with (S (length h - 20)) by lia.
      done.
    + apply Nat.ltb_ge in Hlen.
      by replace (length h - 20)%nat with 0%nat by lia.
Qed.

(** X18. [pushHistory] keeps a window of the last [MAX_HISTORY = 20] turns:
    the history of the user becomes the old one followed by the new turn,
    stamped with the current time, cut down from the front to its last 20
    turns.  The histories of the other users and the rest of the state are
    untouched. *)
Theorem pushHistory_window (uid : Z) (role : Role) (content : string) (w : World) :
  let h := default [] (conversations w !! uid) in
  let h1 := h ++ [Turn.mk role content (now w)] in
  ∃ w',
    pushHistory uid role content w = (Ok (), w') ∧
    conversations w' !! uid = Some (drop (length h1 - 20) h1) ∧
    (length (drop (length h1 - 20) h1) ≤ 20)%nat ∧
    (∀ uid', uid' ≠ uid → conversations w' !! uid' = conversations w !! uid') ∧
    now w' = now w ∧ apiKeys w' = apiKeys w ∧ cache w' = cache w ∧
    db w' = db w ∧ trace w' = trace w.
Proof.
  intros h h1.
  assert (Hs : shiftWhile (length h1) h1 = drop (length h1 - 20) h1).
  { apply shiftWhile_drop. unfold CONFIG.MAX_HISTORY. lia. }
  assert (Hlen : (length (drop (length h1 - 20) h1) ≤ 20)%nat).
  { rewrite length_drop. lia. }
  unfold pushHistory, mbind, M_bind, getHistory, modify.
  subst h h1. destruct (conversations w !! uid) as [h|] eqn:Hc; simpl in *.
  - eexists. split_and!; try done.
    + simpl. rewrite lookup_insert_eq. by rewrite Hs.
    + intros uid' Hne. simpl. by rewrite lookup_insert_ne.
  - eexists. split_and!; try done.
    + simpl. by rewrite lookup_insert_eq.
    + intros uid' Hne. simpl. by rewrite !lookup_insert_ne.
Qed.

Lemma pushHistory_window_witness :
  ∃ w', pushHistory 7 user "hello" start = (Ok (), w') ∧
        conversations w' !! 8 = conversations start !! 8.
Proof.
  destruct (pushHistory_window 7 user "hello" start) as (w' & Hrun & _ & _ & Hother & _).
  exists w'. split; [exact Hrun|]. by apply Hother.
Defined.

Section BudgetFacts.

Variable env : Env.
Variables (messages : list Msg.t) (tools : option ToolSchema).


Lemma pick_none (remaining' : nat) (lastErr : option Err) (w : World) :
  APIKeyManager.pick (now w) (apiKeys w) = None →
  (groqChat_loop env (S remaining') lastErr messages tools w).2 = w.
Proof.
  intros Hp. cbn [groqChat_loop]. unfold mbind, M_bind at 1. unfold pick_ at 1.
  by rewrite Hp.
Qed.



End BudgetFacts.





Section RefusedFacts.

Variable env : Env.
Variable err : Err.
Hypothesis Hllm : ∀ n req, llm env n req = Throw err.
Variables (messages : list Msg.t) (tools : option ToolSchema).



End RefusedFacts.



(** X21. The tool calls of one reply are answered one by one: [runToolCalls]
    never throws, and it appends to [messages] exactly one [tool] message
    for each call, in the order of the calls and with the [tool_call_id] of
    the call; the same texts are appended to [toolResults].  A call whose
    arguments are not valid JSON is answered with the fixed error text.
    No text is empty, and the provider and the key pool are left alone. *)
Theorem runToolCalls_answers_each (env : Env) (userId : Z) (tcs : list ToolCall.t)
    (messages : list Msg.t) (toolResults : list string) (w : World) :
  ∃ contents w',
    runToolCalls env userId tcs messages toolResults w =
      (Ok (messages ++
             zip_with (λ tc c, Msg.mk tool (Some c) [] (Some (ToolCall.id tc))) tcs contents,
           toolResults ++ contents), w') ∧
    length contents = length tcs ∧
    Forall (λ c, c ≠ "") contents ∧
    (∀ i tc, tcs !! i = Some tc → ToolCall.arguments tc = None →
       contents !! i = Some "Error: invalid arguments format") ∧
    apiKeys w' = apiKeys w ∧
    requests (trace w') = requests (trace w).
Proof.
  revert messages toolResults w.
  induction tcs as [|tc tcs IH]; intros messages toolResults w.
  - exists [], w. simpl. rewrite !app_nil_r. split_and!; try done.
  - cbn [runToolCalls]. destruct (ToolCall.arguments tc) as [args|] eqn:Hargs.
    + unfold mbind, M_bind, try_catch.
      destruct (safe_executeTool env (ToolCall.name tc) args userId w)
        as ([Hk Hr] & content & Hc & Hne).
      destruct (executeTool env (ToolCall.name tc) args userId w) as [r w1].
      simpl in Hc, Hk, Hr. subst r.
      destruct (IH (messages ++ [Msg.mk tool (Some content) [] (Some (ToolCall.id tc))])
                   (toolResults ++ [content]) w1)
        as (contents & w' & Hrun & Hlen & Hall & Hbad & Hk' & Hr').
      exists (content :: contents), w'. split_and!.
      * rewrite Hrun. simpl. by rewrite <- !app_assoc.
      * simpl. by rewrite Hlen.
      * by constructor.
      * intros [|i] tc' Htc' Hnone; simpl in *; [congruence | by eapply Hbad].
      * congruence.
      * congruence.
    + destruct (IH (messages ++ [Msg.mk tool (Some "Error: invalid arguments format") []
                                   (Some (ToolCall.id tc))])
                   (toolResults ++ ["Error: invalid arguments format"]) w)
        as (contents & w' & Hrun & Hlen & Hall & Hbad & Hk' & Hr').
      exists ("Error: invalid arguments format" :: contents), w'. split_and!.
      * rewrite Hrun. simpl. by rewrite <- !app_assoc.
      * simpl. by rewrite Hlen.
      * by constructor.
      * intros [|i] tc' Htc' Hnone; simpl in *; [done | by eapply Hbad].
      * done.
      * done.
Qed.

Lemma runToolCalls_answers_each_witness :
  ∃ w', runToolCalls (calm listCall) 7 [ToolCall.mk "call_9" "save_memory" None] [] [] start
        = (Ok ([Msg.mk tool (Some "Error: invalid arguments format") [] (Some "call_9")],
               ["Error: invalid arguments format"]), w').
Proof.
  destruct (runToolCalls_answers_each (calm listCall) 7
              [ToolCall.mk "call_9" "save_memory" None] [] [] start)
    as (contents & w' & Hrun & Hlen & _ & Hbad & _).
  specialize (Hbad 0%nat _ eq_refl eq_refl).
  destruct contents as [|c [|c' contents]]; simpl in *; try done.
  injection Hbad as ->. by exists w'.
Defined.

(** ** The failure path of [chat] *)

Section Unavailable.

Variable env : Env.
Variable stripMarkdown : string → string.
Variable err : Err.
Hypothesis Hllm : ∀ n req, llm env n req = Throw err.
Hypothesis Hretry : statusIs err 429 || statusGe err 500 = true.




End Unavailable.



(** ** The number of requests of [chat] *)







Section ChatBudget.

Variable env : Env.
Variable stripMarkdown : string → string.




End ChatBudget.


Lemma append_cons (c : ascii) (s1 s2 : string) : String c s1 +:+ s2 = String c (s1 +:+ s2).
Proof. reflexivity. Qed.

Lemma append_nil_r (s : string) : s +:+ "" = s.
Proof. induction s as [|c s IH]; [done|]. by rewrite append_cons, IH. Qed.

Lemma append_assoc (s1 s2 s3 : string) : (s1 +:+ s2) +:+ s3 = s1 +:+ (s2 +:+ s3).
Proof. induction s1 as [|c s1 IH]; [done|]. by rewrite !append_cons, IH. Qed.

Lemma length_append (s1 s2 : string) :
  String.length (s1 +:+ s2) = (String.length s1 + String.length s2)%nat.
Proof. induction s1 as [|c s1 IH]; [done|]. rewrite append_cons. simpl. by rewrite IH. Qed.

Lemma eqb_empty (s : string) : String.eqb s "" = true ↔ s = "".
Proof. apply String.eqb_eq. Qed.

Lemma dropTerminators_append (s1 s2 : string) :
  dropTerminators (s1 +:+ s2) = dropTerminators s1 +:+ dropTerminators s2.
Proof.
  induction s1 as [|c s1 IH]; [done|]. rewrite append_cons. simpl.
  destruct (isLineTerminator c); [done|]. by rewrite append_cons, IH.
Qed.

Lemma matchParts_spec (limit : nat) (s : string) : ∀ cur,
  (1 ≤ limit)%nat →
  (String.length cur ≤ limit)%nat → dropTerminators cur = cur →
  String.concat "" (matchParts limit cur s) = cur +:+ dropTerminators s ∧
  Forall (isPart limit) (matchParts limit cur s).
Proof.
  induction s as [|c s IH]; intros cur Hlim Hlen Hcur; simpl.
  - destruct (String.eqb cur "") eqn:He.
    + apply eqb_empty in He as ->. by split.
    + apply String.eqb_neq in He. simpl. rewrite append_nil_r. split; [done|].
      by repeat constructor.
  - destruct (isLineTerminator c) eqn:Hc.
    + destruct (IH "" Hlim ltac:(simpl; lia) eq_refl) as [IH1 IH2].
      destruct (String.eqb cur "") eqn:He.
      * apply eqb_empty in He as ->. by split.
      * apply String.eqb_neq in He. split; [|by repeat constructor].
        destruct (matchParts limit "" s) as [|p ps] eqn:Hm.
        -- change ("" = dropTerminators s) in IH1. simpl.
           by rewrite <- IH1, append_nil_r.
        -- change (String.concat "" (cur :: p :: ps))
             with (cur +:+ "" +:+ String.concat "" (p :: ps)).
           by rewrite IH1.
    + destruct (String.length cur <? limit)%nat eqn:Hlt.
      * apply Nat.ltb_lt in Hlt.
        destruct (IH (cur +:+ String c "")) as [IH1 IH2]; [done | | |].
        { rewrite length_append. simpl. lia. }
        { rewrite dropTerminators_append, Hcur. simpl. by rewrite Hc. }
        split; [|done]. rewrite IH1, append_assoc. done.
      * apply Nat.ltb_ge in Hlt.
        destruct (IH (String c "")) as [IH1 IH2]; [done | simpl; lia | simpl; by rewrite Hc |].
        assert (Hne : cur ≠ "") by (intros ->; simpl in Hlt; lia).
        split; [|by repeat constructor].
        destruct (matchParts limit (String c "") s) as [|p ps] eqn:Hm.
        -- simpl in IH1. discriminate IH1.
        -- change (String.concat "" (cur :: p :: ps))
             with (cur +:+ "" +:+ String.concat "" (p :: ps)).
           by rewrite IH1.
Qed.

Lemma matchParts_nil (limit : nat) (s : string) : ∀ cur,
  matchParts limit cur s = [] → cur = "" ∧ dropTerminators s = "".
Proof.
  induction s as [|c s IH]; intros cur; simpl.
  - destruct (String.eqb cur "") eqn:He; [|done]. apply eqb_empty in He. by intros _.
  - destruct (isLineTerminator c).
    + destruct (String.eqb cur "") eqn:He; [|done]. apply eqb_empty in He.
      intros H. destruct (IH "" H). by split.
    + destruct (String.length cur <? limit)%nat; [|done].
      intros H. destruct (IH _ H) as [Hcur _]. by destruct cur.
Qed.

(** X24. The answer to a text message, as it is passed to [ctx.reply].  An
    answer of at most [CONFIG.MAX_MESSAGE_LENGTH = 4000] code units is sent as it
    is.  A longer one is sent in parts: no part is empty, none has more
    than 4000 code units or holds a line terminator, and the parts put
    together are the answer without its line feeds and carriage returns:
    the line breaks of a long answer are lost.  The split fails only on an
    answer made of line terminators alone. *)
Theorem replyParts_cover (response : string) :
  ((String.length response ≤ 4000)%nat → replyParts response = Some [response]) ∧
  ((4000 < String.length response)%nat →
     (∀ parts, replyParts response = Some parts →
        String.concat "" parts = dropTerminators response ∧
        Forall (λ p, p ≠ "" ∧ (String.length p ≤ 4000)%nat ∧ dropTerminators p = p) parts) ∧
     (replyParts response = None ↔ dropTerminators response = "")).
Proof.
  unfold replyParts, CONFIG.MAX_MESSAGE_LENGTH. split.
  - intros Hlen. apply Nat.ltb_ge in Hlen. by rewrite Hlen.
  - intros Hlen. apply Nat.ltb_lt in Hlen. rewrite Hlen.
    destruct (matchParts_spec 4000 response "" ltac:(lia) ltac:(simpl; lia) eq_refl)
      as [Hcat Hall].
    pose proof (matchParts_nil 4000 response "") as Hnil.
    destruct (matchParts 4000 "" response) as [|p ps].
    + split; [done|]. split; [intros _; by apply Hnil | done].
    + split.
      * intros parts [= <-]. by split.
      * split; [done|]. intros Hdrop. apply Forall_cons in Hall as [(Hp & _ & _) _].
        exfalso. simpl in Hcat. rewrite Hdrop in Hcat.
        destruct ps; simpl in Hcat; [done|]. by destruct p.
Qed.

Lemma replyParts_cover_witness : replyParts "Noted" = Some ["Noted"].
Proof.
  destruct (replyParts_cover "Noted") as [Hshort _]. apply Hshort. simpl. lia.
Defined.

(** ** The chunks of the /list command *)

Lemma concat_app (l1 l2 : list string) :
  String.concat "" (l1 ++ l2) = String.concat "" l1 +:+ String.concat "" l2.
Proof.
  induction l1 as [|x [|y l1] IH]; [done | |].
  - simpl. destruct l2; [by rewrite append_nil_r | done].
  - change (x +:+ "" +:+ String.concat "" ((y :: l1) ++ l2)
            = (x +:+ "" +:+ String.concat "" (y :: l1)) +:+ String.concat "" l2).
    rewrite IH. by rewrite !append_assoc.
Qed.

Lemma concat_cons (x : string) (l : list string) :
  String.concat "" (x :: l) = x +:+ String.concat "" l.
Proof. apply (concat_app [x] l). Qed.

Lemma splitLines_unlines (s : string) : ∀ cur,
  unlines (splitLines cur s) = cur +:+ s +:+ nl.
Proof.
  unfold unlines. induction s as [|c s IH]; intros cur; cbn [splitLines].
  - done.
  - destruct (code c =? 10)%N eqn:Hc.
    + rewrite fmap_cons, concat_cons, IH.
      apply N.eqb_eq in Hc. unfold code in Hc.
      assert (c = ascii_of_N 10) as -> by (by rewrite <- Hc, ascii_N_embedding).
      by rewrite append_assoc.
    + rewrite IH, append_assoc. done.
Qed.

Lemma chunkLines_unlines (lines : list string) : ∀ chunks chunk,
  String.concat "" ((chunkLines chunks chunk lines).1 ++ [(chunkLines chunks chunk lines).2])
    = String.concat "" (chunks ++ [chunk]) +:+ unlines lines.
Proof.
  unfold unlines. induction lines as [|line lines IH]; intros chunks chunk;
    cbn [chunkLines].
  - simpl. by rewrite append_nil_r.
  - destruct (CONFIG.MAX_MESSAGE_LENGTH <? String.length chunk + String.length line)%nat.
    + rewrite IH, fmap_cons, concat_cons, (concat_app (chunks ++ [chunk])), append_assoc.
      done.
    + rewrite IH, fmap_cons, concat_cons, !concat_app, !append_assoc. simpl.
      by rewrite !append_assoc.
Qed.

(** A chunk in the making: empty before the first line, and then not
    empty and of at most [CONFIG.MAX_MESSAGE_LENGTH + 1] code units. *)
Lemma chunkLines_sizes (lines : list string) : ∀ chunks chunk,
  Forall (λ l, (String.length l ≤ CONFIG.MAX_MESSAGE_LENGTH)%nat) lines →
  Forall (λ c, c ≠ "" ∧ (String.length c ≤ CONFIG.MAX_MESSAGE_LENGTH + 1)%nat) chunks →
  (String.length chunk ≤ CONFIG.MAX_MESSAGE_LENGTH + 1)%nat →
  (chunk = "" → chunks = []) →
  Forall (λ c, c ≠ "" ∧ (String.length c ≤ CONFIG.MAX_MESSAGE_LENGTH + 1)%nat)
    (chunkLines chunks chunk lines).1 ∧
  (String.length (chunkLines chunks chunk lines).2 ≤ CONFIG.MAX_MESSAGE_LENGTH + 1)%nat ∧
  (lines ≠ [] → (chunkLines chunks chunk lines).2 ≠ "").
Proof.
  induction lines as [|line lines IH]; intros chunks chunk Hlines Hchunks Hchunk Hfirst; simpl.
  - done.
  - apply Forall_cons in Hlines as [Hline Hlines].
    assert (Hnl : ∀ s, s +:+ nl ≠ "") by (intros s; by apply append_nonempty_r).
    destruct (CONFIG.MAX_MESSAGE_LENGTH <? String.length chunk + String.length line)%nat eqn:Hlt.
    + apply Nat.ltb_lt in Hlt.
      assert (Hne : chunk ≠ "") by (intros ->; simpl in Hlt; lia).
      destruct (IH (chunks ++ [chunk]) (line +:+ nl)) as (H1 & H2 & H3); try done.
      * apply Forall_app. split; [done|]. by apply Forall_singleton.
      * rewrite length_append. change (String.length nl) with 1%nat.
        unfold CONFIG.MAX_MESSAGE_LENGTH in *. lia.
      * intros H. by destruct (Hnl line).
      * split_and!; [done | done |]. intros _.
        destruct lines; [apply Hnl | by apply H3].
    + apply Nat.ltb_ge in Hlt.
      destruct (IH chunks (chunk +:+ line +:+ nl)) as (H1 & H2 & H3); try done.
      * rewrite !length_append. change (String.length nl) with 1%nat.
        unfold CONFIG.MAX_MESSAGE_LENGTH in *. lia.
      * intros H. exfalso. rewrite <- append_assoc in H. by destruct (Hnl (chunk +:+ line)).
      * split_and!; [done | done |]. intros _.
        destruct lines; [|by apply H3]. simpl.
        rewrite <- append_assoc. apply Hnl.
Qed.

Lemma splitLines_nonempty (s : string) : ∀ cur, splitLines cur s ≠ [].
Proof.
  induction s as [|c s IH]; intros cur; simpl; [done|].
  destruct (code c =? 10)%N; [done | apply IH].
Qed.

(** X25. The chunks in which [/list] sends a long text.  Put together they
    are the text followed by a line feed: no line is lost or reordered.
    When no line of the text is longer than [CONFIG.MAX_MESSAGE_LENGTH = 4000], no
    chunk is empty and no chunk has more than 4001 code units (one more
    than the limit, for the line feed that ends it).  When the first line
    is longer than the limit, the first chunk is empty. *)
Theorem listChunks_cover (txt : string) :
  String.concat "" (listChunks txt) = txt +:+ nl ∧
  (Forall (λ l, (String.length l ≤ 4000)%nat) (splitLines "" txt) →
     Forall (λ c, c ≠ "" ∧ (String.length c ≤ 4001)%nat) (listChunks txt)) ∧
  (∀ l ls, splitLines "" txt = l :: ls → (4000 < String.length l)%nat →
     head (listChunks txt) = Some "").
Proof.
  unfold listChunks.
  pose proof (chunkLines_unlines (splitLines "" txt) [] "") as Hcat.
  rewrite splitLines_unlines in Hcat.
  pose proof (chunkLines_sizes (splitLines "" txt) [] "") as Hsize.
  pose proof (splitLines_nonempty txt "") as Hne.
  destruct (chunkLines [] "" (splitLines "" txt)) as [chunks chunk] eqn:Hrun.
  simpl in Hcat, Hsize. split_and!.
  - destruct (String.eqb chunk "") eqn:He; [|done].
    apply eqb_empty in He as ->. rewrite concat_app in Hcat. simpl in Hcat.
    by rewrite append_nil_r in Hcat.
  - intros Hlines. destruct Hsize as (H1 & H2 & H3); try done.
    + unfold CONFIG.MAX_MESSAGE_LENGTH. simpl. lia.
    + specialize (H3 Hne). apply String.eqb_neq in H3 as Hne'. rewrite Hne'.
      apply Forall_app. split; [exact H1|]. apply Forall_singleton.
      unfold CONFIG.MAX_MESSAGE_LENGTH in H2. split; [done | lia].
  - intros l ls Hsplit Hlong. rewrite Hsplit in Hrun. simpl in Hrun.
    assert (Hlt : (CONFIG.MAX_MESSAGE_LENGTH <? String.length l)%nat = true)
      by (by apply Nat.ltb_lt).
    rewrite Hlt in Hrun. simpl in Hrun.
    assert (Hhead : ∀ lines cs c, head (chunkLines ("" :: cs) c lines).1 = Some "").
    { induction lines as [|x lines IH]; intros cs c; simpl; [done|].
      destruct (CONFIG.MAX_MESSAGE_LENGTH <? String.length c + String.length x)%nat;
        [apply (IH (cs ++ [c])) | apply IH]. }
    specialize (Hhead ls [] (l +:+ nl)). rewrite Hrun in Hhead. simpl in Hhead.
    destruct chunks as [|c0 chunks]; [done|]. simpl in Hhead.
    by destruct (String.eqb chunk "").
Qed.

Lemma listChunks_cover_witness :
  Forall (λ c, c ≠ "" ∧ (String.length c ≤ 4001)%nat) (listChunks "a").
Proof.
  destruct (listChunks_cover "a") as (_ & H & _). apply H.
  apply Forall_singleton. simpl. lia.
Defined.

(** ** RequestQueue.getStats *)

(** X26. [getStats] counts the calls of [enqueue]: in every state that the
    queue reaches, its answer for a user is the number of tasks that the
    user has submitted so far, whether they have run or not, and however
    they ended. *)
Theorem getStats_counts (q : RequestQueue.t) (uid : Z) :
  rtc RequestQueue.step RequestQueue.init q →
  RequestQueue.getStats uid q
    = length (RequestQueue.submitted uid (RequestQueue.log q)).
Proof.
  intros Hreach. destruct (Inv_reachable q Hreach) as [U Hrep].
  unfold RequestQueue.getStats.
  rewrite (RequestQueue.rep_stats _ _ Hrep), (RequestQueue.rep_submitted _ _ Hrep).
  rewrite length_fmap, length_seq. case_decide; simpl; lia.
Qed.

Lemma getStats_counts_witness :
  RequestQueue.getStats 7 (RequestQueue.enqueue 7 0 RequestQueue.init).2 = 1%nat.
Proof.
  rewrite getStats_counts; [reflexivity|].
  apply rtc_once. apply RequestQueue.step_enqueue.
Defined.

(** ** maskSensitive *)

(** X27. What [maskSensitive] shows of a value stored under a key that holds
    one of the words password, token, key, secret, credential or auth (in
    any case): at most its first three and its last three code units.  Two
    values of more than 8 code units that agree on those are shown alike,
    in 9 code units; a value of at most 8 code units is shown in full, and
    so is any value under a key without such a word. *)
Theorem maskSensitive_shows (key v1 v2 : string) :
  let sensitive := existsb (λ p, testWord p key) sensitivePatterns in
  (sensitive = true →
     (8 < String.length v1)%nat → (8 < String.length v2)%nat →
     substring 0 3 v1 = substring 0 3 v2 →
     substring (String.length v1 - 3) 3 v1 = substring (String.length v2 - 3) 3 v2 →
     maskSensitive v1 key = maskSensitive v2 key ∧
     String.length (maskSensitive v1 key) = 9%nat) ∧
  ((String.length v1 ≤ 8)%nat → maskSensitive v1 key = v1) ∧
  (sensitive = false → maskSensitive v1 key = v1).
Proof.
  intros sensitive. unfold maskSensitive. fold sensitive. split_and!.
  - intros -> H1 H2 Hhead Htail.
    apply Nat.ltb_lt in H1 as H1', H2 as H2'. rewrite H1', H2'. simpl.
    rewrite Hhead, Htail. split; [done|].
    rewrite !length_append. simpl.
    assert (Hsub : ∀ s n m, (n + m ≤ String.length s)%nat →
              String.length (substring n m s) = m).
    { induction s as [|c s IH]; intros n m Hn.
      - simpl in Hn. assert (n = 0 ∧ m = 0)%nat as [-> ->] by lia. done.
      - destruct n as [|n]; simpl.
        + destruct m as [|m]; [done|]. simpl. rewrite IH; [done | simpl in Hn; lia].
        + apply IH. simpl in Hn. lia. }
    rewrite !Hsub by lia. done.
  - intros Hlen. apply Nat.ltb_ge in Hlen. by rewrite Hlen, andb_false_r.
  - by intros ->.
Qed.

Lemma maskSensitive_shows_witness :
  maskSensitive "ghp_abc123xyz" "github_token" = "ghp...xyz" ∧
  maskSensitive "ghp_000000xyz" "github_token" = "ghp...xyz".
Proof.
  destruct (maskSensitive_shows "github_token" "ghp_abc123xyz" "ghp_000000xyz")
    as (H & _ & _).
  destruct H as [Heq _]; [reflexivity | simpl; lia | simpl; lia | reflexivity | reflexivity |].
  split; [reflexivity | by rewrite <- Heq].
Defined.







Lemma keeps_frame {A : Type} (c : M A) :
  (∀ w, cache (c w).2 = cache w ∧ db (c w).2 = db w) → keeps c.
Proof. intros H w Hc. destruct (H w) as [-> ->]. done. Qed.

Lemma keeps_ret {A : Type} (a : A) : keeps (mret a).
Proof. by apply keeps_frame. Qed.

Lemma keeps_throw {A : Type} (e : Err) : keeps (@throw A e).
Proof. by apply keeps_frame. Qed.

Lemma keeps_bind {A B : Type} (c : M A) (f : A → M B) :
  keeps c → (∀ a, keeps (f a)) → keeps (c ≫= f).
Proof.
  intros Hc Hf w Hw. unfold mbind, M_bind. specialize (Hc w Hw).
  destruct (c w) as [[a|e] w1]; simpl in *; [by apply Hf | done].
Qed.

Lemma keeps_try_catch {A : Type} (body : M A) (handler : Err → M A) :
  keeps body → (∀ e, keeps (handler e)) → keeps (try_catch body handler).
Proof.
  intros Hc Hf w Hw. unfold try_catch. specialize (Hc w Hw).
  destruct (body w) as [[a|e] w1]; simpl in *; [done | by apply Hf].
Qed.

Lemma keeps_settled {A : Type} (c : M A) : keeps c → keeps (settled c).
Proof.
  intros Hc w Hw. unfold settled. specialize (Hc w Hw). by destruct (c w).
Qed.

Section Coherence.

Variable env : Env.

Implicit Types (c : MemoryCache.t) (db : memories.table).

Lemma coherent_entry now uid c db :
  coherent c db → coherent (MemoryCache._entry now uid c).2 db.
Proof.
  intros [Hu Hc]. split; [done|]. intros uid' e k v He Hk.
  apply (Hc uid' e k v); [|done].
  destruct (decide (uid = uid')) as [<-|Hne].
  - by apply _entry_snd_lookup in He as [? _].
  - by rewrite _entry_other in He.
Qed.

Lemma keeps_cache_isDuplicate uid key value : keeps (cache_isDuplicate uid key value).
Proof.
  intros w Hw. unfold cache_isDuplicate.
  pose proof (isDuplicate_snd (now w) uid key value (cache w)) as Hs.
  destruct (MemoryCache.isDuplicate _ _ _ _ _) as [b c1]. simpl in *. subst c1.
  by apply coherent_entry.
Qed.

Lemma keeps_cache_get uid key : keeps (cache_get uid key).
Proof.
  intros w Hw. unfold cache_get, MemoryCache.get.
  pose proof (coherent_entry (now w) uid _ _ Hw) as H.
  by destruct (MemoryCache._entry _ _ _) as [e c1].
Qed.

Lemma keeps_cache_getAll uid : keeps (cache_getAll uid).
Proof.
  intros w Hw. unfold cache_getAll, MemoryCache.getAll.
  pose proof (coherent_entry (now w) uid _ _ Hw) as H.
  by destruct (MemoryCache._entry _ _ _) as [e c1].
Qed.

(** A call to the store that only reads. *)
Lemma keeps_convex_read {A : Type} (call : ConvexCall) (read : memories.table → A) :
  keeps (convex env call (λ d, (read d, d))).
Proof.
  apply keeps_frame. intros w. rewrite convex_run.
  by destruct (convexError env (length (trace w))).
Qed.

Lemma saveMemory_unique uid k v db : unique db → unique (memories.saveMemory uid k v db).
Proof.
  unfold unique, memories.saveMemory. intros Hu.
  destruct (memories.first uid k db) as [d0|] eqn:Hf.
  - by rewrite patch_keys.
  - rewrite fmap_app. simpl. apply NoDup_app. split_and!; [done | | apply NoDup_singleton].
    intros x Hx ->%list_elem_of_singleton. by apply first_None in Hf.
Qed.

Lemma getMemory_saveMemory uid k v db :
  memories.getMemory uid k (memories.saveMemory uid k v db) = Some (memories.mkDoc uid k v).
Proof.
  unfold memories.getMemory, memories.saveMemory.
  destruct (memories.first uid k db) as [d0|] eqn:Hf.
  - by eapply first_patch.
  - rewrite first_app_None by done. unfold memories.first. simpl.
    unfold memories.by_user_key. simpl. by rewrite !bool_decide_eq_true_2.
Qed.

Lemma getMemory_saveMemory_other uid k v uid' k' db :
  (uid', k') ≠ (uid, k) →
  memories.getMemory uid' k' (memories.saveMemory uid k v db) = memories.getMemory uid' k' db.
Proof.
  intros Hne. unfold memories.getMemory, memories.saveMemory.
  destruct (memories.first uid k db) as [d0|] eqn:Hf.
  - by apply first_patch_other.
  - by apply first_snoc_other.
Qed.

(** The write of a pair to the table, followed by its [upsert]. *)
Lemma coherent_save now uid k v c db :
  coherent c db →
  coherent (MemoryCache.upsert now uid k v c) (memories.saveMemory uid k v db).
Proof.
  intros [Hu Hc]. split; [by apply saveMemory_unique|].
  intros uid' e' k' v' He' Hk'.
  destruct (decide ((uid', k') = (uid, k))) as [[= -> ->]|Hne].
  - rewrite getMemory_saveMemory. simpl. f_equal.
    unfold MemoryCache.upsert in He'.
    destruct (MemoryCache._entry now uid c) as [[e|] c1] eqn:He.
    + rewrite lookup_insert_eq in He'. injection He' as <-. simpl in Hk'.
      rewrite lookup_insert_eq in Hk'. by injection Hk'.
    + exfalso. unfold MemoryCache._entry in He. destruct (c !! uid) as [e1|] eqn:Hc1.
      * destruct (CONFIG.CACHE_TTL <? now - MemoryCache.ts e1); [|done].
        injection He as <-. by rewrite lookup_delete_eq in He'.
      * injection He as <-. by rewrite He' in Hc1.
  - rewrite getMemory_saveMemory_other by done.
    unfold MemoryCache.upsert in He'.
    destruct (MemoryCache._entry now uid c) as [[e|] c1] eqn:He.
    + apply _entry_Some in He as (Hce & _ & ->).
      destruct (decide (uid = uid')) as [<-|Hu'].
      * rewrite lookup_insert_eq in He'. injection He' as <-. simpl in Hk'.
        rewrite lookup_insert_ne in Hk' by congruence. by eapply Hc.
      * rewrite lookup_insert_ne in He' by done. by eapply Hc.
    + pose proof (coherent_entry now uid c db (conj Hu Hc)) as [_ Hc1].
      rewrite He in Hc1. by eapply Hc1.
Qed.

Lemma keeps_save {A : Type} uid k v (f : M A) :
  keeps f →
  keeps (_ ← convex env (saveMemory uid k v) (λ d, ((), memories.saveMemory uid k v d));
         _ ← cache_upsert uid k v;
         f).
Proof.
  intros Hf w Hw. unfold mbind, M_bind. rewrite convex_run.
  destruct (convexError env (length (trace w))); [done|].
  unfold cache_upsert. apply Hf. simpl. by apply coherent_save.
Qed.

(** A value read from the table, put in the cache. *)
Lemma coherent_upsert_known now uid k d c db :
  memories.getMemory uid k db = Some d →
  coherent c db →
  coherent (MemoryCache.upsert now uid k (memories.value d) c) db.
Proof.
  intros Hd [Hu Hc]. split; [done|]. intros uid' e' k' v' He' Hk'.
  unfold MemoryCache.upsert in He'.
  destruct (MemoryCache._entry now uid c) as [[e|] c1] eqn:He.
  - apply _entry_Some in He as (Hce & _ & ->).
    destruct (decide (uid = uid')) as [<-|Hu'].
    + rewrite lookup_insert_eq in He'. injection He' as <-. simpl in Hk'.
      destruct (decide (k = k')) as [<-|Hk''].
      * rewrite lookup_insert_eq in Hk'. injection Hk' as <-. by rewrite Hd.
      * rewrite lookup_insert_ne in Hk' by done. by eapply Hc.
    + rewrite lookup_insert_ne in He' by done. by eapply Hc.
  - pose proof (coherent_entry now uid c db (conj Hu Hc)) as [_ Hc1].
    rewrite He in Hc1. by eapply Hc1.
Qed.

(** The deletion of a document, followed by the [remove] of its key. *)
Lemma coherent_delete now uid k c db :
  coherent c db →
  coherent (MemoryCache.remove now uid k c) (memories.delete1 uid k db).
Proof.
  intros [Hu Hc]. split.
  { unfold unique in *. eapply sublist_NoDup; [exact Hu|].
    apply fmap_sublist, delete1_sublist. }
  intros uid' e' k' v' He' Hk'.
  assert (Hne : (uid', k') ≠ (uid, k)).
  { intros [= -> ->]. unfold MemoryCache.remove in He'.
    destruct (MemoryCache._entry now uid c) as [[e|] c1] eqn:He.
    - rewrite lookup_insert_eq in He'. injection He' as <-. simpl in Hk'.
      by rewrite lookup_delete_eq in Hk'.
    - unfold MemoryCache._entry in He. destruct (c !! uid) as [e1|] eqn:Hc1.
      + destruct (CONFIG.CACHE_TTL <? now - MemoryCache.ts e1); [|done].
        injection He as <-. by rewrite lookup_delete_eq in He'.
      + injection He as <-. by rewrite He' in Hc1. }
  unfold memories.getMemory. rewrite first_delete1_other by done.
  unfold MemoryCache.remove in He'.
  destruct (MemoryCache._entry now uid c) as [[e|] c1] eqn:He.
  - apply _entry_Some in He as (Hce & _ & ->).
    destruct (decide (uid = uid')) as [<-|Hu'].
    + rewrite lookup_insert_eq in He'. injection He' as <-. simpl in Hk'.
      rewrite lookup_delete_ne in Hk' by congruence. by eapply Hc.
    + rewrite lookup_insert_ne in He' by done. by eapply Hc.
  - pose proof (coherent_entry now uid c db (conj Hu Hc)) as [_ Hc1].
    rewrite He in Hc1. by eapply Hc1.
Qed.

(** The list of the user's documents, put in the cache. *)
Lemma coherent_setAll now uid c db :
  coherent c db →
  coherent (MemoryCache.setAll now uid
              ((λ d, (memories.key d, memories.value d)) <$> memories.listMemories uid db) c)
           db.
Proof.
  intros [Hu Hc]. split; [done|]. intros uid' e' k' v' He' Hk'.
  unfold MemoryCache.setAll in He'.
  destruct (decide (uid = uid')) as [<-|Hu'].
  - rewrite lookup_insert_eq in He'. injection He' as <-. simpl in Hk'.
    rewrite foldl_set_lookup, lookup_empty, find_rev_NoDup in Hk'
      by (by apply unique_user_keys).
    rewrite find_pairs in Hk'. unfold memories.getMemory.
    by destruct (memories.first uid k' db).
  - rewrite lookup_insert_ne in He' by done. by eapply Hc.
Qed.

Lemma keeps_list {A : Type} uid (f : list memories.doc → M A) :
  (∀ all, keeps (f all)) →
  keeps (all ← convex env (listMemories uid) (λ d, (memories.listMemories uid d, d));
         _ ← cache_setAll uid all;
         f all).
Proof.
  intros Hf w Hw. unfold mbind, M_bind. rewrite convex_run.
  destruct (convexError env (length (trace w))); [done|].
  unfold cache_setAll. apply Hf. simpl. by apply coherent_setAll.
Qed.

Lemma keeps_validateKey_ key : keeps (validateKey_ key).
Proof. destruct key; [apply keeps_ret | apply keeps_throw]. Qed.

Lemma keeps_save_memory uid args : keeps (save_memory env uid args).
Proof.
  unfold save_memory. apply keeps_bind; [apply keeps_validateKey_|].
  intros [error|key]; [apply keeps_ret|].
  destruct (emptyValue (Args.value args)); [apply keeps_ret|].
  apply keeps_bind; [apply keeps_cache_isDuplicate|].
  intros [|]; [apply keeps_ret|]. apply keeps_save, keeps_ret.
Qed.

Lemma keeps_screenMemories uid ms : ∀ results toSave,
  keeps (screenMemories uid ms results toSave).
Proof.
  induction ms as [|m ms IH]; intros results toSave; simpl; [apply keeps_ret|].
  apply keeps_bind; [apply keeps_validateKey_|].
  intros [error|key]; [apply IH|].
  destruct (emptyValue (Item.value m)); [apply IH|].
  apply keeps_bind; [apply keeps_cache_isDuplicate|]. intros [|]; apply IH.
Qed.

Lemma keeps_writeMemories uid toSave : ∀ results,
  keeps (writeMemories env uid toSave results).
Proof.
  induction toSave as [|[key value] toSave IH]; intros results; simpl; [apply keeps_ret|].
  apply keeps_save, IH.
Qed.

Lemma keeps_save_memories uid args : keeps (save_memories env uid args).
Proof.
  unfold save_memories. destruct (Args.memories args) as [[|m ms]|];
    [apply keeps_ret | | apply keeps_ret].
  apply keeps_bind; [apply keeps_screenMemories|]. intros [results toSave].
  apply keeps_bind; [apply keeps_writeMemories|]. intros results'. apply keeps_ret.
Qed.

Lemma keeps_get_memory uid args : keeps (get_memory env uid args).
Proof.
  unfold get_memory.
  assert (Hlist : keeps
    (all ← convex env (listMemories uid) (λ d, (memories.listMemories uid d, d));
     _ ← cache_setAll uid all;
     match all with
     | [] => mret "No memories saved yet."
     | _ => mret (join nl (line <$> all))
     end)).
  { apply keeps_list. intros [|m all]; apply keeps_ret. }
  destruct (Args.key args) as [[|c k]|]; [done | | done].
  apply keeps_bind; [apply keeps_cache_get|]. intros cached.
  assert (Hstore : keeps
    (mem ← convex env (getMemory uid (normalizeKey (String c k)))
             (λ d, (memories.getMemory uid (normalizeKey (String c k)) d, d));
     match mem with
     | Some mem =>
         _ ← cache_upsert uid (normalizeKey (String c k)) (memories.value mem);
         mret (line mem)
     | None => mret ("No memory found: " +:+ normalizeKey (String c k))
     end)).
  { intros w Hw. unfold mbind, M_bind. rewrite convex_run.
    destruct (convexError env (length (trace w))); [done|]. simpl.
    destruct (memories.getMemory uid (normalizeKey (String c k)) (db w)) as [mem|] eqn:Hm;
      [|done].
    simpl. by apply coherent_upsert_known. }
  destruct cached as [[|c' v]|]; [done | apply keeps_ret | done].
Qed.

Lemma keeps_search_memories uid args : keeps (search_memories env uid args).
Proof.
  unfold search_memories. destruct (emptyValue (Args.query args)); [apply keeps_ret|].
  apply keeps_bind; [apply keeps_convex_read|]. intros [|m mems]; apply keeps_ret.
Qed.

Lemma keeps_delete_memory uid args : keeps (delete_memory env uid args).
Proof.
  unfold delete_memory. apply keeps_bind.
  { destruct (Args.key args); [apply keeps_ret | apply keeps_throw]. }
  intros key w Hw. unfold mbind, M_bind. rewrite convex_run.
  destruct (convexError env (length (trace w))); [done|].
  unfold memories.deleteMemory.
  destruct (memories.first uid key (db w)) as [d|] eqn:Hd; simpl; [|done].
  by apply coherent_delete.
Qed.

Lemma keeps_executeTool name args userId : keeps (executeTool env name args userId).
Proof.
  unfold executeTool. apply keeps_try_catch.
  - repeat match goal with |- keeps (if ?b then _ else _) => destruct b end.
    + apply keeps_save_memory.
    + apply keeps_save_memories.
    + apply keeps_get_memory.
    + apply keeps_search_memories.
    + apply keeps_delete_memory.
    + apply keeps_ret.
  - intros e. apply keeps_ret.
Qed.

End Coherence.

Section CoherenceChat.

Variable env : Env.
Variable stripMarkdown : string → string.
Variable SYSTEM_PROMPT : string.

Lemma groqChat_loop_frame (messages : list Msg.t) (tools : option ToolSchema)
    (remaining : nat) : ∀ lastErr w,
  cache (groqChat_loop env remaining lastErr messages tools w).2 = cache w ∧
  db (groqChat_loop env remaining lastErr messages tools w).2 = db w.
Proof.
  induction remaining as [|r IH]; intros lastErr w; [done|].
  destruct (APIKeyManager.pick (now w) (apiKeys w)) as [[k a]|] eqn:Hp.
  2:{ by rewrite (pick_none env messages tools r lastErr w Hp). }
  set (wait := APIKeyManager.waitTime (now w) k a).
  set (w1 := if num_ltb (ofZ 0) wait
             then after env (EvSleep wait) (set_apiKeys a w) else set_apiKeys a w).
  set (req := paramsOf env k messages tools).
  set (w2 := after env (EvRequest req) w1).
  assert (Hw2 : cache w2 = cache w ∧ db w2 = db w).
  { subst w2 w1. by destruct (num_ltb (ofZ 0) wait). }
  assert (Hmore : ∀ w3 e, cache w3 = cache w2 ∧ db w3 = db w2 →
            cache (groqChat_loop env r e messages tools w3).2 = cache w ∧
            db (groqChat_loop env r e messages tools w3).2 = db w).
  { intros w3 e [H1 H2]. destruct (IH e w3) as [-> ->]. destruct Hw2. split; congruence. }
  destruct (llm env (length (trace w1)) req) as [reply|err] eqn:Hllm.
  - by rewrite (groqChat_loop_answered env r lastErr messages tools w k a Hp reply Hllm).
  - rewrite (groqChat_loop_failed env r lastErr messages tools w k a Hp err Hllm).
    fold wait w1 req w2. cbv zeta.
    assert (Hrest :
      ∀ w3, cache w3 = cache w2 ∧ db w3 = db w2 →
      cache ((if statusIs err 400 then
                throw (Error "Invalid request format. Please try rephrasing.")
              else if statusGe err 500 &&
                      ((CONFIG.MAX_RETRIES - r)%nat <? CONFIG.MAX_RETRIES)%nat then
                _ ← sleep env (ofZ (CONFIG.RETRY_BASE_DELAY *
                                      Z.of_nat (CONFIG.MAX_RETRIES - r)%nat));
                groqChat_loop env r (Some err) messages tools
              else throw err) w3).2 = cache w ∧
      db ((if statusIs err 400 then
             throw (Error "Invalid request format. Please try rephrasing.")
           else if statusGe err 500 &&
                   ((CONFIG.MAX_RETRIES - r)%nat <? CONFIG.MAX_RETRIES)%nat then
             _ ← sleep env (ofZ (CONFIG.RETRY_BASE_DELAY *
                                   Z.of_nat (CONFIG.MAX_RETRIES - r)%nat));
             groqChat_loop env r (Some err) messages tools
           else throw err) w3).2 = db w).
    { intros w3 [H1 H2]. destruct Hw2. destruct (statusIs err 400).
      - simpl. split; congruence.
      - destruct (statusGe err 500 && _).
        + unfold mbind, M_bind, sleep, await. simpl. by apply Hmore.
        + simpl. split; congruence. }
    destruct (statusIs err 429); [|by apply Hrest].
    unfold mbind, M_bind at 1. unfold modify at 1.
    destruct ((CONFIG.MAX_RETRIES - r)%nat <? CONFIG.MAX_RETRIES)%nat.
    + unfold mbind, M_bind, sleep, await. simpl. by apply Hmore.
    + by apply Hrest.
Qed.

Lemma keeps_groqChat (messages : list Msg.t) (tools : option ToolSchema) :
  keeps (groqChat env messages tools).
Proof. apply keeps_frame. intros w. apply groqChat_loop_frame. Qed.

Lemma keeps_getHistory (uid : Z) : keeps (getHistory uid).
Proof.
  apply keeps_frame. intros w. unfold getHistory. by destruct (conversations w !! uid).
Qed.

Lemma keeps_pushHistory (uid : Z) (role : Role) (content : string) :
  keeps (pushHistory uid role content).
Proof.
  apply keeps_frame. intros w.
  destruct (pushHistory_run uid role content w) as (w' & h' & -> & _ & _ & Hc & Hd & _).
  done.
Qed.

Lemma keeps_clearOldHistory (uid : Z) : keeps (clearOldHistory uid).
Proof.
  apply keeps_frame. intros w. unfold clearOldHistory, mbind, M_bind, getHistory, modify.
  by destruct (conversations w !! uid).
Qed.

Lemma keeps_runToolCalls (userId : Z) (tcs : list ToolCall.t) : ∀ messages toolResults,
  keeps (runToolCalls env userId tcs messages toolResults).
Proof.
  induction tcs as [|tc tcs IH]; intros messages toolResults; cbn [runToolCalls];
    [apply keeps_ret|].
  destruct (ToolCall.arguments tc) as [args|]; [|apply IH].
  apply keeps_bind; [|intros content; apply IH].
  apply keeps_try_catch; [apply keeps_executeTool | intros e; apply keeps_ret].
Qed.

Lemma keeps_fallback (userId : Z) : keeps (fallback env stripMarkdown userId).
Proof.
  unfold fallback. apply keeps_try_catch; [|intros e; apply keeps_throw].
  apply keeps_bind; [apply keeps_getHistory|]. intros h.
  apply keeps_bind; [apply keeps_groqChat|]. intros fb.
  apply keeps_bind; [apply keeps_pushHistory|]. intros _. apply keeps_ret.
Qed.

Lemma keeps_chat_loop (remaining : nat) : ∀ (userId : Z) (messages : list Msg.t),
  keeps (chat_loop env stripMarkdown remaining userId messages).
Proof.
  induction remaining as [|r IH]; intros userId messages; cbn [chat_loop];
    [apply keeps_ret|].
  apply keeps_bind; [apply keeps_settled, keeps_groqChat|].
  intros [msg|e].
  - destruct (Reply.tool_calls msg) as [|tc tcs].
    + apply keeps_bind; [apply keeps_pushHistory | intros _; apply keeps_ret].
    + apply keeps_bind; [apply keeps_runToolCalls|].
      intros [messages' toolResults]. destruct (_ && _); [apply keeps_ret | apply IH].
  - destruct (_ || _); [apply keeps_fallback | apply keeps_throw].
Qed.

Lemma keeps_chat (userId : Z) (userMessage : string) :
  keeps (chat env stripMarkdown SYSTEM_PROMPT userId userMessage).
Proof.
  unfold chat.
  apply keeps_bind; [by apply keeps_frame|]. intros r.
  apply keeps_bind.
  { destruct (negb _); [apply keeps_clearOldHistory | apply keeps_ret]. }
  intros _. apply keeps_bind; [apply keeps_pushHistory|]. intros _.
  apply keeps_bind; [apply keeps_cache_getAll|]. intros cached.
  apply keeps_bind.
  { destruct cached; [apply keeps_ret|].
    apply keeps_try_catch; [|intros e; apply keeps_ret].
    intros w Hw. unfold mbind, M_bind. rewrite convex_run.
    destruct (convexError env (length (trace w))); [done|].
    unfold cache_setAll. simpl. by apply coherent_setAll. }
  intros _. apply keeps_bind; [apply keeps_getHistory|]. intros h.
  apply keeps_bind; [apply keeps_chat_loop|].
  intros [text|finalResponse]; [apply keeps_ret|].
  apply keeps_bind; [apply keeps_pushHistory | intros _; apply keeps_ret].
Qed.

Lemma keeps_onText (userId : Z) (text : string) :
  keeps (onText env stripMarkdown SYSTEM_PROMPT userId text).
Proof.
  unfold onText. destruct (String.prefix "/" text); [apply keeps_ret|].
  apply keeps_try_catch; [apply keeps_chat | intros e; apply keeps_ret].
Qed.

End CoherenceChat.

(** X29. The cache never disagrees with the store.  At process start, with
    an empty cache, it agrees with any table without duplicates.  The
    agreement is kept by every run of a tool and by the handling of every
    text message, whatever the provider answers and whether the calls to
    the store go through or fail: after them the table still has no
    duplicates, and every value that the cache holds for a user and a key
    is the value of that user's document with that key. *)
Theorem cache_agrees_with_store (env : Env) (stripMarkdown : string → string)
    (SYSTEM_PROMPT : string) (userId : Z) (w : World) :
  (∀ db, unique db → coherent ∅ db) ∧
  (coherent (cache w) (db w) →
     (∀ name args,
        let w' := (executeTool env name args userId w).2 in
        coherent (cache w') (db w')) ∧
     (∀ text,
        let w' := (onText env stripMarkdown SYSTEM_PROMPT userId text w).2 in
        coherent (cache w') (db w'))).
Proof.
  split.
  - intros db Hu. split; [done|]. intros uid e k v He. by rewrite lookup_empty in He.
  - intros Hw. split.
    + intros name args. by apply keeps_executeTool.
    + intros text. by apply keeps_onText.
Qed.

Lemma cache_agrees_with_store_witness :
  coherent (cache start) (db start) ∧
  coherent
    (cache (onText (calm listCall) (λ s, s) "" 7 "hello" start).2)
    (db (onText (calm listCall) (λ s, s) "" 7 "hello" start).2).
Proof.
  destruct (cache_agrees_with_store (calm listCall) (λ s, s) "" 7 start) as [Hinit Hkeep].
  assert (H : coherent (cache start) (db start)) by (apply Hinit; constructor).
  split; [exact H|]. destruct (Hkeep H) as [_ Htext]. apply Htext.
Defined.

(** The part of [get_memory] that asks the store. *)
Lemma get_memory_store_run (env : Env) (uid k : string) (w : World) :
  convexError env (length (trace w)) = None →
  ((mem ← convex env (getMemory uid k) (λ d, (memories.getMemory uid k d, d));
    match mem with
    | Some mem =>
        _ ← cache_upsert uid k (memories.value mem);
        mret (line mem)
    | None => mret ("No memory found: " +:+ k)
    end) w).1 =
  Ok (match memories.getMemory uid k (db w) with
      | Some d => k +:+ ": " +:+ memories.value d
      | None => "No memory found: " +:+ k
      end).
Proof.
  intros Hok. unfold mbind, M_bind. rewrite convex_run, Hok. simpl.
  destruct (memories.getMemory uid k (db w)) as [d|] eqn:Hd; [|done].
  simpl. unfold line. f_equal. f_equal.
  unfold memories.getMemory, memories.first in Hd.
  apply find_Some_bool in Hd as [_ Hd]. by apply by_user_key_true in Hd as [_ ->].
Qed.

(** X30. The cache does not show in the answers of [get_memory]: on a state
    in which the cache agrees with the store, a [get_memory] for a key,
    whose call to the store (if it makes one) goes through, answers with
    the value of the user's document in the table, or that there is none,
    whether or not the cache holds the key. *)
Theorem get_memory_transparent (env : Env) (userId : Z) (key : string) (w : World) :
  let uid := String_ userId in
  let k := normalizeKey key in
  key ≠ "" →
  coherent (cache w) (db w) →
  convexError env (length (trace w)) = None →
  (executeTool env "get_memory" (Args.mk (Some key) None None None) userId w).1 =
    Ok (match memories.getMemory uid k (db w) with
        | Some d => k +:+ ": " +:+ memories.value d
        | None => "No memory found: " +:+ k
        end).
Proof.
  intros uid k Hkey [Hu Hc] Hok.
  unfold executeTool, try_catch. simpl. fold uid.
  rewrite (get_memory_keyed env uid key (Args.mk (Some key) None None None) eq_refl Hkey).
  fold k. unfold mbind at 1. unfold M_bind at 1. unfold cache_get at 1.
  destruct (MemoryCache.get (now w) uid k (cache w)) as [cached c1] eqn:Hget.
  pose proof (get_memory_store_run env uid k (set_cache c1 w) Hok) as Hstore.
  simpl in Hstore.
  destruct cached as [[|c' v]|].
  - match goal with
    | |- context [(?c ≫= ?f) (set_cache c1 w)] =>
        destruct ((c ≫= f) (set_cache c1 w)) as [r w']
    end.
    simpl in *. by rewrite Hstore.
  - simpl. f_equal.
    unfold MemoryCache.get in Hget.
    destruct (MemoryCache._entry (now w) uid (cache w)) as [[e|] c2] eqn:He; [|done].
    injection Hget as Hk _. apply _entry_Some in He as (He & _ & _).
    specialize (Hc uid e k (String c' v) He Hk).
    destruct (memories.getMemory uid k (db w)) as [d|]; simpl in Hc; [|done].
    injection Hc as Hv. by rewrite Hv.
  - match goal with
    | |- context [(?c ≫= ?f) (set_cache c1 w)] =>
        destruct ((c ≫= f) (set_cache c1 w)) as [r w']
    end.
    simpl in *. by rewrite Hstore.
Qed.

Lemma get_memory_transparent_witness :
  (executeTool (calm listCall) "get_memory" (Args.mk (Some "City") None None None) 7
     (set_db [memories.mkDoc "7" "city" "Rome"] start)).1 = Ok "city: Rome".
Proof.
  apply (get_memory_transparent (calm listCall) 7 "City"
           (set_db [memories.mkDoc "7" "city" "Rome"] start)); [done | | done].
  split.
  - unfold unique. simpl. apply NoDup_singleton.
  - intros uid e k v He. change ((∅ : MemoryCache.t) !! uid = Some e) in He.
    by rewrite lookup_empty in He.
Defined.
